(** * vkgc: a deferred garbage collector for Vulkan resources

    Shallow embedding of [src/vkgc.hh] and [src/vkgc.cc] and the proofs
    of the properties the specification states about them.

    Conventions of the embedding:
    - a [void *] resource identity and a [VkSemaphore] handle are
      addresses, modelled as [N]; [nullptr] is [0];
    - a [std::function] is an opaque closure: a non-empty one is
      a token [Some f], an empty one is [None]; invoking it appends an
      event to the [trace] of the collector and does nothing else (a
      closure that re-enters the collector would block on the
      non-recursive mutex, so closures cannot change the collector);
    - [size_t] is 64 bits wide; [++] and [--] wrap around;
    - the device is consulted through [vkGetSemaphoreCounterValue],
      [vkDestroySemaphore] and [vkDeviceWaitIdle]; each call is an event
      of the trace, and the value a query reports is given by a function
      from semaphores to [uint64_t] values that is an argument of
      [collect];
    - [check_delete] is recursive on the dependency graph, so it takes a
      fuel argument; running it on a consistent state with enough fuel
      is shown to return. *)

From stdpp Require Import gmap list fin_maps sorting.
From Stdlib Require Import NArith Lia.

(** ** Data model ([vkgc.hh]) *)

Definition nullptr : N := 0%N.

(** [SIZE_MAX] of a 64-bit [size_t]. *)
Definition SIZE_MAX : N := (2 ^ 64 - 1)%N.

(** [n++] on a [size_t]. *)
Definition size_incr (n : N) : N :=
  if (n =? SIZE_MAX)%N then 0%N else (n + 1)%N.

(** [n--] on a [size_t]. *)
Definition size_decr (n : N) : N :=
  if (n =? 0)%N then SIZE_MAX else (n - 1)%N.

(** [struct dependency_info]. *)
Record dependency_info := {
  dependency_count : N;
  dependents : list N;
  cleanup : option N
}.

(** A value-initialised [dependency_info], as [operator[]] creates it. *)
Definition dependency_info_default : dependency_info :=
  {| dependency_count := 0; dependents := []; cleanup := None |}.

(** [struct trigger]. *)
Record trigger := {
  value : N;
  dependent : N;
  callback : option N
}.

(** [trigger::operator<]: [a < t] compares the values the other way
    round, which turns [std::priority_queue] into a min-heap. *)
Definition trigger_lt (a t : trigger) : bool := (value t <? value a)%N.

(** [struct semaphore_info]. The priority queue is kept as the list of
    its elements in the order [top]/[pop] hands them out: [top] is the
    head and [pop] takes the tail. The heap leaves the order of triggers
    of the same value open; see [reach_reheap]. *)
Record semaphore_info := {
  triggers : list trigger;
  should_destroy : bool
}.

Definition semaphore_info_default : semaphore_info :=
  {| triggers := []; should_destroy := false |}.

(** What the collector does to the outside world, in program order.
    [EvDecrement r c] records a [dependency_count--] of the record of
    [r], [c] being the count before it. *)
Inductive event :=
  | EvLock
  | EvUnlock
  | EvCleanup (resource : N) (f : N)
  | EvCallback (f : N)
  | EvDecrement (resource : N) (before : N)
  | EvGetSemaphoreCounterValue (sem : N)
  | EvDestroySemaphore (sem : N)
  | EvDeviceWaitIdle.

(** [class garbage_collector]. [resources] is the [unordered_map] of
    dependency records; [semaphore_dependencies] is the [unordered_map]
    of semaphores, kept as an association list whose order is the order
    in which [collect] iterates over it (C++ leaves that order
    unspecified). *)
Record garbage_collector := {
  resources : gmap N dependency_info;
  semaphore_dependencies : list (N * semaphore_info);
  trace : list event
}.

Definition gc_init : garbage_collector :=
  {| resources := ∅; semaphore_dependencies := []; trace := [] |}.

(** ** Outcomes of a run *)

Inductive outcome (A : Type) :=
  | Done (a : A)
  | OutOfFuel
  | Undefined.
Arguments Done {A} a.
Arguments OutOfFuel {A}.
Arguments Undefined {A}.

Definition outcome_bind {A B} (m : outcome A) (k : A → outcome B) : outcome B :=
  match m with
  | Done a => k a
  | OutOfFuel => OutOfFuel
  | Undefined => Undefined
  end.

Notation "x ←← m ; k" := (outcome_bind m (λ x, k))
  (at level 20, m at level 100, k at level 200, right associativity,
   format "x  ←←  m ;  '/' k").
Notation "' p ←← m ; k" := (outcome_bind m (λ p, k))
  (at level 20, p pattern, m at level 100, k at level 200, right associativity,
   format "' p  ←←  m ;  '/' k").

(** ** State access *)

Definition emit (e : event) (g : garbage_collector) : garbage_collector :=
  {| resources := resources g;
     semaphore_dependencies := semaphore_dependencies g;
     trace := trace g ++ [e] |}.

Definition with_resources (m : gmap N dependency_info) (g : garbage_collector)
  : garbage_collector :=
  {| resources := m;
     semaphore_dependencies := semaphore_dependencies g;
     trace := trace g |}.

Definition with_semaphores (l : list (N * semaphore_info)) (g : garbage_collector)
  : garbage_collector :=
  {| resources := resources g;
     semaphore_dependencies := l;
     trace := trace g |}.

(** The record [resources[r]] denotes: the stored one, or a fresh
    value-initialised one. *)
Definition resources_index (r : N) (m : gmap N dependency_info) : dependency_info :=
  default dependency_info_default (m !! r).

(** [resources[r].field = ...]: get-or-create, then update in place. *)
Definition resources_modify (r : N) (f : dependency_info → dependency_info)
    (m : gmap N dependency_info) : gmap N dependency_info :=
  <[r := f (resources_index r m)]> m.

Definition set_cleanup (c : option N) (i : dependency_info) : dependency_info :=
  {| dependency_count := dependency_count i; dependents := dependents i; cleanup := c |}.

Definition set_count (f : N → N) (i : dependency_info) : dependency_info :=
  {| dependency_count := f (dependency_count i);
     dependents := dependents i; cleanup := cleanup i |}.

Definition append_dependents (l : list N) (i : dependency_info) : dependency_info :=
  {| dependency_count := dependency_count i;
     dependents := dependents i ++ l; cleanup := cleanup i |}.

(** [resources[r].dependency_count++]. *)
Definition increment (r : N) (g : garbage_collector) : garbage_collector :=
  with_resources (resources_modify r (set_count size_incr) (resources g)) g.

(** [resources[r].dependency_count--]. *)
Definition decrement (r : N) (g : garbage_collector) : garbage_collector :=
  emit (EvDecrement r (dependency_count (resources_index r (resources g))))
    (with_resources (resources_modify r (set_count size_decr) (resources g)) g).

(** [semaphore_dependencies[sem]]: get-or-create, then update in place.
    A new entry goes to the end of the iteration order. *)
Fixpoint semaphores_modify (sem : N) (f : semaphore_info → semaphore_info)
    (l : list (N * semaphore_info)) : list (N * semaphore_info) :=
  match l with
  | [] => [(sem, f semaphore_info_default)]
  | (k, i) :: l' =>
      if (k =? sem)%N then (k, f i) :: l'
      else (k, i) :: semaphores_modify sem f l'
  end.

(** [std::priority_queue::push]: the new trigger goes in front of the
    first element that compares less than it, so that [top] stays an
    element that is less than no other element. *)
Fixpoint pq_push (t : trigger) (q : list trigger) : list trigger :=
  match q with
  | [] => [t]
  | h :: q' => if trigger_lt h t then t :: q else h :: pq_push t q'
  end.

Definition push_trigger (t : trigger) (i : semaphore_info) : semaphore_info :=
  {| triggers := pq_push t (triggers i); should_destroy := should_destroy i |}.

Definition mark_destroy (i : semaphore_info) : semaphore_info :=
  {| triggers := triggers i; should_destroy := true |}.

(** ** Operations ([vkgc.cc]) *)

(** A range-based [for] whose body can fail. *)
Fixpoint for_each {A S : Type} (body : A → S → outcome S) (l : list A) (s : S)
  : outcome S :=
  match l with
  | [] => Done s
  | a :: l' => s' ←← body a s; for_each body l' s'
  end.

(** [garbage_collector::check_delete]. [find] on a missing key gives
    [end()], whose dereference is undefined. *)
Fixpoint check_delete (fuel : nat) (resource : N) (g : garbage_collector)
  : outcome garbage_collector :=
  match fuel with
  | O => OutOfFuel
  | S fuel' =>
      match resources g !! resource with
      | None => Undefined
      | Some it =>
          match (dependency_count it =? 0)%N, cleanup it with
          | true, Some f =>
              g' ←← for_each
                      (λ dep g, check_delete fuel' dep (decrement dep g))
                      (dependents it)
                      (emit (EvCleanup resource f) g);
              Done (with_resources (delete resource (resources g')) g')
          | _, _ => Done g
          end
      end
  end.

(** [garbage_collector::release] of a resource. *)
Definition release (fuel : nat) (resource : N) (c : option N)
    (g : garbage_collector) : outcome garbage_collector :=
  let g := emit EvLock g in
  let g := with_resources (resources_modify resource (set_cleanup c) (resources g)) g in
  g ←← check_delete fuel resource g;
  Done (emit EvUnlock g).

(** [garbage_collector::release] of a semaphore. *)
Definition release_semaphore (sem : N) (g : garbage_collector) : garbage_collector :=
  let g := emit EvLock g in
  let g := with_semaphores
             (semaphores_modify sem mark_destroy (semaphore_dependencies g)) g in
  emit EvUnlock g.

(** [garbage_collector::depend_many]. *)
Definition depend_many (used_resources : list N) (user_resource : N)
    (g : garbage_collector) : garbage_collector :=
  let g := emit EvLock g in
  let g := with_resources
             (resources_modify user_resource (append_dependents used_resources)
                (resources g)) g in
  let g := foldl (λ g used, increment used g) g used_resources in
  emit EvUnlock g.

(** [garbage_collector::depend] on a resource. *)
Definition depend (used_resource user_resource : N) (g : garbage_collector)
  : garbage_collector :=
  depend_many [used_resource] user_resource g.

(** [garbage_collector::depend] on a timeline semaphore. *)
Definition depend_semaphore (used_resource timeline v : N)
    (g : garbage_collector) : garbage_collector :=
  let g := emit EvLock g in
  let g := increment used_resource g in
  let t := {| value := v; dependent := used_resource; callback := None |} in
  let g := with_semaphores
             (semaphores_modify timeline (push_trigger t) (semaphore_dependencies g)) g in
  emit EvUnlock g.

(** [garbage_collector::add_trigger]. *)
Definition add_trigger (timeline v : N) (cb : option N)
    (g : garbage_collector) : garbage_collector :=
  let g := emit EvLock g in
  let t := {| value := v; dependent := nullptr; callback := cb |} in
  let g := with_semaphores
             (semaphores_modify timeline (push_trigger t) (semaphore_dependencies g)) g in
  emit EvUnlock g.

(** The body of the [while] loop of [collect], for the trigger on top. *)
Definition fire (fuel : nat) (t : trigger) (g : garbage_collector)
  : outcome garbage_collector :=
  let g := match callback t with
           | Some f => emit (EvCallback f) g
           | None => g
           end in
  if (dependent t =? nullptr)%N then Done g
  else check_delete fuel (dependent t) (decrement (dependent t) g).

(** The [while] loop of [collect] on one priority queue: returns what
    is left of the queue. *)
Fixpoint drain (fuel : nat) (v : N) (q : list trigger) (g : garbage_collector)
  : outcome (list trigger * garbage_collector) :=
  match q with
  | [] => Done ([], g)
  | t :: q' =>
      if (value t <=? v)%N then
        g' ←← fire fuel t g; drain fuel v q' g'
      else Done (q, g)
  end.

(** The [for] loop of [collect] over the semaphores: returns what is
    left of the map. *)
Fixpoint collect_loop (fuel : nat) (dev : N → N)
    (sems : list (N * semaphore_info)) (g : garbage_collector)
  : outcome (list (N * semaphore_info) * garbage_collector) :=
  match sems with
  | [] => Done ([], g)
  | (sem, info) :: rest =>
      let g := emit (EvGetSemaphoreCounterValue sem) g in
      '(q, g) ←← drain fuel (dev sem) (triggers info) g;
      match q, should_destroy info with
      | [], true =>
          collect_loop fuel dev rest (emit (EvDestroySemaphore sem) g)
      | _, _ =>
          '(rest', g) ←← collect_loop fuel dev rest g;
          Done ((sem, {| triggers := q; should_destroy := should_destroy info |})
                  :: rest', g)
      end
  end.

(** [garbage_collector::collect]. *)
Definition collect (fuel : nat) (dev : N → N) (g : garbage_collector)
  : outcome garbage_collector :=
  let g := emit EvLock g in
  '(sems, g) ←← collect_loop fuel dev (semaphore_dependencies g) g;
  Done (emit EvUnlock (with_semaphores sems g)).

(** [garbage_collector::wait_collect]. [dev] is what the semaphores
    report during the first [collect], [dev_idle] what they report once
    [vkDeviceWaitIdle] has returned. The [unique_lock] releases the mutex
    in its destructor only when it still owns it. *)
Definition wait_collect (fuel : nat) (dev dev_idle : N → N)
    (g : garbage_collector) : outcome garbage_collector :=
  g ←← collect fuel dev g;
  let g := emit EvLock g in
  if negb (size (resources g) =? 0)%nat
     || negb (length (semaphore_dependencies g) =? 0)%nat
  then
    let g := emit EvDeviceWaitIdle g in
    let g := emit EvUnlock g in
    collect fuel dev_idle g
  else Done (emit EvUnlock g).

(** The public operations, as data. *)
Inductive operation :=
  | Release (resource : N) (c : option N)
  | ReleaseSemaphore (sem : N)
  | Depend (used_resource user_resource : N)
  | DependMany (used_resources : list N) (user_resource : N)
  | DependSemaphore (used_resource timeline v : N)
  | AddTrigger (timeline v : N) (cb : option N)
  | Collect (dev : N → N)
  | WaitCollect (dev dev_idle : N → N).

Definition exec (fuel : nat) (o : operation) (g : garbage_collector)
  : outcome garbage_collector :=
  match o with
  | Release r c => release fuel r c g
  | ReleaseSemaphore s => Done (release_semaphore s g)
  | Depend a b => Done (depend a b g)
  | DependMany l b => Done (depend_many l b g)
  | DependSemaphore a s v => Done (depend_semaphore a s v g)
  | AddTrigger s v cb => Done (add_trigger s v cb g)
  | Collect dev => collect fuel dev g
  | WaitCollect dev dev_idle => wait_collect fuel dev dev_idle g
  end.

(** The dependency edges an operation registers. *)
Definition registered (o : operation) : N :=
  match o with
  | Depend _ _ | DependSemaphore _ _ _ => 1%N
  | DependMany l _ => N.of_nat (length l)
  | _ => 0%N
  end.

(** ** Vocabulary of the proofs

    The definitions below are not part of the program: they name the
    states, traces and edge counts the lemmas and theorems speak about.

    An edge is pending when its target has been incremented for it and
    not yet decremented: an entry of a [dependents] vector of a record,
    or a trigger with a dependent. While [check_delete] runs, the
    records it is deleting are still in the map; [K] lists them, and the
    entries of their vectors that the loop has yet to visit are counted
    apart. *)

(** The edges a record of the map holds. *)
Definition edges_from (K : list N) (kv : N * dependency_info) : list N :=
  if decide (kv.1 ∈ K) then [] else dependents kv.2.

(** The targets of the edges the records outside [K] hold, with
    repetitions. *)
Definition pending (K : list N) (m : gmap N dependency_info) : list N :=
  map_to_list m ≫= edges_from K.

(** [resources.erase(it)]. *)
Definition erase (r : N) (g : garbage_collector) : garbage_collector :=
  with_resources (delete r (resources g)) g.

(** The [dependency_count] of [r]; [0] when [r] has no record. *)
Definition refcount (g : garbage_collector) (r : N) : N :=
  dependency_count (resources_index r (resources g)).

(** How many edges of [l] point to [r]. *)
Definition occurrences (r : N) (l : list N) : N :=
  N.of_nat (count_occ N.eq_dec l r).

(** Every pending edge is counted, and (except for [nullptr], which
    [depend] on a semaphore increments but [collect] never decrements)
    nothing else is. [E] are the pending edges held outside the map. *)
Definition accounted (K E : list N) (g : garbage_collector) : Prop :=
  ∀ r, (occurrences r (E ++ pending K (resources g)) ≤ refcount g r)%N
       ∧ (r ≠ nullptr →
          (refcount g r ≤ occurrences r (E ++ pending K (resources g)))%N).

(** The number of pending edges. *)
Definition total (K E : list N) (g : garbage_collector) : nat :=
  length (E ++ pending K (resources g)).

(** The test of [check_delete]: [dependency_count == 0 && cleanup]. *)
Definition is_eligible (i : dependency_info) : bool :=
  match (dependency_count i =? 0)%N, cleanup i with
  | true, Some _ => true
  | _, _ => false
  end.

(** A decrement of a count that is [0] would wrap around. *)
Definition event_ok (e : event) : Prop :=
  match e with
  | EvDecrement _ c => (0 < c)%N
  | _ => True
  end.

(** How often the cleanup of [r] is invoked in a trace. *)
Fixpoint cleanups_of (r : N) (l : list event) : nat :=
  match l with
  | [] => 0
  | EvCleanup r' _ :: l' => (if decide (r' = r) then 1 else 0) + cleanups_of r l'
  | _ :: l' => cleanups_of r l'
  end.

(** [1] when the record of [r] is in [g] and no longer in [g'], else [0]. *)
Definition deleted (r : N) (g g' : garbage_collector) : nat :=
  match resources g !! r, resources g' !! r with
  | Some _, None => 1
  | _, _ => 0
  end.

(** The state [check_delete] starts its loop from, with the record of
    an eligible [r] taken out of the map right away instead of at the
    end. *)
Definition begin_delete (r : N) (g : garbage_collector) : garbage_collector :=
  match resources g !! r with
  | Some it =>
      match (dependency_count it =? 0)%N, cleanup it with
      | true, Some f => emit (EvCleanup r f) (erase r g)
      | _, _ => g
      end
  | None => g
  end.

(** [g'] comes from [g] by resolving edges and deleting records. *)
Record cascade (K : list N) (g g' : garbage_collector) : Prop := {
  cas_zero : ∀ x, refcount g x = 0%N → resources g' !! x = resources g !! x;
  cas_mono : ∀ x, (refcount g' x ≤ refcount g x)%N;
  cas_dom : ∀ x, resources g !! x = None → resources g' !! x = None;
  cas_sems : semaphore_dependencies g' = semaphore_dependencies g;
  cas_trace : ∃ evs, trace g' = trace g ++ evs ∧ Forall event_ok evs
                ∧ ∀ x, cleanups_of x evs = deleted x g g';
  cas_elig : ∀ x i, resources g' !! x = Some i → is_eligible i = true →
                resources g !! x = Some i;
  cas_len : length (pending K (resources g')) ≤ length (pending K (resources g));
  cas_same : ∀ x i', resources g' !! x = Some i' →
                ∃ i, resources g !! x = Some i
                     ∧ cleanup i' = cleanup i ∧ dependents i' = dependents i
}.

(** The records under deletion have count [0]. *)
Definition zero_counts (K : list N) (g : garbage_collector) : Prop :=
  Forall (λ k, refcount g k = 0%N) K.

(** What [check_delete] with [fuel] does when the edges are accounted
    for and [fuel] exceeds their number. *)
Definition check_delete_spec (fuel : nat) : Prop :=
  ∀ (K E : list N) (g : garbage_collector) (r : N),
    accounted K E g → zero_counts K g → r ∉ K →
    is_Some (resources g !! r) → total K E g < fuel →
    ∃ g', check_delete fuel r g = Done g'
          ∧ accounted K E g' ∧ cascade K (begin_delete r g) g'.

(** The edge a pending trigger holds: [collect] tests the dependent
    against [nullptr] before it resolves it. *)
Definition trigger_edge (t : trigger) : list N :=
  if (dependent t =? nullptr)%N then [] else [dependent t].

Definition queue_edges (q : list trigger) : list N := q ≫= trigger_edge.

Definition semaphore_edges (l : list (N * semaphore_info)) : list N :=
  l ≫= (λ kv, queue_edges (triggers kv.2)).

(** The triggers the [while] loop pops, and those it leaves. *)
Fixpoint take_ready (v : N) (q : list trigger) : list trigger :=
  match q with
  | [] => []
  | t :: q' => if (value t <=? v)%N then t :: take_ready v q' else []
  end.

Fixpoint drop_ready (v : N) (q : list trigger) : list trigger :=
  match q with
  | [] => []
  | t :: q' => if (value t <=? v)%N then drop_ready v q' else q
  end.

(** The semaphore map [collect] leaves behind. *)
Fixpoint collect_result (dev : N → N) (sems : list (N * semaphore_info))
  : list (N * semaphore_info) :=
  match sems with
  | [] => []
  | (sem, info) :: rest =>
      match drop_ready (dev sem) (triggers info), should_destroy info with
      | [], true => collect_result dev rest
      | q, b => (sem, {| triggers := q; should_destroy := b |})
                  :: collect_result dev rest
      end
  end.

(** The order in which [top]/[pop] hand out a queue: by ascending
    [value]. *)
Definition pq_sorted (q : list trigger) : Prop :=
  StronglySorted (λ a b, (value a ≤ value b)%N) q.

(** No record of the map is ready for deletion. *)
Definition settled (g : garbage_collector) : Prop :=
  ∀ x i, resources g !! x = Some i → is_eligible i = false.

(** The invariant of the collector between two public operations, [n]
    bounding the number of dependency edges registered so far. *)
Record consistent (n : N) (g : garbage_collector) : Prop := {
  con_accounted :
    accounted [] (semaphore_edges (semaphore_dependencies g)) g;
  con_bound : ∀ x, (refcount g x ≤ n)%N;
  con_settled : settled g;
  con_trace : Forall event_ok (trace g);
  con_sorted :
    Forall (λ kv, pq_sorted (triggers kv.2)) (semaphore_dependencies g);
  con_keys : NoDup (semaphore_dependencies g).*1
}.

(** Fuel that is enough for any operation on [g]. *)
Definition enough_fuel (g : garbage_collector) : nat :=
  S (total [] (semaphore_edges (semaphore_dependencies g)) g).

(** The state [release] hands to [check_delete]. *)
Definition released (r : N) (c : option N) (g : garbage_collector)
  : garbage_collector :=
  with_resources (resources_modify r (set_cleanup c) (resources g))
    (emit EvLock g).

(** Whether [wait_collect] finds something left after its first
    [collect]. *)
Definition has_records (g : garbage_collector) : bool :=
  negb (size (resources g) =? 0)%nat
  || negb (length (semaphore_dependencies g) =? 0)%nat.

(** Two entries of the semaphore map that differ at most in the order
    in which the queue hands out triggers of the same value. *)
Definition same_heap (a b : N * semaphore_info) : Prop :=
  a.1 = b.1 ∧ should_destroy a.2 = should_destroy b.2
  ∧ triggers a.2 ≡ₚ triggers b.2 ∧ pq_sorted (triggers a.2).

(** The states the public operations lead to from a fresh collector,
    indexed by the number of dependency edges registered on the way.
    [reach_rehash] lets the semaphore map change its iteration order at
    any time, and [reach_reheap] lets every heap hand out its triggers
    in any order that ascends in [value]. *)
Inductive reachable : N → garbage_collector → Prop :=
  | reach_init : reachable 0 gc_init
  | reach_exec n g fuel o g' :
      reachable n g → exec fuel o g = Done g' →
      reachable (n + registered o) g'
  | reach_rehash n g l :
      reachable n g → l ≡ₚ semaphore_dependencies g →
      reachable n (with_semaphores l g)
  | reach_reheap n g l :
      reachable n g → Forall2 same_heap l (semaphore_dependencies g) →
      reachable n (with_semaphores l g).

(** The events of a cascade: cleanups and decrements. *)
Definition is_internal (e : event) : bool :=
  match e with
  | EvCleanup _ _ | EvDecrement _ _ => true
  | _ => false
  end.

(** A trace without the events of the cascades: the mutex, the device
    calls and the trigger callbacks. *)
Definition outer (l : list event) : list event :=
  filter (λ e, is_internal e = false) l.

(** What the callback of a trigger shows when the trigger fires. *)
Definition callback_event (t : trigger) : list event :=
  match callback t with
  | Some f => [EvCallback f]
  | None => []
  end.

(** The triggers of a queue that are ready when the semaphore reports
    [v], and those that are not. *)
Definition ready (v : N) (q : list trigger) : list trigger :=
  filter (λ t, (value t ≤ v)%N) q.

Definition waiting (v : N) (q : list trigger) : list trigger :=
  filter (λ t, (v < value t)%N) q.

(** What one pass of the loop of [collect] over a semaphore shows. *)
Definition counter_events (dev : N → N) (kv : N * semaphore_info) : list event :=
  EvGetSemaphoreCounterValue kv.1
  :: (ready (dev kv.1) (triggers kv.2) ≫= callback_event)
  ++ match waiting (dev kv.1) (triggers kv.2), should_destroy kv.2 with
     | [], true => [EvDestroySemaphore kv.1]
     | _, _ => []
     end.

(** The reasons the specification gives for a record to be in the map:
    a positive count, a cleanup that is set and has not run, or a pending
    trigger it is the dependent of. *)
Definition record_justified (g : garbage_collector) (x : N)
    (i : dependency_info) : Prop :=
  (0 < dependency_count i)%N
  ∨ is_Some (cleanup i)
  ∨ x ∈ semaphore_edges (semaphore_dependencies g).

(** The record of [x], when it has no cleanup in [g], is still in the
    map in [g'], without a cleanup. *)
Definition unreleased_kept (x : N) (K : list N)
    (g g' : garbage_collector) : Prop :=
  ∀ i, resources g !! x = Some i → cleanup i = None →
       ∃ i', resources g' !! x = Some i' ∧ cleanup i' = None.

(** The callbacks a trace invoked, the callbacks of the triggers that
    are still pending, and a sequence of [collect] calls. *)
Definition callbacks_of (l : list event) : list N :=
  omap (λ e, match e with EvCallback f => Some f | _ => None end) l.

Definition pending_callbacks (l : list (N * semaphore_info)) : list N :=
  l ≫= (λ kv, omap callback (triggers kv.2)).

Definition collect_many (fuel : nat) (devs : list (N → N))
    (g : garbage_collector) : outcome garbage_collector :=
  for_each (collect fuel) devs g.

(** Whether the calling thread holds the mutex at the end of a trace. *)
Definition lock_held (l : list event) : bool :=
  foldl (λ held e, match e with
                   | EvLock => true
                   | EvUnlock => false
                   | _ => held
                   end) false l.

(** What the specification asks of [wait_collect]: whenever it waits
    for the device, it does not hold the mutex. *)
Definition waits_unlocked (l : list event) : Prop :=
  ∀ pre post, l = pre ++ EvDeviceWaitIdle :: post → lock_held pre = false.

(** A sequence of public operations, and the edges it registers. *)
Definition run (fuel : nat) (ops : list operation) (g : garbage_collector)
  : outcome garbage_collector :=
  for_each (exec fuel) ops g.

Definition registered_all (ops : list operation) : N :=
  foldr (λ o n, (registered o + n)%N) 0%N ops.

(** The state a run ends in. *)
Definition done_or_init (o : outcome garbage_collector) : garbage_collector :=
  match o with
  | Done g => g
  | _ => gc_init
  end.

(** [depend(1, 2)], [depend(2, 3)], then [1] and [2] released: a
    chain that waits for the release of [3]. *)
Definition example_chain : garbage_collector :=
  done_or_init
    (run 3 [Depend 1 2; Depend 2 3; Release 1 (Some 11%N); Release 2 (Some 12%N)]
       gc_init).

(** A released resource that waits for semaphore [7] to reach [5], a
    callback on [7] at [3], and a released semaphore [8] with a callback
    at [4]. *)
Definition example_semaphores : garbage_collector :=
  done_or_init
    (run 3 [DependSemaphore 1 7 5; Release 1 (Some 11%N);
            AddTrigger 7 3 (Some 21%N); AddTrigger 8 4 (Some 22%N);
            ReleaseSemaphore 8]
       gc_init).

(** The same with semaphore [7] released as well. *)
Definition example_released : garbage_collector :=
  release_semaphore 7 example_semaphores.

(** ** Vocabulary of the further properties *)

(** The state of the mutex along a trace of the calling thread, from
    [held]: [None] when the trace takes the mutex while the thread holds
    it (a deadlock, [std::mutex] not being recursive), releases it while
    the thread does not hold it, or invokes a cleanup or a callback,
    decrements a count, queries or destroys a semaphore without holding
    it. [vkDeviceWaitIdle] is allowed either way. *)
Fixpoint lock_state (held : bool) (l : list event) : option bool :=
  match l with
  | [] => Some held
  | EvLock :: l' => if held then None else lock_state true l'
  | EvUnlock :: l' => if held then lock_state false l' else None
  | EvDeviceWaitIdle :: l' => lock_state held l'
  | _ :: l' => if held then lock_state true l' else None
  end.

(** [g'] comes from [g] through events that need the mutex held and
    leave it held. *)
Definition runs_locked (g g' : garbage_collector) : Prop :=
  ∃ evs, trace g' = trace g ++ evs
         ∧ Forall (λ e, lock_state true [e] = Some true) evs.

(** [1] when a cleanup is stored for [x] and has not been invoked: the
    record of [x] has a cleanup and is not one of the records [K] under
    deletion, whose cleanups have run. *)
Definition awaiting (K : list N) (g : garbage_collector) (x : N) : nat :=
  if decide (x ∈ K) then 0
  else match cleanup (resources_index x (resources g)) with
       | Some _ => 1
       | None => 0
       end.

(** How often a run hands a non-empty cleanup for [x] to [release]. *)
Fixpoint releases_of (x : N) (ops : list operation) : nat :=
  match ops with
  | [] => 0
  | Release r (Some _) :: ops' =>
      (if decide (r = x) then 1 else 0) + releases_of x ops'
  | _ :: ops' => releases_of x ops'
  end.

(** Every cleanup invoked from [g] to [g'] uses up a stored one. *)
Definition invokes_stored (K : list N) (g g' : garbage_collector) : Prop :=
  ∃ evs, trace g' = trace g ++ evs
         ∧ ∀ x, cleanups_of x evs + awaiting K g' x ≤ awaiting K g x.

(** Every resource of [C] is among the [dependents] of the record of
    a resource of [C]: a dependency cycle, with what the cycle uses. *)
Definition cycle_closed (C : list N) (g : garbage_collector) : Prop :=
  ∀ y, y ∈ C →
       ∃ z i, z ∈ C ∧ resources g !! z = Some i ∧ y ∈ dependents i.

(** From [g] to [g'] the resources of [C] keep using each other, and
    none of their cleanups is invoked. *)
Definition keeps_cycle (C K : list N) (g g' : garbage_collector) : Prop :=
  (∀ y, y ∈ C → y ∉ K) → cycle_closed C g →
  cycle_closed C g'
  ∧ ∃ evs, trace g' = trace g ++ evs ∧ ∀ y, y ∈ C → cleanups_of y evs = 0.

(** From [m] to [m'] no record is removed, no cleanup changes, and
    [dependents] vectors grow at their end only. *)
Definition records_kept (m m' : gmap N dependency_info) : Prop :=
  ∀ x i, m !! x = Some i →
         ∃ i', m' !! x = Some i' ∧ cleanup i' = cleanup i
               ∧ dependents i `prefix_of` dependents i'.

(** From [l] to [l'] no semaphore record is removed, none loses a
    trigger, and none that is marked for destruction loses the mark;
    nothing is said of the iteration order. *)
Definition semaphores_kept (l l' : list (N * semaphore_info)) : Prop :=
  ∀ s info, (s, info) ∈ l →
            ∃ info', (s, info') ∈ l' ∧ triggers info ⊆+ triggers info'
                     ∧ (should_destroy info = true →
                        should_destroy info' = true).

(** The record of [user] has [used] among its [dependents]. *)
Definition holds_edge (g : garbage_collector) (user used : N) : Prop :=
  ∃ i, resources g !! user = Some i ∧ used ∈ dependents i.

(** Whether a trace invokes no cleanup of [used] before it has invoked
    one of [user]. *)
Fixpoint cleaned_in_order (user used : N) (evs : list event) : bool :=
  match evs with
  | [] => true
  | EvCleanup r _ :: evs' =>
      if decide (r = user) then true
      else if decide (r = used) then false
      else cleaned_in_order user used evs'
  | _ :: evs' => cleaned_in_order user used evs'
  end.

(** From [g], where [user] is not under deletion and uses [used], to
    [g']: no cleanup of [used] before one of [user], and in [g'] the
    cleanup of [user] has run or [user] still uses [used]. *)
Definition user_first (user used : N) (K : list N)
    (g g' : garbage_collector) : Prop :=
  ∃ evs, trace g' = trace g ++ evs
         ∧ (user ∉ K → holds_edge g user used →
            cleaned_in_order user used evs = true
            ∧ (0 < cleanups_of user evs ∨ holds_edge g' user used)).

(** [depend(1, 1)], then [1] released: a resource that uses itself. *)
Definition example_cycle : garbage_collector :=
  done_or_init (run 1 [Depend 1 1; Release 1 (Some 11%N)] gc_init).

(** [example_semaphores] after a [collect] that finds every semaphore
    at [9]: both callbacks and the cleanup of [1] have run. *)
Definition example_collected : garbage_collector :=
  done_or_init (run 3 [Collect (λ _, 9%N)] example_semaphores).

(** ** Pending dependency edges *)

Section pending_edges.
Implicit Types (m : gmap N dependency_info) (K E : list N).

Global Instance occurrences_perm r : Proper ((≡ₚ) ==> (=)) (occurrences r).
Proof.
  intros l1 l2 H. unfold occurrences. f_equal.
  by apply (Permutation_count_occ N.eq_dec).
Qed.

Lemma occurrences_app r l1 l2 :
  occurrences r (l1 ++ l2) = (occurrences r l1 + occurrences r l2)%N.
Proof. unfold occurrences. rewrite count_occ_app. lia. Qed.

Lemma occurrences_cons r d l :
  occurrences r (d :: l) =
  ((if decide (d = r) then 1 else 0) + occurrences r l)%N.
Proof.
  unfold occurrences. simpl.
  destruct (N.eq_dec d r), (decide (d = r)); try done; lia.
Qed.

Lemma occurrences_nil r : occurrences r [] = 0%N.
Proof. done. Qed.

Lemma occurrences_le_length r l : (occurrences r l ≤ N.of_nat (length l))%N.
Proof.
  unfold occurrences. induction l as [|a l IH]; simpl; [lia|].
  destruct (N.eq_dec a r); lia.
Qed.

Lemma pending_insert K m k i :
  pending K (<[k:=i]> m) ≡ₚ edges_from K (k, i) ++ pending K (delete k m).
Proof.
  unfold pending. rewrite <-(insert_delete_eq m).
  rewrite map_to_list_insert by apply lookup_delete_eq.
  by rewrite bind_cons.
Qed.

Lemma pending_lookup K m k i :
  m !! k = Some i →
  pending K m ≡ₚ edges_from K (k, i) ++ pending K (delete k m).
Proof.
  intros H. unfold pending.
  by rewrite <-(map_to_list_delete m k i H), bind_cons.
Qed.

Lemma pending_skip_absent K m r :
  m !! r = None → pending (r :: K) m = pending K m.
Proof.
  intros H. unfold pending. apply Forall_bind_ext, Forall_forall.
  intros [k i] Hin%elem_of_map_to_list. unfold edges_from; simpl.
  assert (k ≠ r) by congruence.
  rewrite (decide_ext (k ∈ r :: K) (k ∈ K)); [done|].
  rewrite elem_of_cons. split; [intros [->|?]; done | by right].
Qed.

Lemma pending_skip K m r : pending (r :: K) m ≡ₚ pending K (delete r m).
Proof.
  destruct (m !! r) as [i|] eqn:H.
  - rewrite (pending_lookup _ m r i H).
    unfold edges_from at 1; simpl. rewrite decide_True by set_solver.
    simpl. by rewrite pending_skip_absent by apply lookup_delete_eq.
  - by rewrite delete_id, pending_skip_absent.
Qed.

Lemma pending_modify K m r f :
  dependents (f (resources_index r m)) = dependents (resources_index r m) →
  pending K (resources_modify r f m) ≡ₚ pending K m.
Proof.
  intros Hf. unfold resources_modify. rewrite pending_insert.
  unfold resources_index in *.
  destruct (m !! r) as [i|] eqn:H; simpl in *.
  - rewrite (pending_lookup K m r i H). unfold edges_from; simpl.
    by rewrite Hf.
  - rewrite delete_id by done. unfold edges_from; simpl. rewrite Hf.
    by case_decide.
Qed.

Lemma pending_append K m r l :
  pending K (resources_modify r (append_dependents l) m)
  ≡ₚ (if decide (r ∈ K) then [] else l) ++ pending K m.
Proof.
  unfold resources_modify. rewrite pending_insert.
  unfold resources_index.
  destruct (m !! r) as [i|] eqn:H; simpl.
  - rewrite (pending_lookup K m r i H). unfold edges_from; simpl.
    case_decide; [done|].
    by rewrite (comm (++) (dependents i) l), <-(assoc_L (++)).
  - rewrite delete_id by done. unfold edges_from; simpl. by case_decide.
Qed.

Lemma pending_delete_length K m r :
  length (pending K (delete r m)) ≤ length (pending K m).
Proof.
  destruct (m !! r) as [i|] eqn:H.
  - rewrite (pending_lookup K m r i H), length_app. lia.
  - by rewrite delete_id.
Qed.
End pending_edges.

(** ** What a cascade does to the state *)

Section cascade_facts.
Implicit Types (g : garbage_collector) (K E : list N).

Lemma cleanups_of_app r l1 l2 :
  cleanups_of r (l1 ++ l2) = cleanups_of r l1 + cleanups_of r l2.
Proof.
  induction l1 as [|[] l1 IH]; simpl; try done. rewrite IH. lia.
Qed.

Lemma refcount_absent g r : resources g !! r = None → refcount g r = 0%N.
Proof. intros H. unfold refcount, resources_index. by rewrite H. Qed.

Lemma refcount_present g r i :
  resources g !! r = Some i → refcount g r = dependency_count i.
Proof. intros H. unfold refcount, resources_index. by rewrite H. Qed.

Lemma refcount_positive_present g r :
  (0 < refcount g r)%N → is_Some (resources g !! r).
Proof.
  intros H. destruct (resources g !! r) eqn:Hr; [by eexists|].
  rewrite refcount_absent in H by done. lia.
Qed.

Lemma refcount_same g g' r :
  resources g' !! r = resources g !! r → refcount g' r = refcount g r.
Proof. intros H. unfold refcount, resources_index. by rewrite H. Qed.

Lemma refcount_erase g r x :
  refcount (erase r g) x = if decide (x = r) then 0%N else refcount g x.
Proof.
  unfold refcount, resources_index, erase; simpl. case_decide; subst.
  - by rewrite lookup_delete_eq.
  - by rewrite lookup_delete_ne.
Qed.

Lemma refcount_modify g r f (m : gmap N dependency_info) x :
  refcount (with_resources (resources_modify r f m) g) x =
  if decide (x = r) then dependency_count (f (resources_index r m))
  else dependency_count (resources_index x m).
Proof.
  unfold refcount, resources_index at 1, resources_modify; simpl.
  case_decide; subst.
  - by rewrite lookup_insert_eq.
  - by rewrite lookup_insert_ne.
Qed.

Lemma lookup_modify_eq r f (m : gmap N dependency_info) :
  resources_modify r f m !! r = Some (f (resources_index r m)).
Proof. apply lookup_insert_eq. Qed.

Lemma lookup_modify_ne r f (m : gmap N dependency_info) x :
  r ≠ x → resources_modify r f m !! x = m !! x.
Proof. apply lookup_insert_ne. Qed.

Lemma refcount_emit g e x : refcount (emit e g) x = refcount g x.
Proof. done. Qed.

Lemma refcount_decrement g d x :
  refcount (decrement d g) x =
  if decide (x = d) then size_decr (refcount g d) else refcount g x.
Proof. unfold decrement. apply (refcount_modify g d). Qed.

Lemma refcount_increment g d x :
  refcount (increment d g) x =
  if decide (x = d) then size_incr (refcount g d) else refcount g x.
Proof. unfold increment. apply (refcount_modify g d). Qed.

Lemma cascade_refl K g : cascade K g g.
Proof.
  split; try done.
  - exists []. rewrite (right_id_L [] (++)). split_and!; [done..|].
    intros x. unfold deleted. by destruct (resources g !! x).
  - intros x i Hx. by exists i.
Qed.

Lemma deleted_trans g g' g'' x :
  (∀ x, resources g !! x = None → resources g' !! x = None) →
  (∀ x, resources g' !! x = None → resources g'' !! x = None) →
  deleted x g g' + deleted x g' g'' = deleted x g g''.
Proof.
  intros H1 H2. unfold deleted.
  specialize (H1 x). specialize (H2 x).
  destruct (resources g !! x), (resources g' !! x), (resources g'' !! x);
    try done; by (discriminate H1 || discriminate H2).
Qed.

Lemma cascade_trans K g g' g'' :
  cascade K g g' → cascade K g' g'' → cascade K g g''.
Proof.
  intros [Z1 M1 D1 S1 (e1 & T1 & O1 & C1) L1 N1 A1]
         [Z2 M2 D2 S2 (e2 & T2 & O2 & C2) L2 N2 A2].
  split; [| | | | | | |
          intros x i'' (i' & Hi' & ? & ?)%A2;
          destruct (A1 x i' Hi') as (i & ? & ? & ?);
          exists i; split_and!; [done|congruence..]].
  - intros x Hx. rewrite <-(Z1 x Hx). apply Z2.
    by rewrite (refcount_same g g' x) by auto.
  - intros x. specialize (M1 x). specialize (M2 x). lia.
  - auto.
  - congruence.
  - exists (e1 ++ e2). split_and!.
    + by rewrite T2, T1, (assoc_L (++)).
    + by apply Forall_app.
    + intros x. rewrite cleanups_of_app, C1, C2. by apply deleted_trans.
  - eauto.
  - lia.
Qed.

(** Taking the record under deletion out of the map at the end of the
    loop, as the code does, or at its start. *)
Lemma cascade_erase K g g' r :
  cascade (r :: K) g g' → refcount g r = 0%N →
  cascade K (erase r g) (erase r g').
Proof.
  intros [Z M D S (e & T & O & C) L N A] Hr.
  split; simpl;
    [| | | | | | |
     intros x i'; destruct (decide (x = r)) as [->|Hne];
     [by rewrite lookup_delete_eq
     |rewrite !lookup_delete_ne by done; apply A]].
  - intros x Hx. rewrite refcount_erase in Hx.
    destruct (decide (x = r)) as [->|Hne].
    + by rewrite !lookup_delete_eq.
    + rewrite !lookup_delete_ne by done. auto.
  - intros x. rewrite !refcount_erase. case_decide; [lia|done].
  - intros x. destruct (decide (x = r)) as [->|Hne].
    + by rewrite !lookup_delete_eq.
    + rewrite !lookup_delete_ne by done. auto.
  - done.
  - exists e. split_and!; [done..|]. intros x. rewrite C.
    unfold deleted; simpl. destruct (decide (x = r)) as [->|Hne].
    + rewrite !lookup_delete_eq, (Z r Hr). by destruct (resources g !! r).
    + by rewrite !lookup_delete_ne by done.
  - intros x i. destruct (decide (x = r)) as [->|Hne].
    + by rewrite lookup_delete_eq.
    + rewrite !lookup_delete_ne by done. auto.
  - by rewrite <-!pending_skip.
Qed.

Lemma accounted_perm K K' E E' g g' :
  E ++ pending K (resources g) ≡ₚ E' ++ pending K' (resources g') →
  (∀ x, refcount g' x = refcount g x) →
  accounted K E g → accounted K' E' g'.
Proof.
  intros HP HR H r. rewrite <-HP, HR. apply H.
Qed.

Lemma accounted_enter K E g r it :
  accounted K E g → resources g !! r = Some it → r ∉ K →
  accounted (r :: K) (dependents it ++ E) g.
Proof.
  intros H Hr HK. eapply accounted_perm; [|done|exact H].
  rewrite (pending_lookup K _ r it Hr), pending_skip.
  unfold edges_from; simpl. rewrite decide_False by done.
  by rewrite !(assoc_L (++)), (comm (++) E).
Qed.

Lemma total_enter K E g r it :
  resources g !! r = Some it → r ∉ K →
  total (r :: K) (dependents it ++ E) g = total K E g.
Proof.
  intros Hr HK. unfold total. apply Permutation_length.
  rewrite (pending_lookup K _ r it Hr), pending_skip.
  unfold edges_from; simpl. rewrite decide_False by done.
  by rewrite !(assoc_L (++)), (comm (++) E).
Qed.

Lemma accounted_erase K E g r :
  accounted (r :: K) E g → refcount g r = 0%N → accounted K E (erase r g).
Proof.
  intros H Hr x. simpl. rewrite <-pending_skip, refcount_erase.
  specialize (H x). case_decide; subst; [rewrite Hr in H|]; done.
Qed.

Lemma accounted_decrement K E g d :
  accounted K (d :: E) g →
  (0 < refcount g d)%N ∧ accounted K E (decrement d g).
Proof.
  intros H.
  assert (0 < refcount g d)%N as Hd.
  { destruct (H d) as [H1 _]. simpl in H1.
    rewrite occurrences_cons, decide_True in H1 by done. lia. }
  split; [done|]. intros x. simpl.
  rewrite pending_modify by done.
  rewrite refcount_decrement. specialize (H x). simpl in H.
  rewrite occurrences_cons in H. unfold size_decr.
  destruct (decide (x = d)) as [->|Hne].
  - rewrite decide_True in H by done.
    destruct (N.eqb_spec (refcount g d) 0); lia.
  - rewrite decide_False in H by done. done.
Qed.

Lemma accounted_increment K E g d :
  accounted K E g → (refcount g d < SIZE_MAX)%N →
  accounted K (d :: E) (increment d g).
Proof.
  intros H Hd x. simpl. rewrite pending_modify by done.
  rewrite refcount_increment, occurrences_cons. specialize (H x).
  unfold size_incr. destruct (decide (x = d)) as [->|Hne].
  - rewrite decide_True by done.
    destruct (N.eqb_spec (refcount g d) SIZE_MAX); lia.
  - by rewrite decide_False by done.
Qed.

(** An edge to [nullptr] that nothing will resolve. *)
Lemma accounted_drop_null K E g :
  accounted K (nullptr :: E) g → accounted K E g.
Proof.
  intros H x. specialize (H x). simpl in H. rewrite occurrences_cons in H.
  case_decide; subst; [|done]. split; [lia|done].
Qed.
End cascade_facts.

(** ** [check_delete] on a state whose edges are accounted for *)

Section check_delete_cascade.
Implicit Types (g : garbage_collector) (K E : list N).

Lemma deleted_unchanged g g' x :
  resources g' !! x = resources g !! x → deleted x g g' = 0.
Proof. intros H. unfold deleted. rewrite H. by destruct (resources g !! x). Qed.

(** Resolving one edge to [d]: the decrement, and the start of the
    deletion of [d] if that made it eligible. *)
Lemma cascade_consume K g d :
  (0 < refcount g d)%N → cascade K g (begin_delete d (decrement d g)).
Proof.
  intros Hd.
  destruct (refcount_positive_present g d Hd) as [it Hit].
  pose proof (refcount_present g d it Hit) as Hc.
  assert (∀ x, refcount g x = 0%N → x ≠ d) as Hne.
  { intros x Hx ->. lia. }
  assert (size_decr (dependency_count it) ≤ dependency_count it)%N as Hle.
  { unfold size_decr. destruct (N.eqb_spec (dependency_count it) 0); lia. }
  unfold begin_delete. simpl. rewrite lookup_modify_eq.
  unfold resources_index. rewrite Hit. simpl.
  destruct (size_decr (dependency_count it) =? 0)%N eqn:Hz;
    [destruct (cleanup it) as [f|] eqn:Hf|].
  - (* the decrement made [d] eligible *)
    split.
    + intros x Hx. specialize (Hne x Hx). simpl.
      by rewrite lookup_delete_ne, lookup_modify_ne.
    + intros x. rewrite refcount_emit, refcount_erase, refcount_decrement.
      case_decide; [lia|done].
    + intros x Hx. assert (x ≠ d) by congruence. simpl.
      by rewrite lookup_delete_ne, lookup_modify_ne.
    + done.
    + exists [EvDecrement d (refcount g d); EvCleanup d f]. split_and!.
      * simpl. by rewrite <-(assoc_L (++)).
      * repeat constructor. done.
      * intros x. simpl. unfold deleted; simpl.
        destruct (decide (d = x)) as [<-|Hx].
        -- by rewrite Hit, lookup_delete_eq.
        -- rewrite lookup_delete_ne, lookup_modify_ne by done.
           by destruct (resources g !! x).
    + intros x i. simpl. destruct (decide (x = d)) as [->|Hx].
      * by rewrite lookup_delete_eq.
      * by rewrite lookup_delete_ne, lookup_modify_ne.
    + simpl. etrans; [apply pending_delete_length|].
      apply Nat.eq_le_incl, Permutation_length.
      by apply (pending_modify K (resources g) d (set_count size_decr)).
    + intros x i'. simpl. destruct (decide (x = d)) as [->|Hx].
      * by rewrite lookup_delete_eq.
      * rewrite lookup_delete_ne, lookup_modify_ne by done. by exists i'.
  - (* count [0] but not released yet *)
    split.
    + intros x Hx. specialize (Hne x Hx). simpl. by rewrite lookup_modify_ne.
    + intros x. rewrite refcount_decrement. case_decide; subst; rewrite ?Hc; lia.
    + intros x Hx. assert (x ≠ d) by congruence. simpl.
      by rewrite lookup_modify_ne.
    + done.
    + exists [EvDecrement d (refcount g d)]. split_and!.
      * done.
      * repeat constructor. done.
      * intros x. simpl. unfold deleted; simpl.
        destruct (decide (d = x)) as [<-|Hx].
        -- by rewrite Hit, lookup_modify_eq.
        -- rewrite lookup_modify_ne by done. by destruct (resources g !! x).
    + intros x i. simpl. destruct (decide (x = d)) as [->|Hx].
      * rewrite lookup_modify_eq. unfold resources_index. rewrite Hit.
        intros [= <-]. unfold is_eligible; simpl.
        by rewrite Hz, Hf.
      * by rewrite lookup_modify_ne.
    + simpl. apply Nat.eq_le_incl, Permutation_length.
      by apply (pending_modify K (resources g) d (set_count size_decr)).
    + intros x i'. simpl. destruct (decide (x = d)) as [->|Hx].
      * rewrite lookup_modify_eq. unfold resources_index. rewrite Hit.
        intros [= <-]. by exists it.
      * rewrite lookup_modify_ne by done. by exists i'.
  - (* still blocked *)
    split.
    + intros x Hx. specialize (Hne x Hx). simpl. by rewrite lookup_modify_ne.
    + intros x. rewrite refcount_decrement. case_decide; subst; rewrite ?Hc; lia.
    + intros x Hx. assert (x ≠ d) by congruence. simpl.
      by rewrite lookup_modify_ne.
    + done.
    + exists [EvDecrement d (refcount g d)]. split_and!.
      * done.
      * repeat constructor. done.
      * intros x. simpl. unfold deleted; simpl.
        destruct (decide (d = x)) as [<-|Hx].
        -- by rewrite Hit, lookup_modify_eq.
        -- rewrite lookup_modify_ne by done. by destruct (resources g !! x).
    + intros x i. simpl. destruct (decide (x = d)) as [->|Hx].
      * rewrite lookup_modify_eq. unfold resources_index. rewrite Hit.
        intros [= <-]. unfold is_eligible; simpl.
        by rewrite Hz.
      * by rewrite lookup_modify_ne.
    + simpl. apply Nat.eq_le_incl, Permutation_length.
      by apply (pending_modify K (resources g) d (set_count size_decr)).
    + intros x i'. simpl. destruct (decide (x = d)) as [->|Hx].
      * rewrite lookup_modify_eq. unfold resources_index. rewrite Hit.
        intros [= <-]. by exists it.
      * rewrite lookup_modify_ne by done. by exists i'.
Qed.

Lemma zero_counts_cascade K K' g g' :
  cascade K' g g' → zero_counts K g → zero_counts K g'.
Proof.
  intros Hc HK. eapply Forall_impl; [exact HK|]. intros k Hk; simpl in *.
  rewrite <-Hk. apply refcount_same. by apply (cas_zero _ _ _ Hc).
Qed.

Lemma total_cascade K E g g' :
  cascade K g g' → total K E g' ≤ total K E g.
Proof.
  intros Hc. unfold total. rewrite !length_app.
  pose proof (cas_len _ _ _ Hc). lia.
Qed.

Lemma consume_edge fuel K E g d :
  check_delete_spec fuel →
  accounted K (d :: E) g → zero_counts K g → total K (d :: E) g ≤ fuel →
  ∃ g', check_delete fuel d (decrement d g) = Done g'
        ∧ accounted K E g' ∧ cascade K g g'.
Proof.
  intros IH Hacc HK Hfuel.
  destruct (accounted_decrement K E g d Hacc) as [Hd Hacc'].
  assert (d ∉ K) as HdK.
  { intros Hin. unfold zero_counts in HK. rewrite Forall_forall in HK.
    specialize (HK d Hin). lia. }
  destruct (IH K E (decrement d g) d) as (g' & Hrun & Hacc'' & Hcas); try done.
  - unfold zero_counts in *. rewrite Forall_forall in *. intros k Hk.
    rewrite refcount_decrement, decide_False; [by apply HK|].
    by intros ->.
  - simpl. rewrite lookup_modify_eq. by eexists.
  - unfold total in *. simpl in *.
    rewrite (pending_modify K (resources g) d (set_count size_decr)) by done.
    lia.
  - exists g'. split_and!; [done..|].
    eapply cascade_trans; [by apply cascade_consume|done].
Qed.

Lemma consume_all fuel l :
  check_delete_spec fuel →
  ∀ K E g,
    accounted K (l ++ E) g → zero_counts K g → total K (l ++ E) g ≤ fuel →
    ∃ g', for_each (λ dep g, check_delete fuel dep (decrement dep g)) l g
          = Done g'
          ∧ accounted K E g' ∧ cascade K g g'.
Proof.
  intros IH. induction l as [|d l IHl]; intros K E g Hacc HK Hfuel; simpl.
  - exists g. split_and!; [done..|]. apply cascade_refl.
  - destruct (consume_edge fuel K (l ++ E) g d) as (g1 & -> & Hacc1 & Hcas1);
      try done.
    simpl. destruct (IHl K E g1) as (g' & Hrun & Hacc' & Hcas'); try done.
    + by eapply zero_counts_cascade.
    + pose proof (total_cascade K (l ++ E) g g1 Hcas1).
      unfold total in *. simpl in *. lia.
    + exists g'. split_and!; [done..|]. by eapply cascade_trans.
Qed.

(** [check_delete] returns when it has more fuel than there are
    pending edges; it resolves the edges of the records it deletes and
    leaves the others accounted for. *)
Lemma check_delete_cascade fuel : check_delete_spec fuel.
Proof.
  induction fuel as [|fuel IH]; intros K E g r Hacc HK HrK [it Hit] Hfuel;
    [lia|].
  simpl. unfold begin_delete. rewrite Hit.
  destruct (dependency_count it =? 0)%N eqn:Hz;
    [destruct (cleanup it) as [f|] eqn:Hf|];
    try (exists g; split_and!; [done..|apply cascade_refl]).
  apply N.eqb_eq in Hz.
  pose proof (refcount_present g r it Hit) as Hr. rewrite Hz in Hr.
  destruct (consume_all fuel (dependents it) IH (r :: K) E
              (emit (EvCleanup r f) g)) as (g2 & -> & Hacc2 & Hcas2).
  - by apply (accounted_enter K E g r it).
  - by constructor.
  - change (total (r :: K) (dependents it ++ E) g ≤ fuel).
    rewrite total_enter by done. lia.
  - simpl. exists (erase r g2). split_and!; [done|..].
    + apply accounted_erase; [done|]. rewrite <-Hr.
      apply refcount_same. by apply (cas_zero _ _ _ Hcas2).
    + by apply (cascade_erase K (emit (EvCleanup r f) g) g2 r).
Qed.
End check_delete_cascade.

(** ** Generic facts about [check_delete] *)

Section check_delete_generic.
Implicit Types (g : garbage_collector).

Lemma for_each_impl {A S} (body body' : A → S → outcome S) l :
  (∀ a s s', body a s = Done s' → body' a s = Done s') →
  ∀ s s', for_each body l s = Done s' → for_each body' l s = Done s'.
Proof.
  intros H. induction l as [|a l IH]; intros s s'; simpl; [done|].
  destruct (body a s) as [s1| |] eqn:Hb; try done. simpl.
  rewrite (H _ _ _ Hb). simpl. apply IH.
Qed.

Lemma for_each_rel {A S} (P : S → S → Prop) (body : A → S → outcome S) l :
  (∀ s, P s s) → (∀ s1 s2 s3, P s1 s2 → P s2 s3 → P s1 s3) →
  (∀ a s s', body a s = Done s' → P s s') →
  ∀ s s', for_each body l s = Done s' → P s s'.
Proof.
  intros Hrefl Htrans H. induction l as [|a l IH]; intros s s'; simpl.
  - by intros [= <-].
  - destruct (body a s) as [s1| |] eqn:Hb; try done. simpl. eauto.
Qed.

(** More fuel does not change a result. *)
Lemma check_delete_fuel fuel :
  ∀ fuel' r g g',
    check_delete fuel r g = Done g' → fuel ≤ fuel' →
    check_delete fuel' r g = Done g'.
Proof.
  induction fuel as [|fuel IH]; intros fuel' r g g'; [done|].
  destruct fuel' as [|fuel']; [lia|]. intros H Hle. simpl in *.
  destruct (resources g !! r) as [it|]; [|done].
  destruct (dependency_count it =? 0)%N; [|done].
  destruct (cleanup it) as [f|]; [|done].
  destruct (for_each _ (dependents it) _) as [g2| |] eqn:Hloop; try done.
  assert (fuel ≤ fuel') as Hle' by lia.
  by rewrite (for_each_impl _
                (λ dep g, check_delete fuel' dep (decrement dep g)) _
                (λ a s s' Ha, IH fuel' a (decrement a s) s' Ha Hle')
                _ _ Hloop).
Qed.

(** Whatever holds across each elementary step of a deletion holds
    across [check_delete]. *)
Lemma check_delete_rel (P : garbage_collector → garbage_collector → Prop) :
  (∀ g, P g g) → (∀ g1 g2 g3, P g1 g2 → P g2 g3 → P g1 g3) →
  (∀ g r f, P g (emit (EvCleanup r f) g)) →
  (∀ g d, P g (decrement d g)) →
  (∀ g r, P g (erase r g)) →
  ∀ fuel r g g', check_delete fuel r g = Done g' → P g g'.
Proof.
  intros Hrefl Htrans Hclean Hdec Herase.
  induction fuel as [|fuel IH]; intros r g g'; [done|]. simpl.
  destruct (resources g !! r) as [it|]; [|done].
  destruct (dependency_count it =? 0)%N; [|by intros [= <-]].
  destruct (cleanup it) as [f|]; [|by intros [= <-]].
  destruct (for_each _ (dependents it) _) as [g2| |] eqn:Hloop; try done.
  simpl. intros [= <-].
  eapply Htrans; [apply (Hclean g r f)|].
  eapply Htrans; [|apply (Herase g2 r)].
  eapply (for_each_rel P); [done..| |exact Hloop].
  simpl. intros d s s' Hs. eapply Htrans; [apply Hdec|]. eauto.
Qed.
End check_delete_generic.

(** ** Triggers and [collect] *)

Section collect_cascade.
Implicit Types (g : garbage_collector) (K E : list N).

Lemma take_drop_ready v q : take_ready v q ++ drop_ready v q = q.
Proof.
  induction q as [|t q IH]; simpl; [done|].
  destruct (value t <=? v)%N; simpl; by rewrite ?IH.
Qed.

Lemma drain_split fuel v q g :
  drain fuel v q g =
  (g' ←← for_each (fire fuel) (take_ready v q) g; Done (drop_ready v q, g')).
Proof.
  revert g. induction q as [|t q IH]; intros g; simpl; [done|].
  destruct (value t <=? v)%N; simpl; [|done].
  destruct (fire fuel t g); simpl; [apply IH|done..].
Qed.

Lemma cascade_emit K g e :
  event_ok e → (∀ r f, e ≠ EvCleanup r f) → cascade K g (emit e g).
Proof.
  intros Hok Hne. split; try done.
  - exists [e]. split_and!; [done|by constructor|].
    intros x. rewrite deleted_unchanged by done.
    destruct e; try done. by destruct (Hne resource f).
  - intros x i Hx. by exists i.
Qed.

Lemma fire_cascade fuel K E g t :
  accounted K (trigger_edge t ++ E) g → zero_counts K g →
  total K (trigger_edge t ++ E) g ≤ fuel →
  ∃ g', fire fuel t g = Done g' ∧ accounted K E g' ∧ cascade K g g'.
Proof.
  intros Hacc HK Hfuel. unfold fire.
  set (g0 := match callback t with
             | Some f => emit (EvCallback f) g
             | None => g
             end).
  assert (cascade K g g0) as Hc0.
  { subst g0. destruct (callback t); [by apply cascade_emit|apply cascade_refl]. }
  assert (accounted K (trigger_edge t ++ E) g0
          ∧ total K (trigger_edge t ++ E) g0 = total K (trigger_edge t ++ E) g)
    as [Hacc0 Htot0].
  { subst g0. by destruct (callback t). }
  unfold trigger_edge in *. destruct (dependent t =? nullptr)%N.
  - exists g0. by split_and!.
  - destruct (consume_edge fuel K E g0 (dependent t)) as (g' & ? & ? & ?).
    + apply check_delete_cascade.
    + done.
    + by eapply zero_counts_cascade.
    + simpl in *. lia.
    + exists g'. split_and!; [done..|]. by eapply cascade_trans.
Qed.

Lemma fire_all_cascade fuel K l :
  ∀ E g,
    accounted K (queue_edges l ++ E) g → zero_counts K g →
    total K (queue_edges l ++ E) g ≤ fuel →
    ∃ g', for_each (fire fuel) l g = Done g'
          ∧ accounted K E g' ∧ cascade K g g'.
Proof.
  induction l as [|t l IH]; intros E g Hacc HK Hfuel; simpl.
  - exists g. split_and!; [done..|]. apply cascade_refl.
  - unfold queue_edges in Hacc, Hfuel. rewrite bind_cons in Hacc, Hfuel.
    rewrite <-(assoc_L (++)) in Hacc, Hfuel.
    destruct (fire_cascade fuel K (queue_edges l ++ E) g t)
      as (g1 & -> & Hacc1 & Hcas1); try done.
    simpl. destruct (IH E g1) as (g' & Hrun & Hacc' & Hcas'); try done.
    + by eapply zero_counts_cascade.
    + pose proof (total_cascade K (queue_edges l ++ E) g g1 Hcas1).
      unfold total, queue_edges in *. rewrite !length_app in *. lia.
    + exists g'. split_and!; [done..|]. by eapply cascade_trans.
Qed.

Lemma drain_cascade fuel v q E g :
  accounted [] (queue_edges q ++ E) g →
  total [] (queue_edges q ++ E) g ≤ fuel →
  ∃ g', drain fuel v q g = Done (drop_ready v q, g')
        ∧ accounted [] (queue_edges (drop_ready v q) ++ E) g'
        ∧ cascade [] g g'.
Proof.
  intros Hacc Hfuel. rewrite drain_split.
  rewrite <-(take_drop_ready v q) in Hacc, Hfuel.
  unfold queue_edges in Hacc, Hfuel.
  rewrite bind_app, <-(assoc_L (++)) in Hacc, Hfuel.
  destruct (fire_all_cascade fuel [] (take_ready v q)
              (queue_edges (drop_ready v q) ++ E) g)
    as (g' & -> & Hacc' & Hcas'); try done.
  - constructor.
  - by exists g'.
Qed.

Lemma collect_loop_cascade fuel dev sems :
  ∀ E g,
    accounted [] (semaphore_edges sems ++ E) g →
    total [] (semaphore_edges sems ++ E) g ≤ fuel →
    ∃ g', collect_loop fuel dev sems g = Done (collect_result dev sems, g')
          ∧ accounted [] (semaphore_edges (collect_result dev sems) ++ E) g'
          ∧ cascade [] g g'.
Proof.
  induction sems as [|[sem info] rest IH]; intros E g Hacc Hfuel; simpl.
  - exists g. split_and!; [done..|]. apply cascade_refl.
  - unfold semaphore_edges in Hacc, Hfuel.
    rewrite bind_cons, <-(assoc_L (++)) in Hacc, Hfuel. simpl in Hacc, Hfuel.
    destruct (drain_cascade fuel (dev sem) (triggers info)
                (semaphore_edges rest ++ E)
                (emit (EvGetSemaphoreCounterValue sem) g))
      as (g1 & -> & Hacc1 & Hcas1); try done.
    simpl.
    assert (cascade [] g g1) as Hcas.
    { eapply cascade_trans; [|exact Hcas1]. by apply cascade_emit. }
    pose proof (total_cascade [] (semaphore_edges rest ++ E) _ _ Hcas) as Hlen.
    set (q := drop_ready (dev sem) (triggers info)) in *.
    assert (∀ g2, cascade [] g1 g2 →
              accounted [] (semaphore_edges rest ++ queue_edges q ++ E) g2 →
              ∃ g', collect_loop fuel dev rest g2
                    = Done (collect_result dev rest, g')
                    ∧ accounted []
                        (semaphore_edges (collect_result dev rest)
                           ++ queue_edges q ++ E) g'
                    ∧ cascade [] g g') as Hrest.
    { intros g2 Hc2 Hacc2.
      destruct (IH (queue_edges q ++ E) g2) as (g' & ? & ? & ?); [done| |].
      - pose proof (total_cascade [] (semaphore_edges rest ++ E) _ _ Hc2).
        assert (length (queue_edges q) ≤ length (queue_edges (triggers info))).
        { rewrite <-(take_drop_ready (dev sem) (triggers info)).
          unfold queue_edges. rewrite bind_app, length_app. subst q.
          unfold queue_edges. lia. }
        unfold total, semaphore_edges in *. rewrite !length_app in *. lia.
      - exists g'. split_and!; [done..|].
        eapply cascade_trans; [exact Hcas|]. by eapply cascade_trans. }
    assert (accounted [] (semaphore_edges rest ++ queue_edges q ++ E) g1)
      as Hacc1'.
    { eapply accounted_perm; [|done|exact Hacc1].
      by rewrite !(assoc_L (++)), (comm (++) (queue_edges q)). }
    destruct q as [|t q'] eqn:Hq; [destruct (should_destroy info) eqn:Hsd|].
    + destruct (Hrest (emit (EvDestroySemaphore sem) g1))
        as (g' & ? & ? & ?); [by apply cascade_emit|done|].
      by exists g'.
    + destruct (Hrest g1) as (g' & -> & Hacc' & Hcas');
        [apply cascade_refl|done|].
      simpl. exists g'. split_and!; [done| |done]. exact Hacc'.
    + destruct (Hrest g1) as (g' & -> & Hacc' & Hcas');
        [apply cascade_refl|done|].
      simpl. exists g'. split_and!; [done| |done].
      change (accounted []
                ((queue_edges (t :: q')
                    ++ semaphore_edges (collect_result dev rest)) ++ E) g').
      eapply accounted_perm; [|done|exact Hacc'].
      f_equiv. rewrite (assoc_L (++)). f_equiv. apply (comm (++)).
Qed.
End collect_cascade.

(** ** The priority queue and the semaphore map *)

Section queues.
Implicit Types (q : list trigger) (l : list (N * semaphore_info)).

Lemma pq_push_perm t q : pq_push t q ≡ₚ t :: q.
Proof.
  induction q as [|h q IH]; simpl; [done|].
  destruct (trigger_lt h t); [done|]. by rewrite IH, Permutation_swap.
Qed.

Lemma pq_push_sorted t q : pq_sorted q → pq_sorted (pq_push t q).
Proof.
  unfold pq_sorted. induction q as [|h q IH]; simpl; intros Hq.
  - repeat constructor.
  - apply StronglySorted_cons in Hq as [Hh Hq]. unfold trigger_lt.
    destruct (N.ltb_spec (value t) (value h)) as [Hlt|Hge].
    + apply StronglySorted_cons. split; [|by apply StronglySorted_cons].
      constructor; [lia|]. eapply Forall_impl; [exact Hh|].
      simpl. intros; lia.
    + apply StronglySorted_cons. split; [|by apply IH].
      rewrite pq_push_perm. by constructor.
Qed.

Lemma filter_none {A} (P : A → Prop) `{!∀ x, Decision (P x)} (l : list A) :
  Forall (λ x, ¬ P x) l → filter P l = [].
Proof.
  induction 1 as [|x l Hx Hl IH]; [done|]. by rewrite filter_cons_False.
Qed.

Lemma filter_all {A} (P : A → Prop) `{!∀ x, Decision (P x)} (l : list A) :
  Forall P l → filter P l = l.
Proof.
  induction 1 as [|x l Hx Hl IH]; [done|].
  rewrite filter_cons_True by done. by rewrite IH.
Qed.

Lemma take_ready_filter v q :
  pq_sorted q → take_ready v q = filter (λ t, (value t ≤ v)%N) q.
Proof.
  unfold pq_sorted. induction q as [|t q IH]; simpl; intros Hq; [done|].
  apply StronglySorted_cons in Hq as [Ht Hq].
  destruct (N.leb_spec (value t) v) as [Hle|Hgt].
  - rewrite filter_cons_True by done. by rewrite IH.
  - rewrite filter_cons_False by lia. symmetry.
    apply filter_none.
    eapply Forall_impl; [exact Ht|]. simpl. intros; lia.
Qed.

Lemma drop_ready_filter v q :
  pq_sorted q → drop_ready v q = filter (λ t, (v < value t)%N) q.
Proof.
  unfold pq_sorted. induction q as [|t q IH]; simpl; intros Hq; [done|].
  apply StronglySorted_cons in Hq as [Ht Hq].
  destruct (N.leb_spec (value t) v) as [Hle|Hgt].
  - rewrite filter_cons_False by lia. by rewrite IH.
  - rewrite filter_cons_True by done. f_equal. symmetry.
    apply filter_all.
    eapply Forall_impl; [exact Ht|]. simpl. intros; lia.
Qed.

Lemma drop_ready_sorted v q : pq_sorted q → pq_sorted (drop_ready v q).
Proof.
  intros Hq. rewrite <-(take_drop_ready v q) in Hq.
  by apply StronglySorted_app in Hq as (_ & _ & ?).
Qed.

Lemma take_ready_sorted v q : pq_sorted q → pq_sorted (take_ready v q).
Proof.
  intros Hq. rewrite <-(take_drop_ready v q) in Hq.
  by apply StronglySorted_app in Hq as (_ & ? & _).
Qed.

Lemma drop_ready_nil v q :
  drop_ready v q = [] ↔ Forall (λ t, (value t ≤ v)%N) q.
Proof.
  induction q as [|t q IH]; simpl; [done|].
  destruct (N.leb_spec (value t) v) as [Hle|Hgt].
  - rewrite IH. split; [by constructor|by inversion 1].
  - split; [done|]. inversion 1; lia.
Qed.

Lemma drop_ready_subseteq v q : drop_ready v q ⊆ q.
Proof.
  rewrite <-(take_drop_ready v q) at 2. set_solver.
Qed.

Lemma semaphores_modify_edges sem t l :
  semaphore_edges (semaphores_modify sem (push_trigger t) l)
  ≡ₚ trigger_edge t ++ semaphore_edges l.
Proof.
  unfold semaphore_edges.
  induction l as [|[k i] l IH]; simpl.
  - by rewrite !(right_id_L [] (++)).
  - destruct (k =? sem)%N; rewrite !bind_cons; simpl.
    + unfold queue_edges. rewrite pq_push_perm, bind_cons.
      by rewrite (assoc_L (++)).
    + rewrite IH. by rewrite !(assoc_L (++)), (comm (++) (trigger_edge t)).
Qed.

Lemma semaphores_modify_mark sem l :
  semaphore_edges (semaphores_modify sem mark_destroy l) = semaphore_edges l.
Proof.
  unfold semaphore_edges.
  induction l as [|[k i] l IH]; simpl; [done|].
  destruct (k =? sem)%N; rewrite !bind_cons; simpl; [done|]. by rewrite IH.
Qed.

Lemma semaphores_modify_keys sem f l :
  (sem ∈ l.*1 ∧ (semaphores_modify sem f l).*1 = l.*1)
  ∨ (¬ (sem ∈ l.*1) ∧ (semaphores_modify sem f l).*1 = (l.*1) ++ [sem]).
Proof.
  induction l as [|[k i] l IH]; csimpl.
  - right. split; [|done]. apply not_elem_of_nil.
  - destruct (N.eqb_spec k sem) as [->|Hne]; csimpl.
    + left. split; [|done]. by left.
    + destruct IH as [[? ->]|[? ->]]; [left|right]; split; try done.
      * by right.
      * rewrite not_elem_of_cons. split; [congruence|done].
Qed.

Lemma semaphores_modify_NoDup sem f l :
  NoDup l.*1 → NoDup (semaphores_modify sem f l).*1.
Proof.
  intros H. destruct (semaphores_modify_keys sem f l) as [[? ->]|[? ->]];
    [done|].
  apply NoDup_app. split_and!; [done| |apply NoDup_singleton].
  intros x Hx ->%list_elem_of_singleton. done.
Qed.

Lemma semaphores_modify_Forall (P : semaphore_info → Prop) sem f l :
  (∀ i, P i → P (f i)) → P (f semaphore_info_default) →
  Forall (λ kv, P kv.2) l →
  Forall (λ kv, P kv.2) (semaphores_modify sem f l).
Proof.
  intros Hf Hd. induction 1 as [|[k i] l Hi Hl IH]; simpl.
  - by repeat constructor.
  - destruct (k =? sem)%N; constructor; simpl in *; auto.
Qed.

Lemma collect_result_keys dev l : sublist (collect_result dev l).*1 l.*1.
Proof.
  induction l as [|[k i] l IH]; csimpl; [done|].
  destruct (drop_ready (dev k) (triggers i));
    [destruct (should_destroy i)|]; csimpl;
    first [by apply sublist_skip|by apply sublist_cons].
Qed.

Lemma collect_result_sorted dev l :
  Forall (λ kv, pq_sorted (triggers kv.2)) l →
  Forall (λ kv, pq_sorted (triggers kv.2)) (collect_result dev l).
Proof.
  induction 1 as [|[k i] l Hi Hl IH]; simpl; [done|].
  pose proof (drop_ready_sorted (dev k) _ Hi) as Hs. simpl in Hs.
  destruct (drop_ready (dev k) (triggers i)) eqn:Hd;
    [destruct (should_destroy i)|]; try done; by constructor.
Qed.
End queues.

(** ** Consistent states *)

Section consistent_steps.
Implicit Types (g : garbage_collector) (K E : list N).

Lemma index_modify r f (m : gmap N dependency_info) x :
  resources_index x (resources_modify r f m) =
  if decide (x = r) then f (resources_index r m) else resources_index x m.
Proof.
  unfold resources_index at 1. case_decide; subst.
  - by rewrite lookup_modify_eq.
  - by rewrite lookup_modify_ne.
Qed.

Lemma settled_grow g g' :
  settled g →
  (∀ x, cleanup (resources_index x (resources g'))
        = cleanup (resources_index x (resources g))) →
  (∀ x, (refcount g x ≤ refcount g' x)%N) →
  settled g'.
Proof.
  intros Hs Hc Hr x i' Hx. specialize (Hc x). specialize (Hr x).
  unfold refcount, resources_index in *. rewrite Hx in Hc, Hr. simpl in *.
  unfold is_eligible.
  destruct (N.eqb_spec (dependency_count i') 0) as [Hz|]; [|done].
  destruct (cleanup i') as [f|] eqn:Hf; [|done].
  destruct (resources g !! x) as [i|] eqn:Hi; simpl in *; [|done].
  specialize (Hs x i Hi). unfold is_eligible in Hs.
  rewrite <-Hc in Hs.
  destruct (N.eqb_spec (dependency_count i) 0); [done|lia].
Qed.

Lemma increments_spec l :
  ∀ g n,
    (∀ x, (refcount g x ≤ n)%N) → (n + N.of_nat (length l) ≤ SIZE_MAX)%N →
    let g' := foldl (λ g used, increment used g) g l in
    (∀ x, refcount g' x = (refcount g x + occurrences x l)%N)
    ∧ (∀ x, cleanup (resources_index x (resources g'))
            = cleanup (resources_index x (resources g)))
    ∧ (∀ K, pending K (resources g') ≡ₚ pending K (resources g))
    ∧ trace g' = trace g
    ∧ semaphore_dependencies g' = semaphore_dependencies g.
Proof.
  induction l as [|d l IH]; intros g n Hn Hmax; simpl.
  - split_and!; try done. intros x. rewrite occurrences_nil. lia.
  - assert (∀ x, refcount (increment d g) x
                 = (refcount g x + if decide (d = x) then 1 else 0)%N) as H1.
    { intros x. rewrite refcount_increment. unfold size_incr.
      specialize (Hn d). destruct (decide (x = d)) as [->|Hne].
      - rewrite decide_True by done.
        destruct (N.eqb_spec (refcount g d) SIZE_MAX); simpl in *; lia.
      - rewrite decide_False by done. lia. }
    destruct (IH (increment d g) (n + 1)%N) as (R & C & P & T & S).
    { intros x. rewrite H1. specialize (Hn x). case_decide; lia. }
    { simpl in Hmax. lia. }
    split_and!.
    + intros x. rewrite R, H1, occurrences_cons. lia.
    + intros x. rewrite C. simpl. rewrite index_modify. by case_decide; subst.
    + intros K. rewrite P. simpl. by apply pending_modify.
    + by rewrite T.
    + by rewrite S.
Qed.

Lemma consistent_emit n g e :
  event_ok e → consistent n g → consistent n (emit e g).
Proof.
  intros He [A B S T Q D]. split; try done.
  simpl. apply Forall_app. split; [done|by constructor].
Qed.

(** The iteration order of the semaphore map is immaterial. *)
Lemma consistent_rehash n g l :
  l ≡ₚ semaphore_dependencies g → consistent n g →
  consistent n (with_semaphores l g).
Proof.
  intros Hl [A B S T Q D]. split; try done; simpl.
  - eapply accounted_perm; [|done|exact A]. simpl.
    unfold semaphore_edges. by rewrite Hl.
  - by rewrite Hl.
  - by rewrite Hl.
Qed.

(** Nor is the order of the triggers of the same value in a heap. *)
Lemma consistent_reheap n g l :
  Forall2 same_heap l (semaphore_dependencies g) → consistent n g →
  consistent n (with_semaphores l g).
Proof.
  intros Hl [A B S T Q D].
  assert (semaphore_edges l ≡ₚ semaphore_edges (semaphore_dependencies g)
          ∧ l.*1 = (semaphore_dependencies g).*1
          ∧ Forall (λ kv, pq_sorted (triggers kv.2)) l) as (HE & HK & HS).
  { clear -Hl. unfold semaphore_edges.
    induction Hl as [|a b l l' (Hk & _ & Hq & Hs) _ (IH1 & IH2 & IH3)];
      [done|].
    rewrite !bind_cons. csimpl. split_and!.
    - unfold queue_edges. by rewrite Hq, IH1.
    - by rewrite Hk, IH2.
    - by constructor. }
  split; try done; simpl.
  - eapply accounted_perm; [|done|exact A]. simpl. by rewrite HE.
  - by rewrite HK.
Qed.

Lemma depend_many_consistent n g used user :
  (n + N.of_nat (length used) ≤ SIZE_MAX)%N → consistent n g →
  consistent (n + N.of_nat (length used)) (depend_many used user g).
Proof.
  intros Hmax [A B S T Q D]. unfold depend_many.
  set (g1 := with_resources
               (resources_modify user (append_dependents used)
                  (resources (emit EvLock g))) (emit EvLock g)).
  assert (∀ x, refcount g1 x = refcount g x) as HR1.
  { intros x. subst g1. rewrite refcount_modify. by case_decide; subst. }
  destruct (increments_spec used g1 n) as (R & C & P & Tr & Se); [|done|].
  { intros x. by rewrite HR1. }
  set (g2 := foldl (λ g used, increment used g) g1 used) in *.
  split.
  - change (accounted [] (semaphore_edges (semaphore_dependencies g2)) g2).
    rewrite Se. intros x. rewrite P, R, HR1.
    change (resources g1) with
      (resources_modify user (append_dependents used) (resources g)).
    change (semaphore_dependencies g1) with (semaphore_dependencies g).
    rewrite pending_append. simpl.
    rewrite !occurrences_app. specialize (A x). simpl in A.
    rewrite occurrences_app in A. split; [lia|]. intros Hx.
    destruct A as [_ A]. specialize (A Hx). lia.
  - intros x. change (refcount g2 x ≤ n + N.of_nat (length used))%N.
    rewrite R, HR1. specialize (B x).
    pose proof (occurrences_le_length x used). lia.
  - apply (settled_grow g); [done| |].
    + intros x. simpl. fold g2. rewrite C. subst g1; simpl.
      rewrite index_modify. by case_decide; subst.
    + intros x. change (refcount g x ≤ refcount g2 x)%N. rewrite R, HR1. lia.
  - simpl. fold g2. rewrite Tr. simpl. rewrite !Forall_app.
    split_and!; try done; by repeat constructor.
  - simpl. fold g2. by rewrite Se.
  - simpl. fold g2. by rewrite Se.
Qed.

Lemma release_semaphore_consistent n g sem :
  consistent n g → consistent n (release_semaphore sem g).
Proof.
  intros [A B S T Q D]. unfold release_semaphore. split; simpl; try done.
  - intros x. rewrite semaphores_modify_mark. apply A.
  - rewrite !Forall_app. split_and!; try done; by repeat constructor.
  - apply (semaphores_modify_Forall (λ i, pq_sorted (triggers i)));
      [done|constructor|done].
  - by apply semaphores_modify_NoDup.
Qed.

Lemma push_trigger_consistent n g t l :
  accounted [] (trigger_edge t ++ semaphore_edges (semaphore_dependencies g)) g →
  (∀ x, (refcount g x ≤ n)%N) → settled g → Forall event_ok (trace g) →
  Forall (λ kv, pq_sorted (triggers kv.2)) (semaphore_dependencies g) →
  NoDup (semaphore_dependencies g).*1 →
  consistent n
    (with_semaphores
       (semaphores_modify l (push_trigger t) (semaphore_dependencies g)) g).
Proof.
  intros A B S T Q D. split; simpl; try done.
  - eapply accounted_perm; [|done|exact A]. simpl.
    by rewrite semaphores_modify_edges.
  - apply (semaphores_modify_Forall (λ i, pq_sorted (triggers i))); [| |done].
    + intros i Hi. by apply pq_push_sorted.
    + simpl. repeat constructor.
  - by apply semaphores_modify_NoDup.
Qed.

Lemma add_trigger_consistent n g timeline v cb :
  consistent n g → consistent n (add_trigger timeline v cb g).
Proof.
  intros H. unfold add_trigger. apply consistent_emit; [done|].
  apply (consistent_emit n g EvLock) in H; [|done].
  destruct H as [A B S T Q D]. by apply push_trigger_consistent.
Qed.

Lemma depend_semaphore_consistent n g used timeline v :
  (n + 1 ≤ SIZE_MAX)%N → consistent n g →
  consistent (n + 1) (depend_semaphore used timeline v g).
Proof.
  intros Hmax H. unfold depend_semaphore. apply consistent_emit; [done|].
  apply (consistent_emit n g EvLock) in H; [|done].
  destruct H as [A B S T Q D].
  set (g0 := emit EvLock g) in *.
  assert (∀ x, refcount (increment used g0) x
               = (refcount g0 x + if decide (x = used) then 1 else 0)%N) as HR.
  { intros x. rewrite refcount_increment. unfold size_incr.
    specialize (B used). case_decide; subst; [|lia].
    destruct (N.eqb_spec (refcount g0 used) SIZE_MAX); lia. }
  apply (push_trigger_consistent _ (increment used g0)); try done.
  - unfold trigger_edge; simpl.
    assert (accounted [] (used :: semaphore_edges (semaphore_dependencies g0))
              (increment used g0)) as A'.
    { apply accounted_increment; [done|]. specialize (B used). lia. }
    destruct (N.eqb_spec used nullptr) as [->|]; [|done].
    by apply accounted_drop_null.
  - intros x. rewrite HR. specialize (B x). case_decide; lia.
  - apply (settled_grow g0); [done| |].
    + intros x. simpl. rewrite index_modify. by case_decide; subst.
    + intros x. rewrite HR. lia.
Qed.
End consistent_steps.

(** ** [release], [collect] and [wait_collect] on consistent states *)

Section consistent_collect.
Implicit Types (g : garbage_collector) (K E : list N).

Lemma begin_delete_cases r g :
  (∃ it f, resources g !! r = Some it ∧ dependency_count it = 0%N
           ∧ cleanup it = Some f
           ∧ begin_delete r g = emit (EvCleanup r f) (erase r g))
  ∨ ((∀ it, resources g !! r = Some it → is_eligible it = false)
     ∧ begin_delete r g = g).
Proof.
  unfold begin_delete, is_eligible.
  destruct (resources g !! r) as [it|]; [|by right].
  destruct (dependency_count it =? 0)%N eqn:Hz;
    [destruct (cleanup it) as [f|] eqn:Hf|].
  - left. exists it, f. by apply N.eqb_eq in Hz.
  - right. split; [|done]. intros ? [= <-]. by rewrite Hz, Hf.
  - right. split; [|done]. intros ? [= <-]. by rewrite Hz.
Qed.

Lemma release_spec fuel n g r c :
  consistent n g → enough_fuel g ≤ fuel →
  ∃ g', release fuel r c g = Done (emit EvUnlock g')
        ∧ check_delete fuel r (released r c g) = Done g'
        ∧ accounted [] (semaphore_edges (semaphore_dependencies g)) g'
        ∧ cascade [] (begin_delete r (released r c g)) g'.
Proof.
  intros [A B S T Q D] Hfuel.
  destruct (check_delete_cascade fuel []
              (semaphore_edges (semaphore_dependencies g))
              (released r c g) r) as (g' & Hrun & Hacc & Hcas).
  - eapply (accounted_perm [] [] _ _ g); [| |exact A].
    + simpl. by rewrite pending_modify.
    + intros x. unfold released. rewrite refcount_modify.
      by case_decide; subst.
  - constructor.
  - apply not_elem_of_nil.
  - simpl. rewrite lookup_modify_eq. by eexists.
  - unfold enough_fuel, total in *. simpl.
    rewrite pending_modify by done. lia.
  - exists g'. split_and!; [|done..]. unfold release.
    change (with_resources _ (emit EvLock g)) with (released r c g).
    by rewrite Hrun.
Qed.

Lemma release_consistent fuel n g r c :
  consistent n g → enough_fuel g ≤ fuel →
  ∃ g', release fuel r c g = Done g' ∧ consistent n g'.
Proof.
  intros Hg Hfuel.
  destruct (release_spec fuel n g r c Hg Hfuel) as (g' & -> & _ & Hacc & Hcas).
  destruct Hg as [A B S T Q D].
  exists (emit EvUnlock g'). split; [done|].
  apply consistent_emit; [done|].
  assert (∀ x, refcount (released r c g) x = refcount g x) as HR.
  { intros x. unfold released. rewrite refcount_modify.
    by case_decide; subst. }
  assert (∀ x i, x ≠ r →
            resources (released r c g) !! x = Some i →
            resources g !! x = Some i) as HL.
  { intros x i Hx. simpl. by rewrite lookup_modify_ne. }
  destruct Hcas as [Z M Do Se (evs & Tr & Ok & Cl) El Le Sa].
  destruct (begin_delete_cases r (released r c g))
    as [(it & f & Hit & Hz & Hf & Hb)|[Hne Hb]]; rewrite Hb in *.
  - split.
    + by rewrite Se.
    + intros x. etrans; [apply M|]. rewrite refcount_emit, refcount_erase.
      case_decide; [lia|]. rewrite HR. apply B.
    + intros x i Hx.
      destruct (is_eligible i) eqn:He; [|done]. exfalso.
      specialize (El x i Hx He). simpl in El.
      destruct (decide (x = r)) as [->|Hxr].
      * by rewrite lookup_delete_eq in El.
      * rewrite lookup_delete_ne in El by done.
        rewrite lookup_modify_ne in El by done.
        specialize (S x i El). congruence.
    + rewrite Tr. simpl. rewrite !Forall_app. split_and!; try done;
        by repeat constructor.
    + by rewrite Se.
    + by rewrite Se.
  - split.
    + by rewrite Se.
    + intros x. etrans; [apply M|]. rewrite HR. apply B.
    + intros x i Hx.
      destruct (is_eligible i) eqn:He; [|done]. exfalso.
      specialize (El x i Hx He).
      destruct (decide (x = r)) as [->|Hxr].
      * specialize (Hne i El). congruence.
      * specialize (S x i (HL x i Hxr El)). congruence.
    + rewrite Tr. simpl. rewrite !Forall_app. split_and!; try done;
        by repeat constructor.
    + by rewrite Se.
    + by rewrite Se.
Qed.

Lemma collect_result_edges dev l :
  length (semaphore_edges (collect_result dev l)) ≤ length (semaphore_edges l).
Proof.
  unfold semaphore_edges.
  induction l as [|[k i] l IH]; csimpl; [done|].
  assert (length (queue_edges (drop_ready (dev k) (triggers i)))
          ≤ length (queue_edges (triggers i))) as Hq.
  { rewrite <-(take_drop_ready (dev k) (triggers i)) at 2.
    unfold queue_edges. rewrite bind_app, length_app. lia. }
  destruct (drop_ready (dev k) (triggers i)) eqn:Hd;
    [destruct (should_destroy i)|];
    rewrite ?bind_cons, !length_app; csimpl in *; lia.
Qed.

Lemma collect_spec fuel n g dev :
  consistent n g → enough_fuel g ≤ fuel →
  ∃ g1,
    collect fuel dev g
    = Done (emit EvUnlock
              (with_semaphores
                 (collect_result dev (semaphore_dependencies g)) g1))
    ∧ accounted []
        (semaphore_edges (collect_result dev (semaphore_dependencies g))) g1
    ∧ cascade [] (emit EvLock g) g1.
Proof.
  intros [A B S T Q D] Hfuel. unfold collect.
  destruct (collect_loop_cascade fuel dev (semaphore_dependencies g) []
              (emit EvLock g)) as (g1 & Hrun & Hacc & Hcas).
  - by rewrite (right_id_L [] (++)).
  - rewrite (right_id_L [] (++)). unfold enough_fuel in Hfuel.
    change (total [] (semaphore_edges (semaphore_dependencies g)) g ≤ fuel).
    lia.
  - simpl semaphore_dependencies. rewrite Hrun. simpl.
    exists g1. split_and!; [done| |done].
    by rewrite (right_id_L [] (++)) in Hacc.
Qed.

Lemma collect_consistent fuel n g dev :
  consistent n g → enough_fuel g ≤ fuel →
  ∃ g', collect fuel dev g = Done g' ∧ consistent n g'
        ∧ semaphore_dependencies g'
          = collect_result dev (semaphore_dependencies g)
        ∧ enough_fuel g' ≤ enough_fuel g.
Proof.
  intros Hg Hfuel.
  destruct (collect_spec fuel n g dev Hg Hfuel) as (g1 & -> & Hacc & Hcas).
  destruct Hg as [A B S T Q D].
  destruct Hcas as [Z M Do Se (evs & Tr & Ok & Cl) El Le Sa].
  eexists. split; [done|]. split_and!; [|done|].
  - apply consistent_emit; [done|]. split; simpl.
    + done.
    + intros x. etrans; [apply M|]. apply B.
    + intros x i Hx. destruct (is_eligible i) eqn:He; [|done].
      specialize (El x i Hx He). specialize (S x i El). congruence.
    + rewrite Tr. simpl. rewrite !Forall_app. split_and!; try done;
        by repeat constructor.
    + by apply collect_result_sorted.
    + eapply sublist_NoDup; [exact D|apply collect_result_keys].
  - unfold enough_fuel, total. simpl. rewrite !length_app.
    pose proof (collect_result_edges dev (semaphore_dependencies g)).
    simpl in Le. lia.
Qed.

Lemma wait_collect_consistent fuel n g dev dev_idle :
  consistent n g → enough_fuel g ≤ fuel →
  ∃ g1 g',
    collect fuel dev g = Done g1 ∧ consistent n g1
    ∧ wait_collect fuel dev dev_idle g = Done g' ∧ consistent n g'
    ∧ (if has_records g1
       then collect fuel dev_idle
              (emit EvUnlock (emit EvDeviceWaitIdle (emit EvLock g1)))
            = Done g'
       else g' = emit EvUnlock (emit EvLock g1)).
Proof.
  intros Hg Hfuel.
  destruct (collect_consistent fuel n g dev Hg Hfuel)
    as (g1 & Hrun1 & Hg1 & Hsem1 & Hfuel1).
  unfold wait_collect. rewrite Hrun1. simpl.
  change (negb (size (resources g1) =? 0)%nat
          || negb (length (semaphore_dependencies g1) =? 0)%nat)
    with (has_records g1).
  destruct (has_records g1) eqn:Hrec.
  - destruct (collect_consistent fuel n
                (emit EvUnlock (emit EvDeviceWaitIdle (emit EvLock g1)))
                dev_idle) as (g' & Hrun2 & Hg' & _ & _).
    + by repeat apply consistent_emit.
    + change (enough_fuel g1 ≤ fuel). lia.
    + exists g1, g'. rewrite Hrec. by split_and!.
  - exists g1, (emit EvUnlock (emit EvLock g1)). rewrite Hrec.
    split_and!; try done. by repeat apply consistent_emit.
Qed.
End consistent_collect.

(** ** Reachable states *)

Section reachability.
Implicit Types (g : garbage_collector).

Lemma fire_fuel fuel fuel' t g g' :
  fire fuel t g = Done g' → fuel ≤ fuel' → fire fuel' t g = Done g'.
Proof.
  unfold fire. destruct (dependent t =? nullptr)%N; [done|].
  apply check_delete_fuel.
Qed.

Lemma drain_fuel fuel fuel' v q :
  fuel ≤ fuel' →
  ∀ g r, drain fuel v q g = Done r → drain fuel' v q g = Done r.
Proof.
  intros Hle. induction q as [|t q IH]; intros g r; simpl; [done|].
  destruct (value t <=? v)%N; [|done].
  destruct (fire fuel t g) as [g1| |] eqn:Hf; try done.
  rewrite (fire_fuel _ _ _ _ _ Hf Hle). simpl. apply IH.
Qed.

Lemma collect_loop_fuel fuel fuel' dev sems :
  fuel ≤ fuel' →
  ∀ g r, collect_loop fuel dev sems g = Done r →
         collect_loop fuel' dev sems g = Done r.
Proof.
  intros Hle. induction sems as [|[sem info] rest IH]; intros g r; simpl;
    [done|].
  destruct (drain fuel _ _ _) as [[q g1]| |] eqn:Hd; try done.
  rewrite (drain_fuel _ _ _ _ Hle _ _ Hd). simpl.
  destruct q as [|t q]; [destruct (should_destroy info)|].
  - apply IH.
  - destruct (collect_loop fuel dev rest g1) as [[rest' g2]| |] eqn:Hl;
      try done.
    by rewrite (IH _ _ Hl).
  - destruct (collect_loop fuel dev rest g1) as [[rest' g2]| |] eqn:Hl;
      try done.
    by rewrite (IH _ _ Hl).
Qed.

Lemma collect_fuel fuel fuel' dev g g' :
  collect fuel dev g = Done g' → fuel ≤ fuel' →
  collect fuel' dev g = Done g'.
Proof.
  unfold collect. intros H Hle.
  destruct (collect_loop fuel _ _ _) as [[sems g1]| |] eqn:Hl; try done.
  by rewrite (collect_loop_fuel _ _ _ _ Hle _ _ Hl).
Qed.

Lemma exec_fuel fuel fuel' o g g' :
  exec fuel o g = Done g' → fuel ≤ fuel' → exec fuel' o g = Done g'.
Proof.
  destruct o; simpl; try done.
  - unfold release. intros H Hle.
    destruct (check_delete fuel _ _) as [g1| |] eqn:Hc; try done.
    by rewrite (check_delete_fuel _ _ _ _ _ Hc Hle).
  - apply collect_fuel.
  - unfold wait_collect. intros H Hle.
    destruct (collect fuel dev g) as [g1| |] eqn:Hc; try done.
    rewrite (collect_fuel _ _ _ _ _ Hc Hle). simpl in *.
    destruct (_ || _); [|done]. by apply (collect_fuel fuel).
Qed.

(** Every operation returns, on a consistent state and with enough
    fuel, and leaves a consistent state. *)
Lemma exec_consistent fuel n o g :
  consistent n g → (n + registered o ≤ SIZE_MAX)%N → enough_fuel g ≤ fuel →
  ∃ g', exec fuel o g = Done g' ∧ consistent (n + registered o) g'.
Proof.
  intros Hg Hmax Hfuel. destruct o; simpl in *; rewrite ?N.add_0_r.
  - by apply release_consistent.
  - eexists. split; [done|]. by apply release_semaphore_consistent.
  - eexists. split; [done|]. by apply (depend_many_consistent n g [_]).
  - eexists. split; [done|]. by apply depend_many_consistent.
  - eexists. split; [done|]. by apply depend_semaphore_consistent.
  - eexists. split; [done|]. by apply add_trigger_consistent.
  - destruct (collect_consistent fuel n g dev Hg Hfuel) as (g' & ? & ? & _).
    by exists g'.
  - destruct (wait_collect_consistent fuel n g dev dev_idle Hg Hfuel)
      as (g1 & g' & _ & _ & ? & ? & _).
    by exists g'.
Qed.

Lemma exec_consistent_any fuel n o g g' :
  consistent n g → (n + registered o ≤ SIZE_MAX)%N →
  exec fuel o g = Done g' → consistent (n + registered o) g'.
Proof.
  intros Hg Hmax Hrun.
  destruct (exec_consistent (fuel `max` enough_fuel g) n o g Hg Hmax)
    as (g'' & Hrun' & Hg''); [lia|].
  rewrite (exec_fuel fuel _ o g g' Hrun) in Hrun' by lia.
  by injection Hrun' as ->.
Qed.

Lemma consistent_init : consistent 0 gc_init.
Proof.
  split; simpl; try done. constructor.
Qed.

Lemma reachable_consistent n g :
  reachable n g → (n ≤ SIZE_MAX)%N → consistent n g.
Proof.
  induction 1 as [|n g fuel o g' Hr IH Hrun|n g l Hr IH Hl|n g l Hr IH Hl];
    intros Hmax.
  - apply consistent_init.
  - eapply exec_consistent_any; [|done|done]. apply IH. lia.
  - apply consistent_rehash; [done|]. by apply IH.
  - apply consistent_reheap; [done|]. by apply IH.
Qed.
End reachability.

(** ** What [collect] shows to the outside *)

Section outer_events.
Implicit Types (g : garbage_collector).

Lemma outer_app l1 l2 : outer (l1 ++ l2) = outer l1 ++ outer l2.
Proof. apply filter_app. Qed.

Lemma outer_emit g e :
  outer (trace (emit e g)) =
  outer (trace g) ++ (if is_internal e then [] else [e]).
Proof. simpl. rewrite outer_app. f_equal. by destruct e. Qed.

Lemma check_delete_outer fuel r g g' :
  check_delete fuel r g = Done g' → outer (trace g') = outer (trace g).
Proof.
  apply (check_delete_rel (λ g g', outer (trace g') = outer (trace g))).
  - done.
  - intros g1 g2 g3 H1 H2. by rewrite H2.
  - intros g0 r0 f. rewrite outer_emit. simpl. by rewrite (right_id_L [] (++)).
  - intros g0 d. unfold decrement. rewrite outer_emit. simpl.
    by rewrite (right_id_L [] (++)).
  - done.
Qed.

Lemma fire_outer fuel t g g' :
  fire fuel t g = Done g' →
  outer (trace g') = outer (trace g) ++ callback_event t.
Proof.
  unfold fire, callback_event.
  assert (outer (trace match callback t with
                       | Some f => emit (EvCallback f) g
                       | None => g
                       end)
          = outer (trace g) ++ match callback t with
                               | Some f => [EvCallback f]
                               | None => []
                               end) as H0.
  { destruct (callback t); [by rewrite outer_emit|].
    by rewrite (right_id_L [] (++)). }
  destruct (dependent t =? nullptr)%N.
  - by intros [= <-].
  - intros H%check_delete_outer. rewrite H. unfold decrement.
    rewrite outer_emit. simpl. by rewrite (right_id_L [] (++)).
Qed.

Lemma fire_all_outer fuel l :
  ∀ g g', for_each (fire fuel) l g = Done g' →
          outer (trace g') = outer (trace g) ++ (l ≫= callback_event).
Proof.
  induction l as [|t l IH]; intros g g'; simpl.
  - intros [= <-]. by rewrite (right_id_L [] (++)).
  - destruct (fire fuel t g) as [g1| |] eqn:Hf; try done. simpl.
    intros H%IH. rewrite H, (fire_outer _ _ _ _ Hf).
    by rewrite <-(assoc_L (++)).
Qed.

Lemma drain_outer fuel v q g q' g' :
  drain fuel v q g = Done (q', g') →
  q' = drop_ready v q
  ∧ outer (trace g') = outer (trace g) ++ (take_ready v q ≫= callback_event).
Proof.
  rewrite drain_split.
  destruct (for_each _ _ _) as [g1| |] eqn:Hf; try done. simpl.
  intros [= <- <-]. split; [done|]. by apply (fire_all_outer fuel).
Qed.

Lemma counter_events_sorted dev sem info :
  pq_sorted (triggers info) →
  counter_events dev (sem, info) =
  EvGetSemaphoreCounterValue sem
  :: (take_ready (dev sem) (triggers info) ≫= callback_event)
  ++ match drop_ready (dev sem) (triggers info), should_destroy info with
     | [], true => [EvDestroySemaphore sem]
     | _, _ => []
     end.
Proof.
  intros Hs. unfold counter_events, ready, waiting. simpl.
  by rewrite <-take_ready_filter, <-drop_ready_filter.
Qed.

Lemma collect_loop_outer fuel dev sems :
  Forall (λ kv, pq_sorted (triggers kv.2)) sems →
  ∀ g sems' g',
    collect_loop fuel dev sems g = Done (sems', g') →
    outer (trace g') = outer (trace g) ++ (sems ≫= counter_events dev).
Proof.
  induction 1 as [|[sem info] rest Hs Hrest IH]; intros g sems' g'.
  - simpl. intros [= <- <-]. by rewrite (right_id_L [] (++)).
  - rewrite bind_cons, counter_events_sorted by done.
    cbn [collect_loop].
    destruct (drain fuel _ _ _) as [[q g1]| |] eqn:Hd; try done.
    apply drain_outer in Hd as [-> Hd]. cbn [outcome_bind].
    rewrite outer_emit in Hd. cbn [is_internal] in Hd.
    destruct (drop_ready (dev sem) (triggers info)) as [|t q] eqn:Hq;
      [destruct (should_destroy info)|].
    + intros H%IH. rewrite H, outer_emit, Hd. cbn [is_internal].
      by repeat (cbn [app]; rewrite <-?(assoc_L (++))).
    + destruct (collect_loop fuel dev rest g1) as [[rest' g2]| |] eqn:Hl;
        try done.
      cbn [outcome_bind]. intros [= <- <-]. rewrite (IH _ _ _ Hl), Hd.
      rewrite (right_id_L [] (++)).
      by repeat (cbn [app]; rewrite <-?(assoc_L (++))).
    + destruct (collect_loop fuel dev rest g1) as [[rest' g2]| |] eqn:Hl;
        try done.
      cbn [outcome_bind]. intros [= <- <-]. rewrite (IH _ _ _ Hl), Hd.
      rewrite (right_id_L [] (++)).
      by repeat (cbn [app]; rewrite <-?(assoc_L (++))).
Qed.

Lemma collect_outer fuel dev g g' :
  Forall (λ kv, pq_sorted (triggers kv.2)) (semaphore_dependencies g) →
  collect fuel dev g = Done g' →
  outer (trace g') =
  outer (trace g)
    ++ EvLock :: (semaphore_dependencies g ≫= counter_events dev) ++ [EvUnlock].
Proof.
  intros Hs. unfold collect.
  destruct (collect_loop fuel _ _ _) as [[sems g1]| |] eqn:Hl; try done.
  simpl. intros [= <-]. simpl. rewrite outer_app.
  rewrite (collect_loop_outer _ _ _ Hs _ _ _ Hl), outer_emit. simpl.
  by rewrite <-!(assoc_L (++)).
Qed.
End outer_events.

(** ** The claims of the specification *)

Lemma check_delete_result fuel K E g r it :
  accounted K E g → zero_counts K g → r ∉ K →
  resources g !! r = Some it → total K E g < fuel →
  ∃ g', check_delete fuel r g = Done g'
        ∧ if is_eligible it
          then ∃ f evs,
                 dependency_count it = 0%N ∧ cleanup it = Some f
                 ∧ trace g' = trace g ++ EvCleanup r f :: evs
                 ∧ cleanups_of r evs = 0
                 ∧ resources g' !! r = None
          else g' = g.
Proof.
  intros Hacc HK HrK Hit Hfuel.
  destruct (check_delete_cascade fuel K E g r)
    as (g' & Hrun & _ & Hcas); try done.
  exists g'. split; [done|].
  unfold is_eligible.
  destruct (begin_delete_cases r g)
    as [(it' & f & Hit' & Hz & Hf & Hb)|[Hne Hb]]; rewrite Hb in Hcas.
  - assert (it' = it) as -> by congruence.
    rewrite Hz, Hf. simpl.
    destruct Hcas as [Z M Do Se (evs & Tr & Ok & Cl) El Le Sa].
    exists f, evs. split_and!; try done.
    + rewrite Tr. simpl. by rewrite <-(assoc_L (++)).
    + rewrite Cl. unfold deleted. simpl. by rewrite lookup_delete_eq.
    + apply Do. simpl. apply lookup_delete_eq.
  - specialize (Hne it Hit). unfold is_eligible in Hne. rewrite Hne.
    destruct fuel as [|fuel]; [lia|]. simpl in Hrun. rewrite Hit in Hrun.
    destruct (dependency_count it =? 0)%N; [|congruence].
    destruct (cleanup it); [done|congruence].
Qed.

(** C1. [check_delete] deletes a resource (invokes its cleanup, once,
    and takes its record out of the map) exactly when its
    [dependency_count] is [0] and a cleanup is set, and does nothing
    otherwise. This holds at every call: from [release], from a trigger
    that fires in [collect], and from the cascade of another deletion
    (the records [K] being those still under deletion). The three call
    sites re-check right after they change the count or the cleanup, so
    that between two operations no record of the map is eligible. *)
Theorem check_delete_exactly_when_eligible :
  (∀ fuel K E g r it,
     accounted K E g → zero_counts K g → r ∉ K →
     resources g !! r = Some it → total K E g < fuel →
     ∃ g', check_delete fuel r g = Done g'
           ∧ if is_eligible it
             then ∃ f evs,
                    dependency_count it = 0%N ∧ cleanup it = Some f
                    ∧ trace g' = trace g ++ EvCleanup r f :: evs
                    ∧ cleanups_of r evs = 0
                    ∧ resources g' !! r = None
             else g' = g)
  ∧ (∀ fuel r c g,
       release fuel r c g
       = (g' ←← check_delete fuel r (released r c g); Done (emit EvUnlock g')))
  ∧ (∀ fuel t g,
       dependent t ≠ nullptr →
       ∃ g0, trace g0 = trace g ++ callback_event t
             ∧ resources g0 = resources g
             ∧ fire fuel t g
               = check_delete fuel (dependent t) (decrement (dependent t) g0))
  ∧ (∀ n g, reachable n g → (n ≤ SIZE_MAX)%N → settled g).
Proof.
  split_and!.
  - apply check_delete_result.
  - done.
  - intros fuel t g Hd. unfold fire, callback_event.
    apply N.eqb_neq in Hd. rewrite Hd.
    destruct (callback t) as [f|].
    + by exists (emit (EvCallback f) g).
    + exists g. by rewrite (right_id_L [] (++)).
  - intros n g Hr Hn. by destruct (reachable_consistent n g Hr Hn).
Qed.

Section never_undefined.
Implicit Types (g : garbage_collector).

Lemma for_each_defined {A S} (body : A → S → outcome S) l :
  (∀ a s, body a s ≠ Undefined) → ∀ s, for_each body l s ≠ Undefined.
Proof.
  intros H. induction l as [|a l IH]; intros s; simpl; [done|].
  specialize (H a s). destruct (body a s); simpl; auto.
Qed.

Lemma check_delete_defined fuel :
  ∀ r g, is_Some (resources g !! r) → check_delete fuel r g ≠ Undefined.
Proof.
  induction fuel as [|fuel IH]; intros r g [it Hit]; simpl; [done|].
  rewrite Hit.
  destruct (dependency_count it =? 0)%N; [|done].
  destruct (cleanup it) as [f|]; [|done].
  pose proof (for_each_defined
                (λ dep g, check_delete fuel dep (decrement dep g))
                (dependents it)) as H.
  destruct (for_each _ _ _) eqn:Hl; simpl; try done.
  intros _. eapply H; [|exact Hl].
  intros d s. apply IH. simpl. rewrite lookup_modify_eq. by eexists.
Qed.

Lemma fire_defined fuel t g : fire fuel t g ≠ Undefined.
Proof.
  unfold fire. destruct (dependent t =? nullptr)%N; [done|].
  apply check_delete_defined. simpl. rewrite lookup_modify_eq. by eexists.
Qed.

Lemma drain_defined fuel v q : ∀ g, drain fuel v q g ≠ Undefined.
Proof.
  induction q as [|t q IH]; intros g; simpl; [done|].
  destruct (value t <=? v)%N; [|done].
  pose proof (fire_defined fuel t g).
  destruct (fire fuel t g); simpl; auto.
Qed.

Lemma collect_loop_defined fuel dev sems :
  ∀ g, collect_loop fuel dev sems g ≠ Undefined.
Proof.
  induction sems as [|[sem info] rest IH]; intros g; simpl; [done|].
  pose proof (drain_defined fuel (dev sem) (triggers info)
                (emit (EvGetSemaphoreCounterValue sem) g)) as Hd.
  destruct (drain _ _ _ _) as [[q g1]| |]; simpl; try done.
  assert (('(rest', g2) ←← collect_loop fuel dev rest g1;
           Done ((sem, {| triggers := q;
                          should_destroy := should_destroy info |})
                   :: rest', g2)) ≠ Undefined) as Hkeep.
  { pose proof (IH g1). by destruct (collect_loop fuel dev rest g1) as [[]| |]. }
  destruct q; [destruct (should_destroy info)|]; auto.
Qed.

Lemma collect_defined fuel dev g : collect fuel dev g ≠ Undefined.
Proof.
  unfold collect.
  pose proof (collect_loop_defined fuel dev (semaphore_dependencies g)
                (emit EvLock g)) as H.
  simpl in *. by destruct (collect_loop _ _ _ _) as [[]| |].
Qed.
End never_undefined.

(** C10. [check_delete] is only ever called on an identity that is in
    the resource map: every call site goes through [operator[]] on that
    identity just before the call, which leaves a record in the map, so
    the lookup at the start of [check_delete] finds one, whatever the
    state and the fuel; no public operation runs into the missing-key
    branch. *)
Theorem check_delete_lookup_never_fails :
  (∀ r f (m : gmap N dependency_info), is_Some (resources_modify r f m !! r))
  ∧ (∀ fuel r g,
       is_Some (resources g !! r) → check_delete fuel r g ≠ Undefined)
  ∧ (∀ fuel d g, check_delete fuel d (decrement d g) ≠ Undefined)
  ∧ (∀ fuel o g, exec fuel o g ≠ Undefined).
Proof.
  split_and!.
  - intros r f m. rewrite lookup_modify_eq. by eexists.
  - intros fuel r g. apply check_delete_defined.
  - intros fuel d g. apply check_delete_defined. simpl.
    rewrite lookup_modify_eq. by eexists.
  - intros fuel o g. destruct o; simpl; try done.
    + unfold release.
      pose proof (check_delete_defined fuel resource (released resource c g))
        as H.
      unfold released in H.
      destruct (check_delete _ _ _); simpl; try done.
      intros _. apply H; [|done]. simpl. rewrite lookup_modify_eq. by eexists.
    + apply collect_defined.
    + unfold wait_collect. pose proof (collect_defined fuel dev g) as H.
      destruct (collect fuel dev g); simpl; try done.
      destruct (_ || _); [apply collect_defined|done].
Qed.

(** C8. In every state the public operations can reach while fewer
    than [2^64] dependency edges have been registered (each edge is an
    entry of a vector or of a priority queue in memory, so a run cannot
    hold more), no [dependency_count--] was ever applied to a count of
    [0], so the [size_t] never wrapped; the count of every identity other
    than [nullptr] is exactly the number of its pending edges
    ([dependents] entries and triggers with that dependent), so that an
    edge accounts for one unit of the count from its registration to the
    one decrement that resolves it; and resolving an edge decrements by
    exactly one. *)
Theorem dependency_count_never_wraps n g :
  reachable n g → (n ≤ SIZE_MAX)%N →
  (∀ r c, EvDecrement r c ∈ trace g → (0 < c)%N)
  ∧ (∀ r, r ≠ nullptr →
       refcount g r
       = occurrences r (semaphore_edges (semaphore_dependencies g)
                          ++ pending [] (resources g)))
  ∧ (∀ r, (occurrences r (semaphore_edges (semaphore_dependencies g)
                            ++ pending [] (resources g))
           ≤ refcount g r ≤ n)%N)
  ∧ (∀ d E, accounted [] (d :: E) g →
       (0 < refcount g d)%N
       ∧ (refcount (decrement d g) d + 1 = refcount g d)%N
       ∧ accounted [] E (decrement d g)).
Proof.
  intros Hr Hn. destruct (reachable_consistent n g Hr Hn) as [A B S T Q D].
  split_and!.
  - intros r c Hin. rewrite Forall_forall in T. apply (T _ Hin).
  - intros r Hne. destruct (A r) as [H1 H2]. specialize (H2 Hne). lia.
  - intros r. destruct (A r) as [H1 _]. specialize (B r). lia.
  - intros d E Hacc.
    destruct (accounted_decrement [] E g d Hacc) as [Hd Hacc'].
    split_and!; [done| |done].
    rewrite refcount_decrement, decide_True by done. unfold size_decr.
    destruct (N.eqb_spec (refcount g d) 0); lia.
Qed.

Section collect_traces.
Implicit Types (g : garbage_collector) (l : list (N * semaphore_info)).

(** [collect] on a consistent state: it returns, and this is what it
    leaves and what it shows. *)
Lemma collect_trace fuel n g dev :
  consistent n g → enough_fuel g ≤ fuel →
  ∃ g' evs,
    collect fuel dev g = Done g' ∧ consistent n g'
    ∧ semaphore_dependencies g'
      = collect_result dev (semaphore_dependencies g)
    ∧ enough_fuel g' ≤ enough_fuel g
    ∧ trace g' = trace g ++ evs
    ∧ outer evs
      = EvLock :: (semaphore_dependencies g ≫= counter_events dev)
          ++ [EvUnlock].
Proof.
  intros Hg Hfuel.
  destruct (collect_consistent fuel n g dev Hg Hfuel)
    as (g' & Hrun & Hg' & Hsem & Hf').
  destruct (collect_spec fuel n g dev Hg Hfuel) as (g1 & Hrun1 & _ & Hcas).
  rewrite Hrun in Hrun1. injection Hrun1 as ->.
  destruct Hcas as [_ _ _ _ (evs & Tr & _ & _) _ _ _].
  exists (emit EvUnlock
            (with_semaphores (collect_result dev (semaphore_dependencies g)) g1)),
         (EvLock :: evs ++ [EvUnlock]).
  split_and!; try done.
  - simpl. rewrite Tr. simpl. by rewrite <-!(assoc_L (++)).
  - pose proof (collect_outer fuel dev g _ (con_sorted _ _ Hg) Hrun) as Ho.
    simpl in Ho. rewrite Tr in Ho. simpl in Ho.
    rewrite <-!(assoc_L (++)), outer_app in Ho.
    by apply (inj (app (outer (trace g)))) in Ho.
Qed.

Lemma keys_unique l k i1 i2 :
  NoDup l.*1 → (k, i1) ∈ l → (k, i2) ∈ l → i1 = i2.
Proof.
  induction l as [|[k' i'] l IH]; csimpl; intros Hnd H1 H2.
  - by apply elem_of_nil in H1.
  - apply NoDup_cons in Hnd as [Hk Hnd].
    assert (∀ i, (k', i) ∈ l → False) as Hk'.
    { intros i Hi. apply Hk. apply list_elem_of_fmap. by exists (k', i). }
    apply elem_of_cons in H1 as [[= -> ->]|H1];
      apply elem_of_cons in H2 as [[= ?]|H2]; subst; try done.
    + by destruct (Hk' i2).
    + by destruct (Hk' i1).
    + by apply IH.
Qed.

Lemma collect_result_lookup dev l :
  NoDup l.*1 →
  ∀ sem info,
    (sem, info) ∈ l →
    match drop_ready (dev sem) (triggers info), should_destroy info with
    | [], true => sem ∉ (collect_result dev l).*1
    | q, b => (sem, {| triggers := q; should_destroy := b |})
                ∈ collect_result dev l
    end.
Proof.
  induction l as [|[k i] l IH]; csimpl; intros Hnd sem info Hin.
  - by apply elem_of_nil in Hin.
  - apply NoDup_cons in Hnd as [Hk Hnd].
    pose proof (collect_result_keys dev l) as Hsub.
    apply elem_of_cons in Hin as [[= -> ->]|Hin].
    + destruct (drop_ready (dev k) (triggers i)) eqn:Hd;
        [destruct (should_destroy i)|]; csimpl.
      * intros Hx. apply Hk. by eapply elem_of_sublist.
      * by left.
      * by left.
    + specialize (IH Hnd sem info Hin).
      assert (sem ≠ k) as Hne.
      { intros ->. apply Hk. apply list_elem_of_fmap.
        by exists (k, info). }
      destruct (drop_ready (dev k) (triggers i)) eqn:Hd;
        [destruct (should_destroy i)|]; csimpl;
        destruct (drop_ready (dev sem) (triggers info));
        [destruct (should_destroy info)|..];
        rewrite ?not_elem_of_cons, ?elem_of_cons; auto.
      all: destruct (should_destroy info);
        rewrite ?not_elem_of_cons, ?elem_of_cons; auto.
Qed.

Lemma destroy_event_iff dev l sem :
  Forall (λ kv, pq_sorted (triggers kv.2)) l →
  EvDestroySemaphore sem ∈ l ≫= counter_events dev ↔
  ∃ info, (sem, info) ∈ l
          ∧ drop_ready (dev sem) (triggers info) = []
          ∧ should_destroy info = true.
Proof.
  intros Hs. rewrite list_elem_of_bind. split.
  - intros ([k i] & Hin & Hkv). exists i.
    rewrite Forall_forall in Hs.
    rewrite counter_events_sorted in Hin by apply (Hs _ Hkv).
    apply elem_of_cons in Hin as [?|Hin]; [done|].
    apply elem_of_app in Hin as [Hin|Hin].
    + apply list_elem_of_bind in Hin as (t & Hin & _).
      unfold callback_event in Hin. destruct (callback t); [|by apply elem_of_nil in Hin].
      by apply list_elem_of_singleton in Hin.
    + destruct (drop_ready (dev k) (triggers i)) eqn:Hd;
        [destruct (should_destroy i) eqn:Hsd|];
        try by apply elem_of_nil in Hin.
      apply list_elem_of_singleton in Hin as [= ->]. by split_and!.
  - intros (info & Hin & Hd & Hsd). exists (sem, info). split; [|done].
    rewrite Forall_forall in Hs.
    rewrite counter_events_sorted by apply (Hs _ Hin).
    rewrite Hd, Hsd. right. apply elem_of_app. right. by left.
Qed.

Lemma semaphores_modify_elem_of sem f l info :
  NoDup l.*1 → (sem, info) ∈ l →
  (sem, f info) ∈ semaphores_modify sem f l.
Proof.
  induction l as [|[k i] l IH]; csimpl; intros Hnd Hin.
  - by apply elem_of_nil in Hin.
  - apply NoDup_cons in Hnd as [Hk Hnd].
    apply elem_of_cons in Hin as [[= -> ->]|Hin].
    + rewrite N.eqb_refl. by left.
    + destruct (N.eqb_spec k sem) as [->|Hne].
      * exfalso. apply Hk. apply list_elem_of_fmap. by exists (sem, info).
      * right. by apply IH.
Qed.

Lemma semaphores_modify_fresh sem f l :
  sem ∉ l.*1 → (sem, f semaphore_info_default) ∈ semaphores_modify sem f l.
Proof.
  induction l as [|[k i] l IH]; csimpl; intros Hk.
  - by left.
  - apply not_elem_of_cons in Hk as [Hne Hk].
    destruct (N.eqb_spec k sem) as [->|_]; [done|]. right. by apply IH.
Qed.

Lemma semaphores_modify_other sem f l k i :
  k ≠ sem → (k, i) ∈ l → (k, i) ∈ semaphores_modify sem f l.
Proof.
  intros Hne. induction l as [|[k' i'] l IH]; csimpl; intros Hin.
  - by apply elem_of_nil in Hin.
  - apply elem_of_cons in Hin as [[= <- <-]|Hin].
    + destruct (N.eqb_spec k sem); [done|]. by left.
    + destruct (N.eqb_spec k' sem); right; [done|]. by apply IH.
Qed.
End collect_traces.

(** C4. [release] of a semaphore only sets [should_destroy]: it calls
    nothing on the device, removes no record and leaves the triggers
    alone. [collect] destroys a semaphore and removes its record if and
    only if, once its ready triggers are popped, its queue is empty and
    [should_destroy] is set; otherwise the record stays, with the
    triggers that are not ready and the flag as it was. *)
Theorem semaphore_destroyed_iff_drained_and_marked n g :
  reachable n g → (n ≤ SIZE_MAX)%N →
  (∀ sem,
     resources (release_semaphore sem g) = resources g
     ∧ trace (release_semaphore sem g) = trace g ++ [EvLock; EvUnlock]
     ∧ (∀ info, (sem, info) ∈ semaphore_dependencies g →
          (sem, {| triggers := triggers info; should_destroy := true |})
          ∈ semaphore_dependencies (release_semaphore sem g))
     ∧ ((sem ∉ (semaphore_dependencies g).*1) →
          (sem, {| triggers := []; should_destroy := true |})
          ∈ semaphore_dependencies (release_semaphore sem g))
     ∧ (∀ k i, k ≠ sem → (k, i) ∈ semaphore_dependencies g →
          (k, i) ∈ semaphore_dependencies (release_semaphore sem g)))
  ∧ (∀ fuel dev,
       enough_fuel g ≤ fuel →
       ∃ g' evs,
         collect fuel dev g = Done g' ∧ trace g' = trace g ++ evs
         ∧ ∀ sem info,
             (sem, info) ∈ semaphore_dependencies g →
             match waiting (dev sem) (triggers info), should_destroy info with
             | [], true =>
                 (sem ∉ (semaphore_dependencies g').*1)
                 ∧ EvDestroySemaphore sem ∈ evs
             | q, b =>
                 (sem, {| triggers := q; should_destroy := b |})
                 ∈ semaphore_dependencies g'
                 ∧ EvDestroySemaphore sem ∉ evs
             end).
Proof.
  intros Hr Hn. pose proof (reachable_consistent n g Hr Hn) as Hg.
  split.
  - intros sem. split_and!.
    + done.
    + simpl. by rewrite <-(assoc_L (++)).
    + intros info Hin.
      apply (semaphores_modify_elem_of sem mark_destroy _ info);
        [apply (con_keys _ _ Hg)|done].
    + intros Hk. by apply (semaphores_modify_fresh sem mark_destroy).
    + intros k i Hne Hin. by apply semaphores_modify_other.
  - intros fuel dev Hfuel.
    destruct (collect_trace fuel n g dev Hg Hfuel)
      as (g' & evs & Hrun & Hg' & Hsem & _ & Htr & Hout).
    exists g', evs. split_and!; [done..|].
    intros sem info Hin.
    pose proof (con_sorted _ _ Hg) as Hs.
    pose proof (con_keys _ _ Hg) as Hnd.
    assert (pq_sorted (triggers info)) as Hq.
    { rewrite Forall_forall in Hs. apply (Hs _ Hin). }
    assert (EvDestroySemaphore sem ∈ evs ↔
            drop_ready (dev sem) (triggers info) = []
            ∧ should_destroy info = true) as Hev.
    { transitivity (EvDestroySemaphore sem ∈ outer evs).
      { unfold outer. rewrite list_elem_of_filter. by split; [|intros [_ ?]]. }
      rewrite Hout, elem_of_cons, elem_of_app, list_elem_of_singleton.
      rewrite destroy_event_iff by done. split.
      - intros [?|[(info' & Hin' & ? & ?)|?]]; try done.
        assert (info' = info) as ->; [|done].
        by eapply (keys_unique _ sem).
      - intros [? ?]. right. left. by exists info. }
    pose proof (collect_result_lookup dev _ Hnd sem info Hin) as Hres.
    rewrite <-Hsem in Hres. unfold waiting.
    rewrite <-drop_ready_filter by done.
    destruct (drop_ready (dev sem) (triggers info)) as [|t q];
      [destruct (should_destroy info)|].
    + split; [done|]. by apply Hev.
    + split; [done|]. rewrite Hev. by intros [_ ?].
    + split; [done|]. rewrite Hev. by intros [? _].
Qed.

Lemma increments_lookup_ne l :
  ∀ g x, x ∉ l →
         resources (foldl (λ g used, increment used g) g l) !! x
         = resources g !! x.
Proof.
  induction l as [|d l IH]; intros g x Hx; simpl; [done|].
  apply not_elem_of_cons in Hx as [Hne Hx].
  rewrite IH by done. simpl. by rewrite lookup_modify_ne.
Qed.

Lemma occurrences_elem_of r (l : list N) : r ∈ l → (0 < occurrences r l)%N.
Proof.
  induction 1 as [x l|x y l Hin IH].
  - rewrite occurrences_cons, decide_True by done. lia.
  - rewrite occurrences_cons. lia.
Qed.

(** C7, as stated, fails: after [depend(1, 2)] the record of the user
    [2] is in the map with count [0], no cleanup and no trigger. *)
Lemma record_of_unreleased_user_exists :
  reachable 1 (depend 1 2 gc_init)
  ∧ ∃ i, resources (depend 1 2 gc_init) !! 2%N = Some i
         ∧ ¬ record_justified (depend 1 2 gc_init) 2 i.
Proof.
  split.
  - apply (reach_exec 0 gc_init 0 (Depend 1 2)); [constructor|done].
  - eexists. split; [by vm_compute|].
    intros [H|[[f H]|H]]; simpl in *.
    + lia.
    + done.
    + by apply elem_of_nil in H.
Qed.

Section firing.
Implicit Types (g : garbage_collector).

Lemma fire_result fuel t E g :
  accounted [] (trigger_edge t ++ E) g →
  total [] (trigger_edge t ++ E) g ≤ fuel →
  ∃ g' evs,
    fire fuel t g = Done g'
    ∧ trace g' = trace g ++ callback_event t ++ evs
    ∧ if (dependent t =? nullptr)%N
      then evs = [] ∧ resources g' = resources g
      else ∃ evs',
             evs = EvDecrement (dependent t) (refcount g (dependent t))
                     :: evs'
             ∧ (0 < refcount g (dependent t))%N
             ∧ ∀ i, resources g' !! dependent t = Some i →
                    (dependency_count i + 1 = refcount g (dependent t))%N
                    ∧ is_eligible i = false.
Proof.
  intros Hacc Hfuel. unfold fire.
  set (g0 := match callback t with
             | Some f => emit (EvCallback f) g
             | None => g
             end).
  assert (trace g0 = trace g ++ callback_event t
          ∧ resources g0 = resources g) as [Htr Hres].
  { subst g0. unfold callback_event. destruct (callback t); [done|].
    by rewrite (right_id_L [] (++)). }
  assert (accounted [] (trigger_edge t ++ E) g0
          ∧ total [] (trigger_edge t ++ E) g0 ≤ fuel
          ∧ ∀ x, refcount g0 x = refcount g x) as (Hacc0 & Hfuel0 & Hrc).
  { subst g0. by destruct (callback t). }
  unfold trigger_edge in *. destruct (dependent t =? nullptr)%N eqn:Hnull.
  { exists g0, []. by rewrite (right_id_L [] (++)). }
  set (d := dependent t) in *. simpl in Hacc0, Hfuel0.
  destruct (accounted_decrement [] E g0 d Hacc0) as [Hd Hacc1].
  pose proof (lookup_modify_eq d (set_count size_decr) (resources g0)) as Hit.
  destruct (check_delete_result fuel [] E (decrement d g0) d _
              Hacc1 ltac:(constructor) ltac:(apply not_elem_of_nil) Hit)
    as (g' & Hrun & Hres').
  { unfold total in *. simpl in *.
    rewrite (pending_modify [] (resources g0) d (set_count size_decr))
      by done.
    lia. }
  assert (size_decr (refcount g0 d) + 1 = refcount g0 d)%N as Hdec.
  { unfold size_decr. destruct (N.eqb_spec (refcount g0 d) 0); lia. }
  destruct (is_eligible _) eqn:Hel.
  - destruct Hres' as (f & evs & _ & _ & Tr & _ & Hgone).
    exists g', (EvDecrement d (refcount g d) :: EvCleanup d f :: evs).
    split_and!; [done| |].
    + rewrite <-(Hrc d), Tr. simpl. rewrite Htr.
      by rewrite <-!(assoc_L (++)).
    + eexists. split_and!; [done|by rewrite <-Hrc|].
      intros i Hi. congruence.
  - subst g'. exists (decrement d g0), [EvDecrement d (refcount g d)].
    split_and!; [done| |].
    + rewrite <-(Hrc d). simpl. rewrite Htr.
      by rewrite <-!(assoc_L (++)).
    + eexists. split_and!; [done|by rewrite <-Hrc|].
      intros i Hi. simpl in Hi. rewrite Hit in Hi. injection Hi as <-.
      split; [|done]. rewrite <-(Hrc d). exact Hdec.
Qed.

Lemma ready_waiting v q : pq_sorted q → ready v q ++ waiting v q = q.
Proof.
  intros Hq. unfold ready, waiting.
  rewrite <-take_ready_filter, <-drop_ready_filter by done.
  apply take_drop_ready.
Qed.

Lemma semaphores_modify_pushed sem t l :
  ∃ info, (sem, info) ∈ semaphores_modify sem (push_trigger t) l
          ∧ t ∈ triggers info.
Proof.
  induction l as [|[k i] l (info & Hin & Ht)]; simpl.
  - eexists. split; [by left|]. simpl. by left.
  - destruct (k =? sem)%N eqn:Hk.
    + apply N.eqb_eq in Hk as ->. eexists. split; [by left|]. simpl.
      rewrite pq_push_perm. by left.
    + exists info. split; [by right|done].
Qed.
End firing.

(** C2. For every semaphore, the loop of [collect] pops and fires
    exactly the pending triggers whose value is at most the value the
    device reports, in the order of the queue, which is by non-decreasing
    value, and leaves the others; so a trigger that is registered with a
    value the semaphore has already reached fires on the next [collect].
    Firing a trigger invokes its callback, if it has one, first; then, if
    it has a dependent, decrements the [dependency_count] of the
    dependent by one and runs [check_delete] on it, after which the
    dependent is gone or not eligible. *)
Theorem collect_fires_ready_triggers_in_order n g :
  reachable n g → (n ≤ SIZE_MAX)%N →
  (∀ fuel v q g0,
     pq_sorted q →
     drain fuel v q g0
     = (g1 ←← for_each (fire fuel) (ready v q) g0; Done (waiting v q, g1))
     ∧ pq_sorted (ready v q)
     ∧ ready v q ++ waiting v q = q)
  ∧ (∀ fuel dev,
       enough_fuel g ≤ fuel →
       ∃ g' evs,
         collect fuel dev g = Done g' ∧ trace g' = trace g ++ evs
         ∧ outer evs
           = EvLock :: (semaphore_dependencies g ≫= counter_events dev)
               ++ [EvUnlock]
         ∧ ∀ sem info info',
             (sem, info) ∈ semaphore_dependencies g →
             (sem, info') ∈ semaphore_dependencies g' →
             triggers info' = waiting (dev sem) (triggers info))
  ∧ (∀ fuel dev timeline v cb,
       (v ≤ dev timeline)%N →
       enough_fuel (add_trigger timeline v (Some cb) g) ≤ fuel →
       ∃ g' evs,
         collect fuel dev (add_trigger timeline v (Some cb) g) = Done g'
         ∧ trace g' = trace (add_trigger timeline v (Some cb) g) ++ evs
         ∧ EvCallback cb ∈ evs)
  ∧ (∀ fuel t E g0,
       accounted [] (trigger_edge t ++ E) g0 →
       total [] (trigger_edge t ++ E) g0 ≤ fuel →
       ∃ g1 evs,
         fire fuel t g0 = Done g1
         ∧ trace g1 = trace g0 ++ callback_event t ++ evs
         ∧ if (dependent t =? nullptr)%N
           then evs = [] ∧ resources g1 = resources g0
           else ∃ evs',
                  evs = EvDecrement (dependent t) (refcount g0 (dependent t))
                          :: evs'
                  ∧ (0 < refcount g0 (dependent t))%N
                  ∧ ∀ i, resources g1 !! dependent t = Some i →
                         (dependency_count i + 1
                          = refcount g0 (dependent t))%N
                         ∧ is_eligible i = false).
Proof.
  intros Hr Hn. pose proof (reachable_consistent n g Hr Hn) as Hg.
  split_and!.
  - intros fuel v q g0 Hq. split_and!.
    + rewrite drain_split. unfold ready, waiting.
      by rewrite <-take_ready_filter, <-drop_ready_filter.
    + unfold ready. rewrite <-take_ready_filter by done.
      by apply take_ready_sorted.
    + by apply ready_waiting.
  - intros fuel dev Hfuel.
    destruct (collect_trace fuel n g dev Hg Hfuel)
      as (g' & evs & Hrun & Hg' & Hsem & _ & Htr & Hout).
    exists g', evs. split_and!; [done..|].
    intros sem info info' Hin Hin'.
    pose proof (collect_result_lookup dev _ (con_keys _ _ Hg) sem info Hin)
      as Hres.
    rewrite <-Hsem in Hres.
    assert (pq_sorted (triggers info)) as Hq.
    { pose proof (con_sorted _ _ Hg) as Hs. rewrite Forall_forall in Hs.
      apply (Hs _ Hin). }
    unfold waiting. rewrite <-drop_ready_filter by done.
    assert (∀ q b, (sem, {| triggers := q; should_destroy := b |})
                   ∈ semaphore_dependencies g' → triggers info' = q) as Huniq.
    { intros q b Hqb.
      by rewrite (keys_unique _ sem _ _ (con_keys _ _ Hg') Hin' Hqb). }
    destruct (drop_ready (dev sem) (triggers info)) as [|t q];
      [destruct (should_destroy info)|]; eauto.
    exfalso. apply Hres. apply list_elem_of_fmap. by exists (sem, info').
  - intros fuel dev timeline v cb Hv Hfuel.
    pose proof (add_trigger_consistent n g timeline v (Some cb) Hg) as Hg2.
    destruct (collect_trace fuel n _ dev Hg2 Hfuel)
      as (g' & evs & Hrun & _ & _ & _ & Htr & Hout).
    exists g', evs. split_and!; [done..|].
    assert (EvCallback cb ∈ outer evs) as Hin;
      [|unfold outer in Hin; by apply list_elem_of_filter in Hin as [_ ?]].
    rewrite Hout. right. apply elem_of_app. left.
    set (t := {| value := v; dependent := nullptr; callback := Some cb |}).
    destruct (semaphores_modify_pushed timeline t (semaphore_dependencies g))
      as (info & Hin & Ht).
    apply list_elem_of_bind. exists (timeline, info). split; [|done].
    unfold counter_events. simpl. right. apply elem_of_app. left.
    apply list_elem_of_bind. exists t. split; [by left|].
    unfold ready. by apply list_elem_of_filter.
  - apply fire_result.
Qed.

Section callbacks.
Implicit Types (g : garbage_collector) (l : list (N * semaphore_info)).

Lemma callbacks_of_app (e1 e2 : list event) :
  callbacks_of (e1 ++ e2) = callbacks_of e1 ++ callbacks_of e2.
Proof. apply omap_app. Qed.

Lemma callbacks_of_locked evs :
  callbacks_of (EvLock :: evs ++ [EvUnlock]) = callbacks_of evs.
Proof.
  change (EvLock :: evs ++ [EvUnlock]) with ([EvLock] ++ evs ++ [EvUnlock]).
  rewrite !callbacks_of_app. simpl. by rewrite (right_id_L [] (++)).
Qed.

Lemma callbacks_of_outer evs : callbacks_of (outer evs) = callbacks_of evs.
Proof.
  unfold outer, callbacks_of.
  induction evs as [|e evs IH]; [done|].
  rewrite filter_cons. destruct e; simpl; first [exact IH|f_equal; exact IH].
Qed.

Lemma callbacks_of_triggers q :
  callbacks_of (q ≫= callback_event) = omap callback q.
Proof.
  induction q as [|t q IH]; [done|].
  rewrite bind_cons, callbacks_of_app, IH. unfold callback_event.
  simpl. by destruct (callback t).
Qed.

Lemma callbacks_of_counter dev kv :
  callbacks_of (counter_events dev kv)
  = omap callback (ready (dev kv.1) (triggers kv.2)).
Proof.
  unfold counter_events. simpl. rewrite callbacks_of_app.
  rewrite callbacks_of_triggers.
  destruct (waiting _ _); [destruct (should_destroy _)|]; simpl;
    by rewrite (right_id_L [] (++)).
Qed.

(** Every pending callback is invoked by [collect] or still pending
    after it, never both. *)
Lemma collect_callbacks dev l :
  Forall (λ kv, pq_sorted (triggers kv.2)) l →
  callbacks_of (l ≫= counter_events dev)
    ++ pending_callbacks (collect_result dev l)
  ≡ₚ pending_callbacks l.
Proof.
  unfold pending_callbacks.
  induction 1 as [|[k i] l Hs Hl IH]; [done|].
  rewrite !bind_cons, callbacks_of_app, callbacks_of_counter.
  cbn [fst snd] in *.
  assert (omap callback (triggers i)
          = omap callback (ready (dev k) (triggers i))
              ++ omap callback (drop_ready (dev k) (triggers i))) as ->.
  { rewrite <-omap_app. f_equal. unfold ready.
    rewrite <-take_ready_filter by done. by rewrite take_drop_ready. }
  rewrite <-IH. cbn [collect_result].
  destruct (drop_ready (dev k) (triggers i)) as [|t q] eqn:Hd;
    [destruct (should_destroy i)|]; rewrite ?bind_cons; cbn [snd triggers].
  - cbn [omap list_omap]. by rewrite <-!(assoc_L (++)).
  - cbn [omap list_omap]. by rewrite <-!(assoc_L (++)).
  - rewrite <-!(assoc_L (++)). f_equiv.
    by rewrite !(assoc_L (++)), (comm (++) (callbacks_of _)).
Qed.

Lemma collect_many_callbacks fuel n devs :
  ∀ g, consistent n g → enough_fuel g ≤ fuel →
       ∃ g', collect_many fuel devs g = Done g'
             ∧ callbacks_of (trace g')
                 ++ pending_callbacks (semaphore_dependencies g')
               ≡ₚ callbacks_of (trace g)
                    ++ pending_callbacks (semaphore_dependencies g).
Proof.
  unfold collect_many.
  induction devs as [|dev devs IH]; intros g Hg Hfuel; simpl.
  - by exists g.
  - destruct (collect_trace fuel n g dev Hg Hfuel)
      as (g1 & evs & -> & Hg1 & Hsem & Hf1 & Htr & Hout).
    simpl. destruct (IH g1 Hg1) as (g' & Hrun & Hperm); [lia|].
    exists g'. split; [done|]. rewrite Hperm, Htr, Hsem.
    rewrite callbacks_of_app, <-(callbacks_of_outer evs), Hout.
    rewrite <-(collect_callbacks dev _ (con_sorted _ _ Hg)).
    by rewrite <-(assoc_L (++)), callbacks_of_locked.
Qed.
End callbacks.

Section one_trigger.
Implicit Types (g : garbage_collector).

Lemma collect_single_waiting fuel dev T t g :
  semaphore_dependencies g
  = [(T, {| triggers := [t]; should_destroy := false |})] →
  (dev T < value t)%N →
  collect fuel dev g
  = Done (emit EvUnlock (emit (EvGetSemaphoreCounterValue T) (emit EvLock g))).
Proof.
  destruct g as [m l tr]. simpl. intros -> Hv. unfold collect. simpl.
  destruct (N.leb_spec (value t) (dev T)); [lia|done].
Qed.

Lemma collect_single_ready fuel dev T t cb g :
  semaphore_dependencies g
  = [(T, {| triggers := [t]; should_destroy := false |})] →
  dependent t = nullptr → callback t = Some cb → (value t ≤ dev T)%N →
  collect fuel dev g
  = Done (emit EvUnlock
            (with_semaphores
               [(T, {| triggers := []; should_destroy := false |})]
               (emit (EvCallback cb)
                  (emit (EvGetSemaphoreCounterValue T) (emit EvLock g))))).
Proof.
  destruct g as [m l tr]. simpl. intros -> Hd Hc Hv.
  unfold collect. simpl.
  destruct (N.leb_spec (value t) (dev T)); [|lia].
  unfold fire. by rewrite Hd, Hc.
Qed.

Lemma collect_single_empty fuel dev T g :
  semaphore_dependencies g
  = [(T, {| triggers := []; should_destroy := false |})] →
  collect fuel dev g
  = Done (emit EvUnlock (emit (EvGetSemaphoreCounterValue T) (emit EvLock g))).
Proof. destruct g as [m l tr]. simpl. by intros ->. Qed.

Lemma collect_many_single_empty fuel T devs :
  ∀ g,
    semaphore_dependencies g
    = [(T, {| triggers := []; should_destroy := false |})] →
    ∃ g', collect_many fuel devs g = Done g'
          ∧ callbacks_of (trace g') = callbacks_of (trace g).
Proof.
  unfold collect_many.
  induction devs as [|dev devs IH]; intros g Hg; simpl.
  - by exists g.
  - rewrite (collect_single_empty fuel dev T g Hg). simpl.
    destruct (IH (emit EvUnlock
                    (emit (EvGetSemaphoreCounterValue T) (emit EvLock g))))
      as (g' & -> & Hcb); [done|].
    exists g'. split; [done|]. rewrite Hcb. simpl.
    rewrite !callbacks_of_app. simpl. by rewrite !(right_id_L [] (++)).
Qed.
End one_trigger.

(** C5. [collect] on an empty semaphore map only takes and releases
    the mutex. Over any sequence of [collect] calls, each pending
    callback is invoked at most once: what the calls have invoked and
    what is still pending are, together, what was pending before. And
    for [add_trigger(T, 5, cb)]: a [collect] that finds [T] at [3] does
    not invoke [cb], one that finds [T] at [5] invokes it once, and no
    later [collect] invokes it again. *)
Theorem collect_fires_each_trigger_once :
  (∀ fuel dev g,
     semaphore_dependencies g = [] →
     collect fuel dev g = Done (emit EvUnlock (emit EvLock g)))
  ∧ (∀ n g fuel devs,
       reachable n g → (n ≤ SIZE_MAX)%N → enough_fuel g ≤ fuel →
       ∃ g', collect_many fuel devs g = Done g'
             ∧ callbacks_of (trace g')
                 ++ pending_callbacks (semaphore_dependencies g')
               ≡ₚ callbacks_of (trace g)
                    ++ pending_callbacks (semaphore_dependencies g))
  ∧ (∀ fuel T cb dev3 dev5 devs g,
       semaphore_dependencies g = [] → dev3 T = 3%N → dev5 T = 5%N →
       ∃ g1 g2 g3,
         collect fuel dev3 (add_trigger T 5 (Some cb) g) = Done g1
         ∧ callbacks_of (trace g1) = callbacks_of (trace g)
         ∧ collect fuel dev5 g1 = Done g2
         ∧ callbacks_of (trace g2) = callbacks_of (trace g) ++ [cb]
         ∧ collect_many fuel devs g2 = Done g3
         ∧ callbacks_of (trace g3) = callbacks_of (trace g2)).
Proof.
  split_and!.
  - intros fuel dev [m l tr] H. simpl in H. by subst l.
  - intros n g fuel devs Hr Hn Hfuel.
    apply (collect_many_callbacks fuel n); [|done].
    by apply reachable_consistent.
  - intros fuel T cb dev3 dev5 devs g Hg Hd3 Hd5.
    set (t := {| value := 5; dependent := nullptr; callback := Some cb |}).
    set (g0 := add_trigger T 5 (Some cb) g).
    assert (semaphore_dependencies g0
            = [(T, {| triggers := [t]; should_destroy := false |})]) as Hg0.
    { subst g0. unfold add_trigger. simpl. by rewrite Hg. }
    assert (callbacks_of (trace g0) = callbacks_of (trace g)) as Hcb0.
    { subst g0. unfold add_trigger. simpl.
      rewrite !callbacks_of_app. simpl. by rewrite !(right_id_L [] (++)). }
    clearbody g0.
    set (g1 := emit EvUnlock
                 (emit (EvGetSemaphoreCounterValue T) (emit EvLock g0))).
    assert (collect fuel dev3 g0 = Done g1) as Hrun1.
    { apply (collect_single_waiting fuel dev3 T t g0); [done|].
      rewrite Hd3. simpl. lia. }
    assert (callbacks_of (trace g1) = callbacks_of (trace g)) as Hcb1.
    { subst g1. simpl. rewrite !callbacks_of_app, Hcb0. simpl.
      by rewrite !(right_id_L [] (++)). }
    assert (semaphore_dependencies g1
            = [(T, {| triggers := [t]; should_destroy := false |})]) as Hg1
      by done.
    clearbody g1.
    set (g2 := emit EvUnlock
                 (with_semaphores
                    [(T, {| triggers := []; should_destroy := false |})]
                    (emit (EvCallback cb)
                       (emit (EvGetSemaphoreCounterValue T) (emit EvLock g1))))).
    assert (collect fuel dev5 g1 = Done g2) as Hrun2.
    { apply (collect_single_ready fuel dev5 T t cb g1); try done.
      rewrite Hd5. simpl. lia. }
    assert (callbacks_of (trace g2) = callbacks_of (trace g) ++ [cb]) as Hcb2.
    { subst g2. simpl. rewrite !callbacks_of_app, Hcb1. simpl.
      by rewrite !(right_id_L [] (++)). }
    destruct (collect_many_single_empty fuel T devs g2) as (g3 & Hrun3 & Hcb3);
      [done|].
    by exists g1, g2, g3.
Qed.

Section chain.
Implicit Types (g : garbage_collector).

Lemma check_delete_eligible fuel r g it f :
  resources g !! r = Some it → dependency_count it = 0%N →
  cleanup it = Some f →
  check_delete (S fuel) r g
  = (g' ←← for_each (λ dep g, check_delete fuel dep (decrement dep g))
             (dependents it) (emit (EvCleanup r f) g);
     Done (erase r g')).
Proof. intros Hit Hz Hf. simpl. by rewrite Hit, Hz, Hf. Qed.

Lemma decrement_lookup_eq d g it :
  resources g !! d = Some it →
  resources (decrement d g) !! d = Some (set_count size_decr it)
  ∧ trace (decrement d g)
    = trace g ++ [EvDecrement d (dependency_count it)].
Proof.
  intros Hit. unfold decrement. simpl. rewrite lookup_modify_eq.
  unfold resources_index. by rewrite Hit.
Qed.
End chain.

(** C3. With [depend(A, B)] and [depend(B, C)] in place, [A] and [B]
    released and nothing else holding them, [release] of [C] runs the
    whole cascade before it returns: the cleanup of [C], the one
    decrement of [B] (from [1] to [0]), the cleanup of [B], the one
    decrement of [A], the cleanup of [A] — each cleanup once, in that
    order — and the three records are gone. *)
Theorem chain_release_cascades fuel g A B C fa fb fc cc :
  resources g !! A
  = Some {| dependency_count := 1; dependents := []; cleanup := Some fa |} →
  resources g !! B
  = Some {| dependency_count := 1; dependents := [A]; cleanup := Some fb |} →
  resources g !! C
  = Some {| dependency_count := 0; dependents := [B]; cleanup := cc |} →
  3 ≤ fuel →
  ∃ g', release fuel C (Some fc) g = Done g'
        ∧ trace g'
          = trace g ++ [EvLock; EvCleanup C fc; EvDecrement B 1;
                        EvCleanup B fb; EvDecrement A 1; EvCleanup A fa;
                        EvUnlock]
        ∧ resources g' = delete C (delete B (delete A (resources g)))
        ∧ semaphore_dependencies g' = semaphore_dependencies g.
Proof.
  intros HA HB HC Hfuel.
  assert (A ≠ B) as HAB by (intros ->; congruence).
  assert (B ≠ C) as HBC by (intros ->; congruence).
  assert (A ≠ C) as HAC by (intros ->; congruence).
  destruct fuel as [|[|[|fuel]]]; try lia. clear Hfuel.
  unfold release.
  change (with_resources _ (emit EvLock g)) with (released C (Some fc) g).
  set (g0 := released C (Some fc) g).
  assert (resources g0 !! C
          = Some {| dependency_count := 0; dependents := [B];
                    cleanup := Some fc |}) as HC0.
  { subst g0. unfold released. simpl. rewrite lookup_modify_eq.
    unfold resources_index. by rewrite HC. }
  assert (resources g0 = <[C := {| dependency_count := 0; dependents := [B];
                                   cleanup := Some fc |}]> (resources g)
          ∧ trace g0 = trace g ++ [EvLock]
          ∧ semaphore_dependencies g0 = semaphore_dependencies g)
    as (Hm0 & Ht0 & Hs0).
  { subst g0. unfold released, resources_modify, resources_index. simpl.
    by rewrite HC. }
  clearbody g0.
  rewrite (check_delete_eligible _ C g0 _ fc HC0) by done.
  cbn [dependents for_each].
  assert (resources g0 !! B
          = Some {| dependency_count := 1; dependents := [A];
                    cleanup := Some fb |}) as HB0.
  { by rewrite Hm0, lookup_insert_ne. }
  set (g1 := decrement B (emit (EvCleanup C fc) g0)).
  destruct (decrement_lookup_eq B (emit (EvCleanup C fc) g0) _ HB0)
    as [HB1 Ht1].
  assert (resources g1 = <[B := {| dependency_count := 0; dependents := [A];
                                   cleanup := Some fb |}]> (resources g0)
          ∧ semaphore_dependencies g1 = semaphore_dependencies g0)
    as (Hm1 & Hs1).
  { subst g1. unfold decrement, resources_modify, resources_index. simpl.
    by rewrite HB0. }
  fold g1 in HB1, Ht1. clearbody g1.
  unfold set_count, size_decr in HB1. simpl in HB1, Ht1.
  rewrite (check_delete_eligible _ B g1 _ fb HB1) by done.
  cbn [dependents for_each].
  assert (resources g1 !! A
          = Some {| dependency_count := 1; dependents := [];
                    cleanup := Some fa |}) as HA1.
  { by rewrite Hm1, lookup_insert_ne, Hm0, lookup_insert_ne. }
  set (g2 := decrement A (emit (EvCleanup B fb) g1)).
  destruct (decrement_lookup_eq A (emit (EvCleanup B fb) g1) _ HA1)
    as [HA2 Ht2].
  assert (resources g2 = <[A := {| dependency_count := 0; dependents := [];
                                   cleanup := Some fa |}]> (resources g1)
          ∧ semaphore_dependencies g2 = semaphore_dependencies g1)
    as (Hm2 & Hs2).
  { subst g2. unfold decrement, resources_modify, resources_index. simpl.
    by rewrite HA1. }
  fold g2 in HA2, Ht2. clearbody g2.
  unfold set_count, size_decr in HA2. simpl in HA2, Ht2.
  rewrite (check_delete_eligible _ A g2 _ fa HA2) by done.
  cbn [dependents for_each outcome_bind].
  eexists. split; [done|]. split_and!.
  - simpl. rewrite Ht2. simpl. rewrite Ht1. simpl. rewrite Ht0.
    by rewrite <-!(assoc_L (++)).
  - simpl. rewrite Hm2, Hm1, Hm0. apply map_eq. intros x.
    rewrite !lookup_delete, !lookup_insert.
    repeat case_decide; congruence.
  - simpl. by rewrite Hs2, Hs1, Hs0.
Qed.

Section wait_collect_facts.
Implicit Types (g : garbage_collector) (l : list (N * semaphore_info)).

Lemma collect_result_elem_of dev l sem info' :
  (sem, info') ∈ collect_result dev l →
  ∃ info, (sem, info) ∈ l
          ∧ triggers info' = drop_ready (dev sem) (triggers info)
          ∧ should_destroy info' = should_destroy info
          ∧ (triggers info' = [] → should_destroy info' = false).
Proof.
  induction l as [|[k i] l IH]; simpl; intros Hin.
  - by apply elem_of_nil in Hin.
  - assert ((sem, info') ∈ collect_result dev l →
            ∃ info, (sem, info) ∈ (k, i) :: l
                    ∧ triggers info' = drop_ready (dev sem) (triggers info)
                    ∧ should_destroy info' = should_destroy info
                    ∧ (triggers info' = [] → should_destroy info' = false))
      as Hrest.
    { intros (info & ? & ?)%IH. exists info. split; [by right|done]. }
    destruct (drop_ready (dev k) (triggers i)) as [|t q] eqn:Hd;
      [destruct (should_destroy i) eqn:Hsd|]; [by auto|..];
      apply elem_of_cons in Hin as [[= -> ->]|Hin]; [|by auto| |by auto];
      exists i; simpl; (split; [by left|by rewrite Hd]).
Qed.

Lemma semaphore_edges_drained l :
  (∀ sem info, (sem, info) ∈ l → triggers info = []) →
  semaphore_edges l = [].
Proof.
  unfold semaphore_edges. induction l as [|[k i] l IH]; intros H; [done|].
  rewrite bind_cons, IH.
  - simpl. rewrite (H k i); [done|by left].
  - intros sem info Hin. apply (H sem info). by right.
Qed.

Lemma has_records_false g :
  has_records g = false → resources g = ∅ ∧ semaphore_dependencies g = [].
Proof.
  unfold has_records. intros [H1 H2]%orb_false_elim.
  apply negb_false_iff, Nat.eqb_eq in H1, H2. split.
  - by apply map_size_empty_iff.
  - by apply length_zero_iff_nil.
Qed.

Lemma lock_held_app (evs : list event) e :
  lock_held (evs ++ [e]) = match e with
                           | EvLock => true
                           | EvUnlock => false
                           | _ => lock_held evs
                           end.
Proof. unfold lock_held. by rewrite foldl_snoc. Qed.

(** [wait_collect] on a consistent state: it returns, and this is
    what its two [collect] calls leave and show. *)
Lemma wait_collect_trace fuel n g dev dev_idle :
  consistent n g → enough_fuel g ≤ fuel →
  ∃ g1 evs1,
    collect fuel dev g = Done g1 ∧ consistent n g1
    ∧ semaphore_dependencies g1
      = collect_result dev (semaphore_dependencies g)
    ∧ trace g1 = trace g ++ evs1
    ∧ outer evs1
      = EvLock :: (semaphore_dependencies g ≫= counter_events dev)
          ++ [EvUnlock]
    ∧ if has_records g1
      then ∃ g' evs2,
             wait_collect fuel dev dev_idle g = Done g'
             ∧ collect fuel dev_idle
                 (emit EvUnlock (emit EvDeviceWaitIdle (emit EvLock g1)))
               = Done g'
             ∧ consistent n g'
             ∧ semaphore_dependencies g'
               = collect_result dev_idle (semaphore_dependencies g1)
             ∧ trace g'
               = trace g1 ++ [EvLock; EvDeviceWaitIdle; EvUnlock] ++ evs2
             ∧ outer evs2
               = EvLock
                   :: (semaphore_dependencies g1 ≫= counter_events dev_idle)
                   ++ [EvUnlock]
      else wait_collect fuel dev dev_idle g
           = Done (emit EvUnlock (emit EvLock g1))
           ∧ resources g1 = ∅ ∧ semaphore_dependencies g1 = [].
Proof.
  intros Hg Hfuel.
  destruct (collect_trace fuel n g dev Hg Hfuel)
    as (g1 & evs1 & Hrun1 & Hg1 & Hsem1 & Hf1 & Htr1 & Hout1).
  exists g1, evs1. split_and!; [done..|].
  unfold wait_collect. rewrite Hrun1. simpl.
  change (negb (size (resources g1) =? 0)%nat
          || negb (length (semaphore_dependencies g1) =? 0)%nat)
    with (has_records g1).
  destruct (has_records g1) eqn:Hrec.
  - destruct (collect_trace fuel n
                (emit EvUnlock (emit EvDeviceWaitIdle (emit EvLock g1)))
                dev_idle) as (g' & evs2 & Hrun2 & Hg' & Hsem2 & _ & Htr2 & Hout2).
    + by repeat apply consistent_emit.
    + change (enough_fuel g1 ≤ fuel). lia.
    + exists g', evs2. split_and!; try done.
      rewrite Htr2. simpl. by rewrite <-!(assoc_L (++)).
  - split; [done|]. by apply has_records_false.
Qed.

(** [collect] changes neither the cleanup nor the [dependents] of a
    record it leaves, and adds no record. *)
Lemma collect_same fuel n g dev g' :
  consistent n g → enough_fuel g ≤ fuel → collect fuel dev g = Done g' →
  ∀ x i', resources g' !! x = Some i' →
          ∃ i, resources g !! x = Some i
               ∧ cleanup i' = cleanup i ∧ dependents i' = dependents i.
Proof.
  intros Hg Hfuel Hrun.
  destruct (collect_spec fuel n g dev Hg Hfuel) as (g1 & Hrun1 & _ & Hcas).
  rewrite Hrun in Hrun1. injection Hrun1 as ->.
  apply (cas_same _ _ _ Hcas).
Qed.

Lemma pending_elem_of (m : gmap N dependency_info) x :
  x ∈ pending [] m → ∃ y i, m !! y = Some i ∧ x ∈ dependents i.
Proof.
  unfold pending. intros ([y i] & Hx & Hy)%list_elem_of_bind.
  apply elem_of_map_to_list in Hy. exists y, i. split; [done|].
  unfold edges_from in Hx.
  destruct (decide _) as [Hin|_] in Hx; [by apply elem_of_nil in Hin|done].
Qed.

Lemma occurrences_positive r (ns : list N) : (0 < occurrences r ns)%N → r ∈ ns.
Proof.
  induction ns as [|a ns IH]; [rewrite occurrences_nil; lia|].
  rewrite occurrences_cons. destruct (decide (a = r)) as [->|Hne]; [by left|].
  intros Hpos. right. apply IH. lia.
Qed.

Lemma rank_bounded (rank : N → nat) (m : gmap N dependency_info) :
  ∃ M, ∀ x i, m !! x = Some i → rank x ≤ M.
Proof.
  exists (foldr (λ kv M, rank kv.1 `max` M) 0 (map_to_list m)).
  intros x i Hx%elem_of_map_to_list.
  induction (map_to_list m) as [|kv kvs IH]; [by apply elem_of_nil in Hx|].
  simpl. apply elem_of_cons in Hx as [<-|Hx]; [simpl; lia|].
  specialize (IH Hx). lia.
Qed.

(** A settled state with every record released, no record for
    [nullptr] and no cycle among the [dependents] has no record. *)
Lemma released_acyclic_empty g (rank : N → nat) :
  settled g →
  (∀ x, x ≠ nullptr →
        refcount g x = occurrences x (pending [] (resources g))) →
  resources g !! nullptr = None →
  (∀ x i, resources g !! x = Some i → is_Some (cleanup i)) →
  (∀ x i d, resources g !! x = Some i → d ∈ dependents i →
            rank d < rank x) →
  resources g = ∅.
Proof.
  intros Hs Hacc Hnull Hrel Hrank.
  destruct (rank_bounded rank (resources g)) as [M HM].
  assert (∀ x i, resources g !! x = Some i →
                 ∃ y j, resources g !! y = Some j ∧ rank x < rank y) as Hup.
  { intros x i Hx.
    assert (x ≠ nullptr) as Hne by (intros ->; congruence).
    destruct (Hrel x i Hx) as [f Hf].
    pose proof (Hs x i Hx) as He. unfold is_eligible in He. rewrite Hf in He.
    assert (0 < refcount g x)%N as Hpos.
    { rewrite (refcount_present g x i Hx).
      destruct (N.eqb_spec (dependency_count i) 0); [done|lia]. }
    rewrite (Hacc x Hne) in Hpos.
    apply occurrences_positive, pending_elem_of in Hpos
      as (y & j & Hy & Hin).
    exists y, j. split; [done|]. by apply (Hrank y j x). }
  assert (∀ k x i, resources g !! x = Some i → M - rank x ≤ k → False) as Hno.
  { induction k as [|k IH]; intros x i Hx Hk;
      destruct (Hup x i Hx) as (y & j & Hy & Hlt);
      pose proof (HM y j Hy); [lia|].
    apply (IH y j Hy). lia. }
  apply map_empty. intros x.
  destruct (resources g !! x) as [i|] eqn:Hx; [|done].
  destruct (Hno (M - rank x) x i Hx). lia.
Qed.
End wait_collect_facts.

(** C6, as stated, fails: a semaphore that was never released keeps its
    record. After [add_trigger(7, 5, cb)], a [wait_collect] whose wait
    brings the semaphore to [9] fires the trigger and returns with the
    record of the semaphore still in the map. *)
Lemma wait_collect_keeps_unreleased_semaphore :
  reachable 0 (add_trigger 7 5 (Some 1%N) gc_init)
  ∧ (∀ sem info t,
       (sem, info) ∈ semaphore_dependencies (add_trigger 7 5 (Some 1%N) gc_init) →
       t ∈ triggers info → (value t ≤ 9)%N)
  ∧ ∃ g', wait_collect 1 (λ _, 3%N) (λ _, 9%N)
            (add_trigger 7 5 (Some 1%N) gc_init) = Done g'
          ∧ semaphore_dependencies g' ≠ [].
Proof.
  split_and!.
  - apply (reach_exec 0 gc_init 0 (AddTrigger 7 5 (Some 1%N)));
      [constructor|done].
  - intros sem info t Hin Ht. simpl in Hin.
    apply list_elem_of_singleton in Hin as [= -> ->]. simpl in Ht.
    apply list_elem_of_singleton in Ht as ->. simpl. lia.
  - eexists. split; [by vm_compute|]. done.
Qed.

(** C6, amended. [wait_collect] runs [collect]; if a resource or a
    semaphore record is left it waits for the device and runs [collect]
    again. When the wait brings every semaphore to a value no pending
    trigger is above, [wait_collect] returns with every trigger fired:
    the semaphore records that are left are those that were never
    released, with empty queues, and the resource records that are left
    are not eligible, each held only by the [dependents] entries of
    records that are left as well. So the semaphore map is empty when
    every semaphore was released, and the resource map is empty when
    every resource was released, [nullptr] has no record and the declared
    dependencies have no cycle. *)
Theorem wait_collect_drains n g fuel dev dev_idle :
  reachable n g → (n ≤ SIZE_MAX)%N → enough_fuel g ≤ fuel →
  (∀ sem info t,
     (sem, info) ∈ semaphore_dependencies g → t ∈ triggers info →
     (value t ≤ dev_idle sem)%N) →
  ∃ g1 g',
    collect fuel dev g = Done g1
    ∧ wait_collect fuel dev dev_idle g = Done g'
    ∧ (if has_records g1
       then collect fuel dev_idle
              (emit EvUnlock (emit EvDeviceWaitIdle (emit EvLock g1)))
            = Done g'
       else g' = emit EvUnlock (emit EvLock g1))
    ∧ (∀ sem info,
         (sem, info) ∈ semaphore_dependencies g' →
         triggers info = [] ∧ should_destroy info = false
         ∧ ∃ info0, (sem, info0) ∈ semaphore_dependencies g
                    ∧ should_destroy info0 = false)
    ∧ ((∀ sem info, (sem, info) ∈ semaphore_dependencies g →
                    should_destroy info = true) →
       semaphore_dependencies g' = [])
    ∧ settled g'
    ∧ (∀ x, x ≠ nullptr →
            refcount g' x = occurrences x (pending [] (resources g')))
    ∧ (∀ rank : N → nat,
         (∀ x i, resources g !! x = Some i → is_Some (cleanup i)) →
         resources g !! nullptr = None →
         (∀ x i d, resources g !! x = Some i → d ∈ dependents i →
                   rank d < rank x) →
         resources g' = ∅).
Proof.
  intros Hr Hn Hfuel Hidle.
  pose proof (reachable_consistent n g Hr Hn) as Hg.
  destruct (wait_collect_trace fuel n g dev dev_idle Hg Hfuel)
    as (g1 & evs1 & Hrun1 & Hg1 & Hsem1 & _ & _ & Hrest).
  pose proof (collect_same fuel n g dev g1 Hg Hfuel Hrun1) as Hsame1.
  assert (∃ g', wait_collect fuel dev dev_idle g = Done g'
                ∧ consistent n g'
                ∧ (if has_records g1
                   then collect fuel dev_idle
                          (emit EvUnlock
                             (emit EvDeviceWaitIdle (emit EvLock g1)))
                        = Done g'
                   else g' = emit EvUnlock (emit EvLock g1))
                ∧ (∀ sem info,
                     (sem, info) ∈ semaphore_dependencies g' →
                     triggers info = [] ∧ should_destroy info = false
                     ∧ ∃ info0, (sem, info0) ∈ semaphore_dependencies g
                                ∧ should_destroy info0 = false)
                ∧ ∀ x i', resources g' !! x = Some i' →
                          ∃ i, resources g !! x = Some i
                               ∧ cleanup i' = cleanup i
                               ∧ dependents i' = dependents i)
    as (g' & Hrun & Hg' & Hstep & Hleft & Hsame).
  { destruct (has_records g1).
    - destruct Hrest as (g' & evs2 & Hrun & Hrun2 & Hg' & Hsem2 & _ & _).
      exists g'. split_and!; [done..| |].
      + intros sem info' Hin. rewrite Hsem2 in Hin.
        apply collect_result_elem_of in Hin
          as (info1 & Hin1 & Htr' & Hsd' & Hkeep).
        rewrite Hsem1 in Hin1.
        apply collect_result_elem_of in Hin1
          as (info0 & Hin0 & Htr1 & Hsd1 & _).
        assert (triggers info' = []) as Hnil.
        { rewrite Htr'. apply drop_ready_nil, Forall_forall. intros t Ht.
          apply (Hidle sem info0 t Hin0). rewrite Htr1 in Ht.
          by apply drop_ready_subseteq in Ht. }
        split_and!; [done|by apply Hkeep|].
        exists info0. split; [done|]. rewrite <-Hsd1, <-Hsd'. by apply Hkeep.
      + intros x i' Hx.
        assert (consistent n
                  (emit EvUnlock (emit EvDeviceWaitIdle (emit EvLock g1))))
          as Hg1' by (by repeat apply consistent_emit).
        assert (enough_fuel
                  (emit EvUnlock (emit EvDeviceWaitIdle (emit EvLock g1)))
                ≤ fuel) as Hf1'.
        { destruct (collect_consistent fuel n g dev Hg Hfuel)
            as (g1' & Hrun1' & _ & _ & Hle).
          rewrite Hrun1 in Hrun1'. injection Hrun1' as <-.
          change (enough_fuel g1 ≤ fuel). lia. }
        destruct (collect_same fuel n _ dev_idle g' Hg1' Hf1' Hrun2 x i' Hx)
          as (i1 & Hx1 & Hc1 & Hd1).
        destruct (Hsame1 x i1 Hx1) as (i & ? & ? & ?).
        exists i. split_and!; [done|congruence..].
    - destruct Hrest as (Hrun & Hres & Hsem).
      exists (emit EvUnlock (emit EvLock g1)). split_and!; [done| |done| |].
      + by repeat apply consistent_emit.
      + intros sem info Hin. simpl in Hin. rewrite Hsem in Hin.
        by apply elem_of_nil in Hin.
      + intros x i' Hx. by apply Hsame1. }
  assert (∀ x, x ≠ nullptr →
               refcount g' x = occurrences x (pending [] (resources g')))
    as Hheld.
  { intros x Hx. destruct (con_accounted _ _ Hg' x) as [H1 H2].
    specialize (H2 Hx). rewrite semaphore_edges_drained in H1, H2.
    - simpl in *. lia.
    - intros sem info Hin. by destruct (Hleft sem info Hin).
    - intros sem info Hin. by destruct (Hleft sem info Hin). }
  exists g1, g'. split_and!; try done.
  - intros Hall. destruct (semaphore_dependencies g') as [|[k i] l] eqn:Hl;
      [done|].
    destruct (Hleft k i) as (_ & _ & info0 & Hin0 & Hsd0); [by left|].
    rewrite (Hall k info0 Hin0) in Hsd0. done.
  - by destruct Hg'.
  - intros rank Hrel Hnull Hrank.
    apply (released_acyclic_empty g' rank); [by destruct Hg'|done|..].
    + destruct (resources g' !! nullptr) as [i'|] eqn:Hx; [|done].
      destruct (Hsame _ _ Hx) as (i & ? & _). congruence.
    + intros x i' Hx. destruct (Hsame _ _ Hx) as (i & Hi & Hc & _).
      rewrite Hc. by apply (Hrel x i).
    + intros x i' d Hx Hd. destruct (Hsame _ _ Hx) as (i & Hi & _ & Hdp).
      rewrite Hdp in Hd. by apply (Hrank x i d).
Qed.

(** C9, as stated, fails: [wait_collect] calls [vkDeviceWaitIdle] with
    the mutex held. *)
Lemma wait_collect_waits_with_lock_held :
  ∃ g', wait_collect 1 (λ _, 3%N) (λ _, 9%N)
          (add_trigger 7 5 (Some 1%N) gc_init) = Done g'
        ∧ ¬ waits_unlocked (trace g').
Proof.
  eexists. split; [by vm_compute|]. simpl. intros H.
  specialize (H [EvLock; EvUnlock; EvLock; EvGetSemaphoreCounterValue 7;
                 EvUnlock; EvLock]
                [EvUnlock; EvLock; EvGetSemaphoreCounterValue 7;
                 EvCallback 1; EvUnlock] eq_refl).
  done.
Qed.

(** C9, amended. [wait_collect] takes the mutex after its first
    [collect] has released it, calls [vkDeviceWaitIdle] while it holds
    the mutex, releases the mutex right after the wait has returned, and
    takes it again only in the second [collect], which releases it at its
    end. Without a record left there is no wait. *)
Theorem wait_collect_holds_lock_while_waiting n g fuel dev dev_idle :
  reachable n g → (n ≤ SIZE_MAX)%N → enough_fuel g ≤ fuel →
  ∃ g1 g',
    collect fuel dev g = Done g1
    ∧ wait_collect fuel dev dev_idle g = Done g'
    ∧ lock_held (trace g1) = false
    ∧ lock_held (trace g') = false
    ∧ if has_records g1
      then ∃ evs,
             trace g'
             = trace g1 ++ [EvLock; EvDeviceWaitIdle; EvUnlock] ++ evs
             ∧ lock_held (trace g1 ++ [EvLock]) = true
             ∧ lock_held (trace g1 ++ [EvLock; EvDeviceWaitIdle; EvUnlock])
               = false
             ∧ outer evs
               = EvLock
                   :: (semaphore_dependencies g1 ≫= counter_events dev_idle)
                   ++ [EvUnlock]
      else trace g' = trace g1 ++ [EvLock; EvUnlock].
Proof.
  intros Hr Hn Hfuel.
  pose proof (reachable_consistent n g Hr Hn) as Hg.
  destruct (wait_collect_trace fuel n g dev dev_idle Hg Hfuel)
    as (g1 & evs1 & Hrun1 & Hg1 & Hsem1 & Htr1 & Hout1 & Hrest).
  assert (∀ g0 g2, collect fuel dev_idle g0 = Done g2 ∨ collect fuel dev g0 = Done g2 →
                   lock_held (trace g2) = false) as Hend.
  { intros g0 g2 H. unfold collect in H.
    destruct H as [H|H];
      destruct (collect_loop _ _ _ _) as [[sems g3]| |]; try done;
      injection H as <-; simpl; by rewrite lock_held_app. }
  assert (lock_held (trace g1) = false) as Hfree by eauto.
  revert Hrest. destruct (has_records g1) eqn:Hrec; intros Hrest.
  - destruct Hrest as (g' & evs2 & Hrun & Hrun2 & _ & _ & Htr2 & Hout2).
    exists g1, g'. rewrite Hrec. split_and!; [done|done|done|by eauto|].
    exists evs2. split_and!; [done| | |done].
    + by rewrite lock_held_app.
    + change [EvLock; EvDeviceWaitIdle; EvUnlock]
        with ([EvLock; EvDeviceWaitIdle] ++ [EvUnlock]).
      by rewrite (assoc_L (++)), lock_held_app.
  - destruct Hrest as (Hrun & _ & _).
    exists g1, (emit EvUnlock (emit EvLock g1)). rewrite Hrec.
    split_and!; [done|done|done| |].
    + simpl. by rewrite lock_held_app.
    + simpl. by rewrite <-(assoc_L (++)).
Qed.

(** ** Example runs *)

Lemma run_reachable fuel ops :
  ∀ n g g', reachable n g → run fuel ops g = Done g' →
            reachable (n + registered_all ops) g'.
Proof.
  unfold run. induction ops as [|o ops IH]; intros n g g' Hr; simpl.
  - intros [= <-]. by rewrite N.add_0_r.
  - destruct (exec fuel o g) as [g1| |] eqn:Ho; try done. simpl.
    intros Hrun. rewrite N.add_assoc. apply (IH _ g1); [|done].
    by apply (reach_exec n g fuel o g1).
Qed.

Lemma example_chain_reachable : reachable 2 example_chain.
Proof.
  apply (run_reachable 3
           [Depend 1 2; Depend 2 3; Release 1 (Some 11%N); Release 2 (Some 12%N)]
           0 gc_init); [constructor|]. by vm_compute.
Qed.

Lemma example_semaphores_reachable : reachable 1 example_semaphores.
Proof.
  apply (run_reachable 3
           [DependSemaphore 1 7 5; Release 1 (Some 11%N);
            AddTrigger 7 3 (Some 21%N); AddTrigger 8 4 (Some 22%N);
            ReleaseSemaphore 8]
           0 gc_init); [constructor|]. by vm_compute.
Qed.

Lemma accounted_released K E g r c :
  accounted K E g → accounted K E (released r c g).
Proof.
  intros A. eapply (accounted_perm K K _ _ g); [| |exact A].
  - simpl. by rewrite pending_modify.
  - intros x. unfold released. rewrite refcount_modify. by case_decide; subst.
Qed.

Lemma small_bound (n : N) : (n < 2 ^ 32)%N → (n ≤ SIZE_MAX)%N.
Proof. unfold SIZE_MAX. intros H. assert (2 ^ 32 < 2 ^ 64)%N by done. lia. Qed.

Lemma check_delete_exactly_when_eligible_witness :
  accounted [] [] (released 3 (Some 13%N) example_chain)
  ∧ total [] [] (released 3 (Some 13%N) example_chain) < 3
  ∧ ∃ g', check_delete 3 3 (released 3 (Some 13%N) example_chain) = Done g'
          ∧ ∃ f evs,
              trace g'
              = trace (released 3 (Some 13%N) example_chain)
                  ++ EvCleanup 3 f :: evs
              ∧ cleanups_of 3 evs = 0
              ∧ resources g' !! 3%N = None.
Proof.
  assert (accounted [] [] (released 3 (Some 13%N) example_chain)) as Hacc.
  { apply accounted_released.
    apply (con_accounted 2 example_chain).
    apply reachable_consistent; [apply example_chain_reachable|].
    by apply small_bound. }
  assert (total [] [] (released 3 (Some 13%N) example_chain) < 3) as Htot.
  { vm_compute. lia. }
  split_and!; [done..|].
  destruct (proj1 check_delete_exactly_when_eligible 3 [] []
              (released 3 (Some 13%N) example_chain) 3%N
              {| dependency_count := 0; dependents := [2%N];
                 cleanup := Some 13%N |}
              Hacc ltac:(constructor) ltac:(apply not_elem_of_nil)
              ltac:(by vm_compute) Htot)
    as (g' & Hrun & f & evs & _ & _ & Htr & Hcl & Hgone).
  exists g'. split; [done|]. by exists f, evs.
Defined.

Lemma example_semaphores_fuel : enough_fuel example_semaphores ≤ 3.
Proof. vm_compute. lia. Qed.

Lemma collect_fires_ready_triggers_in_order_witness :
  reachable 1 example_semaphores ∧ (1 ≤ SIZE_MAX)%N
  ∧ enough_fuel example_semaphores ≤ 3
  ∧ ∃ g' evs,
      collect 3 (λ _, 4%N) example_semaphores = Done g'
      ∧ trace g' = trace example_semaphores ++ evs
      ∧ outer evs
        = EvLock
            :: (semaphore_dependencies example_semaphores
                  ≫= counter_events (λ _, 4%N))
            ++ [EvUnlock].
Proof.
  pose proof example_semaphores_reachable as Hr.
  assert (1 ≤ SIZE_MAX)%N as Hn by (by apply small_bound).
  pose proof example_semaphores_fuel as Hf.
  split_and!; [done..|].
  destruct (proj1 (proj2 (collect_fires_ready_triggers_in_order
                            1 example_semaphores Hr Hn))
              3 (λ _, 4%N) Hf) as (g' & evs & H1 & H2 & H3 & _).
  by exists g', evs.
Defined.

Lemma chain_release_cascades_witness :
  resources example_chain !! 1%N
  = Some {| dependency_count := 1; dependents := []; cleanup := Some 11%N |}
  ∧ resources example_chain !! 2%N
    = Some {| dependency_count := 1; dependents := [1%N];
              cleanup := Some 12%N |}
  ∧ resources example_chain !! 3%N
    = Some {| dependency_count := 0; dependents := [2%N]; cleanup := None |}
  ∧ 3 ≤ 3
  ∧ ∃ g', release 3 3 (Some 13%N) example_chain = Done g'
          ∧ trace g'
            = trace example_chain
                ++ [EvLock; EvCleanup 3 13; EvDecrement 2 1; EvCleanup 2 12;
                    EvDecrement 1 1; EvCleanup 1 11; EvUnlock]
          ∧ resources g'
            = delete 3%N (delete 2%N (delete 1%N (resources example_chain)))
          ∧ semaphore_dependencies g' = semaphore_dependencies example_chain.
Proof.
  assert (resources example_chain !! 1%N
          = Some {| dependency_count := 1; dependents := [];
                    cleanup := Some 11%N |}) as H1 by (by vm_compute).
  assert (resources example_chain !! 2%N
          = Some {| dependency_count := 1; dependents := [1%N];
                    cleanup := Some 12%N |}) as H2 by (by vm_compute).
  assert (resources example_chain !! 3%N
          = Some {| dependency_count := 0; dependents := [2%N];
                    cleanup := None |}) as H3 by (by vm_compute).
  split_and!; [done..|].
  exact (chain_release_cascades 3 example_chain 1 2 3 11 12 13 None
           H1 H2 H3 (le_n 3)).
Defined.

Lemma semaphore_destroyed_iff_drained_and_marked_witness :
  reachable 1 example_semaphores ∧ (1 ≤ SIZE_MAX)%N
  ∧ enough_fuel example_semaphores ≤ 3
  ∧ ∃ g' evs,
      collect 3 (λ _, 9%N) example_semaphores = Done g'
      ∧ trace g' = trace example_semaphores ++ evs
      ∧ (8%N ∉ (semaphore_dependencies g').*1)
      ∧ EvDestroySemaphore 8 ∈ evs.
Proof.
  pose proof example_semaphores_reachable as Hr.
  assert (1 ≤ SIZE_MAX)%N as Hn by (by apply small_bound).
  pose proof example_semaphores_fuel as Hf.
  split_and!; [done..|].
  destruct (proj2 (semaphore_destroyed_iff_drained_and_marked
                     1 example_semaphores Hr Hn)
              3 (λ _, 9%N) Hf) as (g' & evs & H1 & H2 & H3).
  exists g', evs. split_and!; [done..| |].
  - apply (H3 8%N {| triggers := [{| value := 4; dependent := nullptr;
                                     callback := Some 22%N |}];
                     should_destroy := true |}).
    vm_compute. right. left.
  - apply (H3 8%N {| triggers := [{| value := 4; dependent := nullptr;
                                     callback := Some 22%N |}];
                     should_destroy := true |}).
    vm_compute. right. left.
Defined.

Lemma collect_fires_each_trigger_once_witness :
  ∃ g1 g2 g3,
    collect 0 (λ _, 3%N) (add_trigger 7 5 (Some 1%N) gc_init) = Done g1
    ∧ callbacks_of (trace g1) = callbacks_of (trace gc_init)
    ∧ collect 0 (λ _, 5%N) g1 = Done g2
    ∧ callbacks_of (trace g2) = callbacks_of (trace gc_init) ++ [1%N]
    ∧ collect_many 0 [λ _, 5%N; λ _, 6%N] g2 = Done g3
    ∧ callbacks_of (trace g3) = callbacks_of (trace g2).
Proof.
  exact (proj2 (proj2 collect_fires_each_trigger_once)
           0 7%N 1%N (λ _, 3%N) (λ _, 5%N) [λ _, 5%N; λ _, 6%N] gc_init
           eq_refl eq_refl eq_refl).
Defined.

Lemma example_released_reachable : reachable 1 example_released.
Proof.
  apply (reach_exec 1 example_semaphores 0 (ReleaseSemaphore 7));
    [apply example_semaphores_reachable|done].
Qed.

Lemma example_released_facts :
  enough_fuel example_released ≤ 3
  ∧ resources example_released
    = {[ 1%N := {| dependency_count := 1; dependents := [];
                   cleanup := Some 11%N |} ]}
  ∧ Forall (λ kv, should_destroy kv.2 = true
                  ∧ Forall (λ t, (value t ≤ 9)%N) (triggers kv.2))
      (semaphore_dependencies example_released).
Proof.
  split_and!.
  - vm_compute. lia.
  - by vm_compute.
  - vm_compute. repeat constructor; discriminate.
Qed.

Lemma wait_collect_drains_witness :
  reachable 1 example_released ∧ (1 ≤ SIZE_MAX)%N
  ∧ enough_fuel example_released ≤ 3
  ∧ (∀ sem info t,
       (sem, info) ∈ semaphore_dependencies example_released →
       t ∈ triggers info → (value t ≤ 9)%N)
  ∧ ∃ g', wait_collect 3 (λ _, 3%N) (λ _, 9%N) example_released = Done g'
          ∧ semaphore_dependencies g' = []
          ∧ resources g' = ∅.
Proof.
  pose proof example_released_reachable as Hr.
  assert (1 ≤ SIZE_MAX)%N as Hn by (by apply small_bound).
  destruct example_released_facts as (Hf & Hm & Hs).
  rewrite Forall_forall in Hs.
  assert (∀ sem info t,
            (sem, info) ∈ semaphore_dependencies example_released →
            t ∈ triggers info → (value t ≤ 9)%N) as Hi.
  { intros sem info t Hin Ht. destruct (Hs _ Hin) as [_ Hv].
    rewrite Forall_forall in Hv. by apply Hv. }
  split_and!; [done..|].
  destruct (wait_collect_drains 1 example_released 3 (λ _, 3%N) (λ _, 9%N)
              Hr Hn Hf Hi)
    as (g1 & g' & _ & Hrun & _ & _ & Hsems & _ & _ & Hres).
  exists g'. split_and!; [done| |].
  - apply Hsems. intros sem info Hin. by destruct (Hs _ Hin).
  - apply (Hres (λ _, 0)); rewrite Hm.
    + intros x i [<- <-]%lookup_singleton_Some. by eexists.
    + by apply lookup_singleton_ne.
    + intros x i d [<- <-]%lookup_singleton_Some Hd.
      by apply elem_of_nil in Hd.
Defined.

Lemma dependency_count_never_wraps_witness :
  reachable 2 example_chain ∧ (2 ≤ SIZE_MAX)%N
  ∧ (∀ r c, EvDecrement r c ∈ trace example_chain → (0 < c)%N)
  ∧ ∀ r, r ≠ nullptr →
         refcount example_chain r
         = occurrences r
             (semaphore_edges (semaphore_dependencies example_chain)
                ++ pending [] (resources example_chain)).
Proof.
  pose proof example_chain_reachable as Hr.
  assert (2 ≤ SIZE_MAX)%N as Hn by (by apply small_bound).
  split_and!; [done..| |].
  - exact (proj1 (dependency_count_never_wraps 2 example_chain Hr Hn)).
  - exact (proj1 (proj2 (dependency_count_never_wraps 2 example_chain Hr Hn))).
Defined.

Lemma wait_collect_holds_lock_while_waiting_witness :
  reachable 1 example_semaphores ∧ (1 ≤ SIZE_MAX)%N
  ∧ enough_fuel example_semaphores ≤ 3
  ∧ ∃ g1 g',
      collect 3 (λ _, 3%N) example_semaphores = Done g1
      ∧ wait_collect 3 (λ _, 3%N) (λ _, 9%N) example_semaphores = Done g'
      ∧ lock_held (trace g1) = false
      ∧ lock_held (trace g') = false.
Proof.
  pose proof example_semaphores_reachable as Hr.
  assert (1 ≤ SIZE_MAX)%N as Hn by (by apply small_bound).
  pose proof example_semaphores_fuel as Hf.
  split_and!; [done..|].
  destruct (wait_collect_holds_lock_while_waiting
              1 example_semaphores 3 (λ _, 3%N) (λ _, 9%N) Hr Hn Hf)
    as (g1 & g' & H1 & H2 & H3 & H4 & _).
  by exists g1, g'.
Defined.

Lemma check_delete_lookup_never_fails_witness :
  is_Some (resources example_chain !! 3%N)
  ∧ check_delete 3 3 example_chain ≠ Undefined
  ∧ release 3 3 (Some 13%N) example_chain ≠ Undefined.
Proof.
  assert (is_Some (resources example_chain !! 3%N)) as H.
  { eexists. by vm_compute. }
  split_and!; [done| |].
  - exact (proj1 (proj2 check_delete_lookup_never_fails) 3 3%N example_chain H).
  - exact (proj2 (proj2 (proj2 check_delete_lookup_never_fails))
             3 (Release 3 (Some 13%N)) example_chain).
Defined.

(** * Further properties of the operations *)

(** ** What a record uses is alive *)

Section liveness.
Implicit Types (g : garbage_collector).

Lemma elem_of_pending (m : gmap N dependency_info) x i d :
  m !! x = Some i → d ∈ dependents i → d ∈ pending [] m.
Proof.
  intros Hx Hd. unfold pending. apply list_elem_of_bind.
  exists (x, i). split; [|by apply elem_of_map_to_list].
  unfold edges_from. simpl. done.
Qed.

Lemma consistent_edge_target n g x i d :
  consistent n g → resources g !! x = Some i → d ∈ dependents i →
  ∃ j, resources g !! d = Some j ∧ (0 < dependency_count j)%N
       ∧ is_eligible j = false.
Proof.
  intros Hg Hx Hd. destruct (con_accounted _ _ Hg d) as [H1 _].
  pose proof (occurrences_elem_of d _ (elem_of_pending _ x i d Hx Hd)) as Hp.
  rewrite occurrences_app in H1.
  assert (0 < refcount g d)%N as Hpos by lia.
  destruct (refcount_positive_present g d Hpos) as [j Hj].
  exists j. rewrite (refcount_present g d j Hj) in Hpos.
  split_and!; [done..|]. by apply (con_settled _ _ Hg d).
Qed.
End liveness.

(** X1. In every reachable state, a resource that some record has
    among its [dependents] has a record of its own, with a positive
    [dependency_count] and hence not eligible: what a resource still in
    the map uses has not been deleted. *)
Theorem used_resource_outlives_user n g :
  reachable n g → (n ≤ SIZE_MAX)%N →
  ∀ user i used,
    resources g !! user = Some i → used ∈ dependents i →
    ∃ j, resources g !! used = Some j ∧ (0 < dependency_count j)%N
         ∧ is_eligible j = false.
Proof.
  intros Hr Hn user i used. apply (consistent_edge_target n).
  by apply reachable_consistent.
Qed.

(** X2. Every public operation returns on every reachable state,
    whatever the dependencies are, cycles included: the recursion of
    [check_delete] needs a depth of at most one more than the number of
    pending edges ([dependents] entries and triggers with a dependent). *)
Theorem operations_return n g o fuel :
  reachable n g → (n + registered o ≤ SIZE_MAX)%N →
  length (semaphore_edges (semaphore_dependencies g))
    + length (pending [] (resources g)) < fuel →
  ∃ g', exec fuel o g = Done g' ∧ reachable (n + registered o) g'.
Proof.
  intros Hr Hn Hfuel.
  destruct (exec_consistent fuel n o g) as (g' & Hrun & _); [|done| |].
  - apply reachable_consistent; [done|lia].
  - unfold enough_fuel, total. rewrite length_app. lia.
  - exists g'. split; [done|]. by apply (reach_exec n g fuel).
Qed.

(** ** [release] at the edges *)

Section release_edges.
Implicit Types (g : garbage_collector).

Lemma release_stores fuel r c g :
  is_eligible (set_cleanup c (resources_index r (resources g))) = false →
  release (S fuel) r c g = Done (emit EvUnlock (released r c g)).
Proof.
  intros He. unfold release.
  change (with_resources _ (emit EvLock g)) with (released r c g).
  simpl. rewrite lookup_modify_eq. unfold is_eligible in He. simpl in *.
  destruct (dependency_count _ =? 0)%N; [|done].
  by destruct c.
Qed.
End release_edges.

(** X3. [release] of a resource the map has no record of, with a
    non-empty cleanup, invokes the cleanup at once and leaves the maps
    as they were: no record of the resource is left. *)
Theorem release_of_unknown_resource fuel r f g :
  resources g !! r = None →
  release (S fuel) r (Some f) g
  = Done (emit EvUnlock (emit (EvCleanup r f) (emit EvLock g))).
Proof.
  intros Hr. unfold release. simpl. rewrite lookup_modify_eq.
  unfold resources_index. rewrite Hr. simpl.
  unfold with_resources, emit. simpl.
  unfold resources_modify. rewrite delete_insert_id by done.
  by destruct g.
Qed.

(** X4. [release] of a resource whose count is positive only stores
    the cleanup and invokes nothing; a second [release] replaces the
    stored cleanup, and the first one is dropped without being invoked. *)
Theorem release_replaces_cleanup_of_blocked_resource fuel fuel' r c c' g i :
  resources g !! r = Some i → (0 < dependency_count i)%N →
  ∃ g1 g2,
    release (S fuel) r c g = Done g1
    ∧ resources g1 = <[r := set_cleanup c i]> (resources g)
    ∧ trace g1 = trace g ++ [EvLock; EvUnlock]
    ∧ release (S fuel') r c' g1 = Done g2
    ∧ resources g2 = <[r := set_cleanup c' i]> (resources g)
    ∧ trace g2 = trace g ++ [EvLock; EvUnlock; EvLock; EvUnlock].
Proof.
  intros Hr Hpos.
  assert (∀ c0 i0, dependency_count i0 = dependency_count i →
                   is_eligible (set_cleanup c0 i0) = false) as Hne.
  { intros c0 i0 Hc. unfold is_eligible. simpl. rewrite Hc.
    destruct (N.eqb_spec (dependency_count i) 0); [lia|done]. }
  exists (emit EvUnlock (released r c g)),
         (emit EvUnlock (released r c' (emit EvUnlock (released r c g)))).
  assert (resources (released r c g) = <[r := set_cleanup c i]> (resources g))
    as Hm1.
  { unfold released, resources_modify, resources_index. simpl. by rewrite Hr. }
  split_and!.
  - apply release_stores. unfold resources_index. rewrite Hr. by apply Hne.
  - done.
  - simpl. by rewrite <-(assoc_L (++)).
  - apply release_stores.
    change (resources (emit EvUnlock (released r c g)))
      with (resources (released r c g)).
    rewrite Hm1. unfold resources_index. rewrite lookup_insert_eq. simpl.
    by apply Hne.
  - change (resources_modify r (set_cleanup c')
              (resources (released r c g))
            = <[r:=set_cleanup c' i]> (resources g)).
    rewrite Hm1.
    unfold resources_modify, resources_index. rewrite lookup_insert_eq. simpl.
    by rewrite insert_insert_eq.
  - simpl. by rewrite <-!(assoc_L (++)).
Qed.

(** X5. [release] with an empty [std::function] deletes nothing and
    invokes nothing, whatever the count: the record stays, or is
    created, with no cleanup, also when a cleanup was stored before. *)
Theorem release_with_empty_cleanup_keeps_record fuel r g :
  ∃ g',
    release (S fuel) r None g = Done g'
    ∧ resources g'
      = <[r := set_cleanup None (resources_index r (resources g))]>
          (resources g)
    ∧ semaphore_dependencies g' = semaphore_dependencies g
    ∧ trace g' = trace g ++ [EvLock; EvUnlock].
Proof.
  exists (emit EvUnlock (released r None g)). split_and!.
  - apply release_stores. unfold is_eligible. simpl.
    by destruct (_ =? _)%N.
  - done.
  - done.
  - simpl. by rewrite <-(assoc_L (++)).
Qed.

(** ** Registering an edge and resolving it *)

Section round_trips.
Implicit Types (g : garbage_collector).

Lemma index_not_eligible n g x :
  consistent n g → is_eligible (resources_index x (resources g)) = false.
Proof.
  intros Hg. unfold resources_index.
  destruct (resources g !! x) as [i|] eqn:Hx; simpl; [|done].
  by apply (con_settled _ _ Hg x).
Qed.

Lemma check_delete_blocked fuel r g it :
  resources g !! r = Some it → is_eligible it = false →
  check_delete (S fuel) r g = Done g.
Proof.
  intros Hit He. simpl. rewrite Hit. unfold is_eligible in He.
  destruct (dependency_count it =? 0)%N; [|done]. by destruct (cleanup it).
Qed.

Lemma incr_decr c : (c < SIZE_MAX)%N → size_decr (size_incr c) = c.
Proof.
  intros H. unfold size_incr, size_decr.
  destruct (N.eqb_spec c SIZE_MAX); [lia|].
  destruct (N.eqb_spec (c + 1) 0); lia.
Qed.

Lemma depend_resources used user g :
  resources (depend used user g)
  = resources_modify used (set_count size_incr)
      (resources_modify user (append_dependents [used]) (resources g)).
Proof. done. Qed.
End round_trips.

(** X6. [depend(used, user)] on a [user] without a record, then
    [release(user, f)]: the cleanup of [user] runs, the count of [used]
    goes up by one and down by one, and the resource map is as it was
    before the two calls, up to a value-initialised record for [used]
    when it had none. *)
Theorem depend_then_release_restores n g fuel used user f :
  reachable n g → (n < SIZE_MAX)%N →
  resources g !! user = None → used ≠ user →
  ∃ g',
    release (S (S fuel)) user (Some f) (depend used user g) = Done g'
    ∧ resources g'
      = <[used := resources_index used (resources g)]> (resources g)
    ∧ semaphore_dependencies g' = semaphore_dependencies g
    ∧ trace g'
      = trace g ++ [EvLock; EvUnlock; EvLock; EvCleanup user f;
                    EvDecrement used (refcount g used + 1); EvUnlock].
Proof.
  intros Hr Hn Huser Hne.
  assert (consistent n g) as Hg by (apply reachable_consistent; [done|lia]).
  set (i0 := resources_index used (resources g)).
  assert (dependency_count i0 < SIZE_MAX)%N as Hc.
  { pose proof (con_bound _ _ Hg used) as Hb. unfold refcount in Hb.
    fold i0 in Hb. lia. }
  assert (is_eligible i0 = false) as He0
    by apply (index_not_eligible n g used Hg).
  set (gd := depend used user g).
  assert (resources gd
          = <[used := set_count size_incr i0]>
              (<[user := {| dependency_count := 0; dependents := [used];
                            cleanup := None |}]> (resources g))) as Hmd.
  { subst gd. rewrite depend_resources.
    unfold resources_modify at 1. rewrite index_modify, decide_False by done.
    unfold resources_modify, resources_index at 2. by rewrite Huser. }
  assert (trace gd = trace g ++ [EvLock; EvUnlock]
          ∧ semaphore_dependencies gd = semaphore_dependencies g)
    as [Htd Hsd].
  { subst gd. unfold depend, depend_many. simpl.
    by rewrite <-(assoc_L (++)). }
  clearbody gd.
  unfold release.
  change (with_resources _ (emit EvLock gd)) with (released user (Some f) gd).
  set (g1 := released user (Some f) gd).
  assert (resources g1
          = <[user := {| dependency_count := 0; dependents := [used];
                         cleanup := Some f |}]>
              (<[used := set_count size_incr i0]> (resources g))
          ∧ trace g1 = trace g ++ [EvLock; EvUnlock; EvLock]
          ∧ semaphore_dependencies g1 = semaphore_dependencies g)
    as (Hm1 & Ht1 & Hs1).
  { subst g1. unfold released. simpl. rewrite Htd, Hsd, <-(assoc_L (++)).
    split_and!; [|done..].
    unfold resources_modify, resources_index. rewrite Hmd.
    rewrite lookup_insert_ne, lookup_insert_eq by done. simpl.
    rewrite (insert_insert_ne _ used user) by done.
    by rewrite insert_insert_eq. }
  clearbody g1.
  assert (resources g1 !! user
          = Some {| dependency_count := 0; dependents := [used];
                    cleanup := Some f |}) as Hu1.
  { by rewrite Hm1, lookup_insert_eq. }
  rewrite (check_delete_eligible _ user g1 _ f Hu1) by done.
  cbn [dependents for_each].
  assert (resources (emit (EvCleanup user f) g1) !! used
          = Some (set_count size_incr i0)) as Hu2.
  { simpl. by rewrite Hm1, lookup_insert_ne, lookup_insert_eq. }
  destruct (decrement_lookup_eq used _ _ Hu2) as [Hu3 Ht3].
  set (g2 := decrement used (emit (EvCleanup user f) g1)) in *.
  assert (resources g2
          = <[used := i0]> (resources g1)
          ∧ semaphore_dependencies g2 = semaphore_dependencies g1)
    as (Hm2 & Hs2).
  { subst g2. unfold decrement, resources_modify, resources_index. simpl.
    simpl in Hu2. rewrite Hu2. simpl. unfold set_count. simpl.
    rewrite incr_decr by done. by destruct i0. }
  assert (resources g2 !! used = Some i0) as Hu4.
  { by rewrite Hm2, lookup_insert_eq. }
  clearbody g2.
  rewrite (check_delete_blocked _ used g2 i0 Hu4 He0).
  cbn [outcome_bind]. eexists. split; [done|]. split_and!.
  - simpl. rewrite Hm2, Hm1. apply map_eq. intros x.
    destruct (decide (x = user)) as [->|Hxu].
    + rewrite lookup_delete_eq, lookup_insert_ne by done. by rewrite Huser.
    + rewrite lookup_delete_ne by done.
      destruct (decide (x = used)) as [->|Hxd].
      * by rewrite !lookup_insert_eq.
      * by rewrite !lookup_insert_ne.
  - simpl. by rewrite Hs2, Hs1.
  - simpl. rewrite Ht3. simpl. rewrite Ht1.
    rewrite <-!(assoc_L (++)). simpl. do 5 f_equal.
    unfold refcount. fold i0. unfold size_incr.
    destruct (N.eqb_spec (dependency_count i0) SIZE_MAX); [lia|done].
Qed.

(** ** [depend_many] and [depend] *)

Section depend_many_facts.
Implicit Types (g : garbage_collector) (m : gmap N dependency_info).

Lemma resources_modify_comm r r' f f' m :
  (∀ i, f (f' i) = f' (f i)) →
  resources_modify r f (resources_modify r' f' m)
  = resources_modify r' f' (resources_modify r f m).
Proof.
  intros H. unfold resources_modify at 1 3. rewrite !index_modify.
  unfold resources_modify. destruct (decide (r = r')) as [->|Hne].
  - rewrite !decide_True by done. by rewrite !insert_insert_eq, H.
  - rewrite !decide_False by done. by apply insert_insert_ne.
Qed.

Lemma resources_modify_twice r f f' m :
  resources_modify r f (resources_modify r f' m)
  = resources_modify r (f ∘ f') m.
Proof.
  unfold resources_modify at 1. rewrite index_modify, decide_True by done.
  unfold resources_modify. by rewrite insert_insert_eq.
Qed.

Lemma increments_resources l :
  ∀ g, resources (foldl (λ g used, increment used g) g l)
       = foldl (λ m used, resources_modify used (set_count size_incr) m)
           (resources g) l.
Proof. induction l as [|d l IH]; intros g; simpl; [done|]. by rewrite IH. Qed.

Lemma increments_append l l' user :
  ∀ m, foldl (λ m used, resources_modify used (set_count size_incr) m)
         (resources_modify user (append_dependents l') m) l
       = resources_modify user (append_dependents l')
           (foldl (λ m used, resources_modify used (set_count size_incr) m)
              m l).
Proof.
  induction l as [|d l IH]; intros m; simpl; [done|].
  by rewrite <-IH, (resources_modify_comm d user).
Qed.

Lemma depend_many_resources l user g :
  resources (depend_many l user g)
  = foldl (λ m used, resources_modify used (set_count size_incr) m)
      (resources_modify user (append_dependents l) (resources g)) l.
Proof. unfold depend_many. simpl. by rewrite increments_resources. Qed.

Lemma depend_many_app l1 l2 user g :
  resources (depend_many (l1 ++ l2) user g)
  = resources (depend_many l2 user (depend_many l1 user g)).
Proof.
  rewrite !depend_many_resources, foldl_app, !increments_append.
  rewrite resources_modify_twice.
  unfold resources_modify. f_equal.
  unfold append_dependents. simpl. by rewrite (assoc_L (++)).
Qed.

Lemma depend_fold_semaphores l user :
  ∀ g, semaphore_dependencies (foldl (λ g x, depend x user g) g l)
       = semaphore_dependencies g.
Proof.
  induction l as [|d l IH]; intros g; simpl; [done|]. by rewrite IH.
Qed.

Lemma depend_many_fold l user :
  ∀ u g, resources (depend_many (u :: l) user g)
         = resources (foldl (λ g x, depend x user g) g (u :: l)).
Proof.
  induction l as [|u' l IH]; intros u g; [done|].
  rewrite (depend_many_app [u] (u' :: l)). by rewrite IH.
Qed.
End depend_many_facts.

(** X7. [depend_many] on a non-empty array leaves the same maps as
    one [depend] per entry, in order; on an empty array it still creates
    the record of the user. *)
Theorem depend_many_is_repeated_depend u used user g :
  resources (depend_many (u :: used) user g)
  = resources (foldl (λ g x, depend x user g) g (u :: used))
  ∧ semaphore_dependencies (depend_many (u :: used) user g)
    = semaphore_dependencies (foldl (λ g x, depend x user g) g (u :: used))
  ∧ resources (depend_many [] user g)
    = <[user := resources_index user (resources g)]> (resources g).
Proof.
  split_and!.
  - apply depend_many_fold.
  - rewrite depend_fold_semaphores. unfold depend_many.
    generalize (u :: used). intros l. simpl.
    assert (∀ g0, semaphore_dependencies
                    (foldl (λ g x, increment x g) g0 l)
                  = semaphore_dependencies g0) as H.
    { induction l as [|d l IH]; intros g0; simpl; [done|]. by rewrite IH. }
    by rewrite H.
  - rewrite depend_many_resources. simpl. unfold resources_modify. f_equal.
    unfold append_dependents. rewrite (right_id_L [] (++)).
    by destruct (resources_index user (resources g)).
Qed.

(** ** [collect], twice *)

Section collect_twice.
Implicit Types (g : garbage_collector) (l : list (N * semaphore_info)).

Lemma collect_loop_result fuel dev l :
  ∀ g l' g', collect_loop fuel dev l g = Done (l', g') →
             l' = collect_result dev l.
Proof.
  induction l as [|[sem info] rest IH]; intros g l' g'; simpl.
  - by intros [= <- _].
  - rewrite drain_split.
    destruct (for_each _ _ _) as [g1| |]; simpl; try done.
    destruct (drop_ready (dev sem) (triggers info)) as [|t q];
      [destruct (should_destroy info)|].
    + apply IH.
    + destruct (collect_loop fuel dev rest g1) as [[rest' g2]| |] eqn:Hl;
        simpl; try done.
      intros [= <- _]. by rewrite (IH _ _ _ Hl).
    + destruct (collect_loop fuel dev rest g1) as [[rest' g2]| |] eqn:Hl;
        simpl; try done.
      intros [= <- _]. by rewrite (IH _ _ _ Hl).
Qed.

Lemma drain_waiting fuel v q g :
  drain fuel v (drop_ready v q) g = Done (drop_ready v q, g).
Proof.
  induction q as [|t q IH]; simpl; [done|].
  destruct (value t <=? v)%N eqn:Hv; [done|]. simpl. by rewrite Hv.
Qed.

Lemma collect_loop_settled fuel dev l :
  ∀ g, collect_loop fuel dev (collect_result dev l) g
       = Done (collect_result dev l,
               foldl (λ g kv, emit (EvGetSemaphoreCounterValue kv.1) g) g
                 (collect_result dev l)).
Proof.
  induction l as [|[sem info] rest IH]; intros g; simpl; [done|].
  pose proof (drain_waiting fuel (dev sem) (triggers info)
                (emit (EvGetSemaphoreCounterValue sem) g)) as Hw.
  destruct (drop_ready (dev sem) (triggers info)) as [|t q] eqn:Hd;
    [destruct (should_destroy info) eqn:Hsd|]; [done|..];
    cbn [collect_loop triggers should_destroy fst snd foldl];
    rewrite Hw; simpl; by rewrite IH.
Qed.

Lemma polls_trace l :
  ∀ g, trace (foldl (λ g kv, emit (EvGetSemaphoreCounterValue kv.1) g) g l)
       = trace g ++ ((λ kv, EvGetSemaphoreCounterValue kv.1) <$> l)
       ∧ resources
           (foldl (λ g kv, emit (EvGetSemaphoreCounterValue kv.1) g) g l)
         = resources g.
Proof.
  induction l as [|kv l IH]; intros g; csimpl.
  - by rewrite (right_id_L [] (++)).
  - destruct (IH (emit (EvGetSemaphoreCounterValue kv.1) g)) as [-> ->].
    simpl. by rewrite <-(assoc_L (++)).
Qed.
End collect_twice.

(** X8. A second [collect] that finds the semaphores at the values
    the first one found only takes the mutex and polls the semaphores
    that are left: it changes neither map, fires no trigger and destroys
    no semaphore. *)
Theorem collect_again_only_polls fuel fuel' dev g g1 :
  collect fuel dev g = Done g1 →
  ∃ g2,
    collect fuel' dev g1 = Done g2
    ∧ resources g2 = resources g1
    ∧ semaphore_dependencies g2 = semaphore_dependencies g1
    ∧ trace g2
      = trace g1
          ++ EvLock
             :: ((λ kv, EvGetSemaphoreCounterValue kv.1)
                   <$> semaphore_dependencies g1)
          ++ [EvUnlock].
Proof.
  unfold collect at 1.
  destruct (collect_loop fuel dev _ _) as [[l' g0]| |] eqn:Hl; simpl; try done.
  intros [= <-]. apply collect_loop_result in Hl. subst l'. simpl.
  unfold collect. simpl. rewrite collect_loop_settled. simpl.
  eexists. split; [done|].
  set (l := collect_result dev (semaphore_dependencies g)).
  destruct (polls_trace l (emit EvLock (emit EvUnlock (with_semaphores l g0))))
    as [Ht Hm].
  split_and!.
  - simpl. by rewrite Hm.
  - done.
  - simpl. rewrite Ht. simpl. by rewrite <-!(assoc_L (++)).
Qed.

(** ** The mutex *)

Section mutex.
Implicit Types (g : garbage_collector) (evs : list event).

Lemma lock_state_app h (e1 e2 : list event) :
  lock_state h (e1 ++ e2) = lock_state h e1 ≫= λ h', lock_state h' e2.
Proof.
  revert h. induction e1 as [|e e1 IH]; intros h; [done|].
  destruct e, h; simpl; try done; apply IH.
Qed.

Lemma lock_state_locked evs :
  Forall (λ e, lock_state true [e] = Some true) evs →
  lock_state true evs = Some true.
Proof.
  induction 1 as [|e evs He _ IH]; [done|].
  destruct e; simpl in *; done.
Qed.

Lemma runs_locked_refl g : runs_locked g g.
Proof. exists []. by rewrite (right_id_L [] (++)). Qed.

Lemma runs_locked_trans g1 g2 g3 :
  runs_locked g1 g2 → runs_locked g2 g3 → runs_locked g1 g3.
Proof.
  intros (e1 & H1 & F1) (e2 & H2 & F2). exists (e1 ++ e2). split.
  - by rewrite H2, H1, (assoc_L (++)).
  - by apply Forall_app.
Qed.

Lemma runs_locked_emit g e :
  lock_state true [e] = Some true → runs_locked g (emit e g).
Proof. intros H. exists [e]. split; [done|by constructor]. Qed.

Lemma runs_locked_same g g' : trace g' = trace g → runs_locked g g'.
Proof. intros H. exists []. by rewrite (right_id_L [] (++)). Qed.

Lemma check_delete_locked fuel r g g' :
  check_delete fuel r g = Done g' → runs_locked g g'.
Proof.
  apply (check_delete_rel runs_locked).
  - apply runs_locked_refl.
  - apply runs_locked_trans.
  - intros g0 r0 f. by apply runs_locked_emit.
  - intros g0 d. unfold decrement. eexists [_]. split; [done|by constructor].
  - intros g0 r0. by apply runs_locked_same.
Qed.

Lemma fire_locked fuel t g g' : fire fuel t g = Done g' → runs_locked g g'.
Proof.
  unfold fire. intros H.
  assert (runs_locked g (match callback t with
                         | Some f => emit (EvCallback f) g
                         | None => g
                         end)) as H0.
  { destruct (callback t); [by apply runs_locked_emit|apply runs_locked_refl]. }
  destruct (dependent t =? nullptr)%N.
  - by injection H as <-.
  - eapply runs_locked_trans; [exact H0|].
    eapply runs_locked_trans; [|by eapply check_delete_locked].
    unfold decrement. eexists [_]. split; [done|by constructor].
Qed.

Lemma drain_locked fuel v q :
  ∀ g q' g', drain fuel v q g = Done (q', g') → runs_locked g g'.
Proof.
  induction q as [|t q IH]; intros g q' g'; simpl.
  - intros [= _ <-]. apply runs_locked_refl.
  - destruct (value t <=? v)%N; [|intros [= _ <-]; apply runs_locked_refl].
    destruct (fire fuel t g) as [g1| |] eqn:Hf; simpl; try done.
    intros H. eapply runs_locked_trans; [by eapply fire_locked|by eapply IH].
Qed.

Lemma collect_loop_locked fuel dev sems :
  ∀ g sems' g', collect_loop fuel dev sems g = Done (sems', g') →
                runs_locked g g'.
Proof.
  induction sems as [|[sem info] rest IH]; intros g sems' g'; simpl.
  - intros [= _ <-]. apply runs_locked_refl.
  - destruct (drain _ _ _ _) as [[q g1]| |] eqn:Hd; simpl; try done.
    apply drain_locked in Hd.
    assert (runs_locked g g1) as H1.
    { eapply runs_locked_trans; [|exact Hd]. by apply runs_locked_emit. }
    assert (∀ g2, runs_locked g1 g2 →
                  ('(rest', g3) ←← collect_loop fuel dev rest g2;
                   Done ((sem, {| triggers := q;
                                  should_destroy := should_destroy info |})
                           :: rest', g3)) = Done (sems', g') →
                  runs_locked g g') as Hkeep.
    { intros g2 H2.
      destruct (collect_loop fuel dev rest g2) as [[rest' g3]| |] eqn:Hl;
        simpl; try done.
      intros [= _ <-]. eapply runs_locked_trans; [exact H1|].
      eapply runs_locked_trans; [exact H2|by eapply IH]. }
    destruct q as [|t q]; [destruct (should_destroy info)|].
    + intros Hl. eapply runs_locked_trans; [exact H1|].
      eapply runs_locked_trans; [|by eapply IH]. by apply runs_locked_emit.
    + apply Hkeep, runs_locked_refl.
    + apply Hkeep, runs_locked_refl.
Qed.

Lemma lock_state_section g g' :
  lock_state false (trace g) = Some false →
  runs_locked (emit EvLock g) g' →
  lock_state false (trace g' ++ [EvUnlock]) = Some false.
Proof.
  intros H0 (e & He & Hf). rewrite He. simpl.
  rewrite <-!(assoc_L (++)), !lock_state_app, H0. simpl.
  by rewrite lock_state_app, (lock_state_locked e Hf).
Qed.

Lemma collect_mutex fuel dev g g' :
  lock_state false (trace g) = Some false →
  collect fuel dev g = Done g' → lock_state false (trace g') = Some false.
Proof.
  intros H0. unfold collect.
  destruct (collect_loop _ _ _ _) as [[sems g1]| |] eqn:Hl; simpl; try done.
  intros [= <-]. simpl. apply (lock_state_section g g1); [done|].
  by eapply collect_loop_locked.
Qed.

Lemma increments_trace l :
  ∀ g, trace (foldl (λ g used, increment used g) g l) = trace g.
Proof. induction l as [|d l IH]; intros g; simpl; [done|]. by rewrite IH. Qed.

Lemma exec_mutex fuel o g g' :
  lock_state false (trace g) = Some false →
  exec fuel o g = Done g' → lock_state false (trace g') = Some false.
Proof.
  intros H0.
  assert (lock_state false (trace g ++ [EvLock; EvUnlock]) = Some false)
    as Hpair.
  { by rewrite lock_state_app, H0. }
  destruct o; simpl.
  - unfold release.
    destruct (check_delete _ _ _) as [g1| |] eqn:Hc; simpl; try done.
    intros [= <-]. simpl. apply (lock_state_section g g1); [done|].
    eapply runs_locked_trans; [|by eapply check_delete_locked].
    by apply runs_locked_same.
  - intros [= <-]. simpl. rewrite <-(assoc_L (++)). by apply Hpair.
  - intros [= <-]. simpl. rewrite <-(assoc_L (++)). by apply Hpair.
  - intros [= <-]. unfold depend_many. simpl. rewrite increments_trace. simpl.
    rewrite <-(assoc_L (++)). by apply Hpair.
  - intros [= <-]. simpl. rewrite <-(assoc_L (++)). by apply Hpair.
  - intros [= <-]. simpl. rewrite <-(assoc_L (++)). by apply Hpair.
  - by apply collect_mutex.
  - unfold wait_collect.
    destruct (collect fuel dev g) as [g1| |] eqn:Hc; simpl; try done.
    pose proof (collect_mutex _ _ _ _ H0 Hc) as H1.
    destruct (_ || _).
    + apply collect_mutex. simpl.
      rewrite <-!(assoc_L (++)), lock_state_app, H1. done.
    + intros [= <-]. simpl.
      rewrite <-!(assoc_L (++)), lock_state_app, H1. done.
Qed.
End mutex.

Section mutex_held.
Implicit Types (evs : list event).

Lemma lock_state_held evs :
  ∀ h b, lock_state h evs = Some b →
         foldl (λ held e, match e with
                          | EvLock => true
                          | EvUnlock => false
                          | _ => held
                          end) h evs = b.
Proof.
  induction evs as [|e evs IH]; intros h b; simpl; [by intros [= <-]|].
  destruct e, h; try done; apply IH.
Qed.

Lemma lock_state_at (pre post : list event) e b :
  lock_state false (pre ++ e :: post) = Some b →
  lock_state false [e] = None → lock_held pre = true.
Proof.
  rewrite lock_state_app. intros H He.
  destruct (lock_state false pre) as [h|] eqn:Hpre; [|done].
  apply lock_state_held in Hpre. unfold lock_held. rewrite Hpre.
  simpl in H. destruct e, h; simpl in *; done.
Qed.
End mutex_held.

(** X9. Every cleanup and every trigger callback is invoked while the
    calling thread holds the mutex, and so is every decrement of a
    count and every query or destruction of a semaphore: in the trace of
    every reachable state, each event other than taking the mutex and
    [vkDeviceWaitIdle] finds the mutex held. The [lock] and [unlock]
    calls of the operations themselves alternate, and every operation
    ends with the mutex released. The trace has the invocation of a
    closure, not what the closure does: a cleanup or a callback that
    called an operation of the collector would take the mutex while its
    caller holds it. *)
Theorem mutex_is_held_around_every_access n g :
  reachable n g →
  lock_state false (trace g) = Some false
  ∧ ∀ pre e post,
      trace g = pre ++ e :: post →
      e ≠ EvLock → e ≠ EvDeviceWaitIdle → lock_held pre = true.
Proof.
  intros Hr.
  assert (lock_state false (trace g) = Some false) as H.
  { induction Hr as [|n g fuel o g' Hr IH Hrun|n g l Hr IH Hl|n g l Hr IH Hl];
      [done| |done|done].
    by apply (exec_mutex fuel o g g'). }
  split; [done|]. intros pre e post Htr H1 H2. rewrite Htr in H.
  apply (lock_state_at pre post e false H). by destruct e.
Qed.

(** ** What [collect] changes *)

Section collect_effects.
Implicit Types (g : garbage_collector).

Lemma cleanups_of_locked x (evs : list event) :
  cleanups_of x (EvLock :: evs ++ [EvUnlock]) = cleanups_of x evs.
Proof.
  simpl. rewrite cleanups_of_app. simpl. lia.
Qed.
End collect_effects.

(** X10. [collect] invokes the cleanup of exactly the records it
    removes, once each; it creates no record, raises no count, changes
    neither the cleanup nor the [dependents] of a record it leaves, and
    adds no semaphore. *)
Theorem collect_cleans_what_it_removes n g fuel dev :
  reachable n g → (n ≤ SIZE_MAX)%N → enough_fuel g ≤ fuel →
  ∃ g' evs,
    collect fuel dev g = Done g' ∧ trace g' = trace g ++ evs
    ∧ (∀ x, cleanups_of x evs = deleted x g g')
    ∧ (∀ x, resources g !! x = None → resources g' !! x = None)
    ∧ (∀ x i', resources g' !! x = Some i' →
         ∃ i, resources g !! x = Some i ∧ cleanup i' = cleanup i
              ∧ dependents i' = dependents i
              ∧ (dependency_count i' ≤ dependency_count i)%N)
    ∧ sublist (semaphore_dependencies g').*1 (semaphore_dependencies g).*1.
Proof.
  intros Hr Hn Hfuel. pose proof (reachable_consistent n g Hr Hn) as Hg.
  destruct (collect_spec fuel n g dev Hg Hfuel) as (g1 & Hrun & _ & Hcas).
  destruct Hcas as [Z M Do Se (evs & Tr & Ok & Cl) El Le Sa].
  eexists _, (EvLock :: evs ++ [EvUnlock]). split; [exact Hrun|]. split_and!.
  - simpl. rewrite Tr. simpl. by rewrite <-!(assoc_L (++)).
  - intros x. rewrite cleanups_of_locked. apply Cl.
  - intros x. apply Do.
  - intros x i' Hx. destruct (Sa x i' Hx) as (i & Hi & ? & ?).
    exists i. split_and!; try done.
    specialize (M x). unfold refcount, resources_index in M. simpl in *.
    by rewrite Hx, Hi in M.
  - simpl. apply collect_result_keys.
Qed.

(** ** [release] of a semaphore *)

Section release_semaphore_facts.
Implicit Types (g : garbage_collector) (l : list (N * semaphore_info)).

Lemma mark_destroy_twice sem l :
  semaphores_modify sem mark_destroy (semaphores_modify sem mark_destroy l)
  = semaphores_modify sem mark_destroy l.
Proof.
  induction l as [|[k i] l IH]; simpl.
  - by rewrite N.eqb_refl.
  - destruct (k =? sem)%N eqn:Hk; simpl; rewrite Hk; [done|]. by rewrite IH.
Qed.

Lemma release_semaphore_marked n g sem :
  consistent n g →
  (∀ info, (sem, info) ∈ semaphore_dependencies g → triggers info = []) →
  (sem, {| triggers := []; should_destroy := true |})
  ∈ semaphore_dependencies (release_semaphore sem g).
Proof.
  intros Hg Hq. simpl.
  destruct (decide (sem ∈ (semaphore_dependencies g).*1)) as [Hin|Hout].
  - apply list_elem_of_fmap in Hin as ([k i] & -> & Hin). simpl in *.
    rewrite <-(Hq i Hin).
    apply (semaphores_modify_elem_of k mark_destroy _ i);
      [apply (con_keys _ _ Hg)|done].
  - by apply (semaphores_modify_fresh sem mark_destroy).
Qed.
End release_semaphore_facts.

(** X11. [release] of a semaphore twice is [release] once. A released
    semaphore with no pending trigger (one the map had no record of
    included) is destroyed by the next [collect], whatever value the
    device reports for it. *)
Theorem released_semaphore_without_triggers_is_destroyed n g fuel dev sem :
  reachable n g → (n ≤ SIZE_MAX)%N → enough_fuel g ≤ fuel →
  (∀ info, (sem, info) ∈ semaphore_dependencies g → triggers info = []) →
  semaphore_dependencies (release_semaphore sem (release_semaphore sem g))
  = semaphore_dependencies (release_semaphore sem g)
  ∧ ∃ g' evs,
      collect fuel dev (release_semaphore sem g) = Done g'
      ∧ trace g' = trace (release_semaphore sem g) ++ evs
      ∧ EvDestroySemaphore sem ∈ evs
      ∧ sem ∉ (semaphore_dependencies g').*1.
Proof.
  intros Hr Hn Hfuel Hq. pose proof (reachable_consistent n g Hr Hn) as Hg.
  split; [simpl; by rewrite mark_destroy_twice|].
  pose proof (release_semaphore_consistent n g sem Hg) as Hg1.
  pose proof (release_semaphore_marked n g sem Hg Hq) as Hin.
  set (g1 := release_semaphore sem g) in *.
  assert (enough_fuel g1 ≤ fuel) as Hfuel1.
  { subst g1. unfold enough_fuel, total in *. simpl.
    by rewrite semaphores_modify_mark. }
  clearbody g1.
  destruct (collect_trace fuel n g1 dev Hg1 Hfuel1)
    as (g' & evs & Hrun & Hg' & Hsem & _ & Htr & Hout).
  exists g', evs. split_and!; [done..| |].
  - assert (EvDestroySemaphore sem ∈ outer evs) as H;
      [|unfold outer in H; by apply list_elem_of_filter in H as [_ ?]].
    rewrite Hout. right. apply elem_of_app. left.
    apply destroy_event_iff; [apply (con_sorted _ _ Hg1)|].
    by eexists.
  - rewrite Hsem.
    apply (collect_result_lookup dev _ (con_keys _ _ Hg1) sem _ Hin).
Qed.

(** ** Relations that deletions preserve

    Whatever holds across the elementary steps of a deletion, the steps
    being taken on states whose edges are accounted for, holds across
    [check_delete], [release], [collect] and [wait_collect]. *)

Section guarded.
Implicit Types (g : garbage_collector) (K E : list N).
Variable R : list N → garbage_collector → garbage_collector → Prop.
Hypothesis R_refl : ∀ K g, R K g g.
Hypothesis R_trans : ∀ K g1 g2 g3, R K g1 g2 → R K g2 g3 → R K g1 g3.
Hypothesis R_emit : ∀ K g e, (∀ r f, e ≠ EvCleanup r f) → R K g (emit e g).
Hypothesis R_decrement :
  ∀ K g d, (0 < refcount g d)%N → R K g (decrement d g).
Hypothesis R_delete :
  ∀ K E g r it f g2,
    accounted K E g → zero_counts K g → r ∉ K →
    resources g !! r = Some it → dependency_count it = 0%N →
    cleanup it = Some f →
    R (r :: K) (emit (EvCleanup r f) g) g2 → R K g (erase r g2).

Lemma guarded_consume_edge fuel K E g d g' :
  (∀ K E g r g',
     accounted K E g → zero_counts K g → r ∉ K →
     is_Some (resources g !! r) → total K E g < fuel →
     check_delete fuel r g = Done g' → R K g g') →
  accounted K (d :: E) g → zero_counts K g → total K (d :: E) g ≤ fuel →
  check_delete fuel d (decrement d g) = Done g' → R K g g'.
Proof.
  intros IH Hacc HK Hfuel Hrun.
  destruct (accounted_decrement K E g d Hacc) as [Hd Hacc'].
  assert (d ∉ K) as HdK.
  { intros Hin. unfold zero_counts in HK. rewrite Forall_forall in HK.
    specialize (HK d Hin). lia. }
  eapply R_trans; [by apply R_decrement|].
  apply (IH K E (decrement d g) d g'); try done.
  - unfold zero_counts in *. rewrite Forall_forall in *. intros k Hk.
    rewrite refcount_decrement, decide_False; [by apply HK|].
    by intros ->.
  - simpl. rewrite lookup_modify_eq. by eexists.
  - unfold total in *. simpl in *.
    rewrite (pending_modify K (resources g) d (set_count size_decr)) by done.
    lia.
Qed.

Lemma guarded_consume_all fuel l :
  (∀ K E g r g',
     accounted K E g → zero_counts K g → r ∉ K →
     is_Some (resources g !! r) → total K E g < fuel →
     check_delete fuel r g = Done g' → R K g g') →
  ∀ K E g g',
    accounted K (l ++ E) g → zero_counts K g → total K (l ++ E) g ≤ fuel →
    for_each (λ dep g, check_delete fuel dep (decrement dep g)) l g
    = Done g' →
    R K g g'.
Proof.
  intros IH. induction l as [|d l IHl]; intros K E g g' Hacc HK Hfuel; simpl.
  - intros [= <-]. apply R_refl.
  - destruct (consume_edge fuel K (l ++ E) g d (check_delete_cascade fuel))
      as (g1 & Hrun1 & Hacc1 & Hcas1); try done.
    rewrite Hrun1. simpl. intros Hrun.
    eapply R_trans; [by apply (guarded_consume_edge fuel K (l ++ E) g d g1)|].
    apply (IHl K E g1 g'); try done.
    + by eapply zero_counts_cascade.
    + pose proof (total_cascade K (l ++ E) g g1 Hcas1).
      unfold total in *. simpl in *. lia.
Qed.

Lemma guarded_check_delete fuel :
  ∀ K E g r g',
    accounted K E g → zero_counts K g → r ∉ K →
    is_Some (resources g !! r) → total K E g < fuel →
    check_delete fuel r g = Done g' → R K g g'.
Proof.
  induction fuel as [|fuel IH]; intros K E g r g' Hacc HK HrK [it Hit] Hfuel;
    [lia|].
  simpl. rewrite Hit.
  destruct (dependency_count it =? 0)%N eqn:Hz;
    [destruct (cleanup it) as [f|] eqn:Hf|];
    try (intros [= <-]; apply R_refl).
  apply N.eqb_eq in Hz.
  pose proof (refcount_present g r it Hit) as Hr. rewrite Hz in Hr.
  destruct (for_each _ (dependents it) _) as [g2| |] eqn:Hloop; simpl; try done.
  intros [= <-].
  apply (R_delete K E g r it f g2); try done.
  apply (guarded_consume_all fuel (dependents it) IH (r :: K) E
           (emit (EvCleanup r f) g) g2); try done.
  - by apply (accounted_enter K E g r it).
  - by constructor.
  - change (total (r :: K) (dependents it ++ E) g ≤ fuel).
    rewrite total_enter by done. lia.
Qed.

Lemma guarded_fire fuel K E g t g' :
  accounted K (trigger_edge t ++ E) g → zero_counts K g →
  total K (trigger_edge t ++ E) g ≤ fuel →
  fire fuel t g = Done g' → R K g g'.
Proof.
  intros Hacc HK Hfuel. unfold fire.
  set (g0 := match callback t with
             | Some f => emit (EvCallback f) g
             | None => g
             end).
  assert (R K g g0) as H0.
  { subst g0. destruct (callback t); [by apply R_emit|apply R_refl]. }
  assert (accounted K (trigger_edge t ++ E) g0
          ∧ total K (trigger_edge t ++ E) g0 = total K (trigger_edge t ++ E) g
          ∧ zero_counts K g0)
    as (Hacc0 & Htot0 & HK0).
  { subst g0. by destruct (callback t). }
  unfold trigger_edge in *. destruct (dependent t =? nullptr)%N.
  - by intros [= <-].
  - intros Hrun. eapply R_trans; [exact H0|].
    apply (guarded_consume_edge fuel K E g0 (dependent t) g'); try done.
    + apply guarded_check_delete.
    + simpl in *. lia.
Qed.

Lemma guarded_fire_all fuel K l :
  ∀ E g g',
    accounted K (queue_edges l ++ E) g → zero_counts K g →
    total K (queue_edges l ++ E) g ≤ fuel →
    for_each (fire fuel) l g = Done g' → R K g g'.
Proof.
  induction l as [|t l IH]; intros E g g' Hacc HK Hfuel; simpl.
  - intros [= <-]. apply R_refl.
  - unfold queue_edges in Hacc, Hfuel. rewrite bind_cons in Hacc, Hfuel.
    rewrite <-(assoc_L (++)) in Hacc, Hfuel.
    destruct (fire_cascade fuel K (queue_edges l ++ E) g t)
      as (g1 & Hrun1 & Hacc1 & Hcas1); try done.
    rewrite Hrun1. simpl. intros Hrun.
    eapply R_trans; [by apply (guarded_fire fuel K (queue_edges l ++ E) g t)|].
    apply (IH E g1 g'); try done.
    + by eapply zero_counts_cascade.
    + pose proof (total_cascade K (queue_edges l ++ E) g g1 Hcas1).
      unfold total, queue_edges in *. rewrite !length_app in *. lia.
Qed.

Lemma guarded_drain fuel v q E g q' g' :
  accounted [] (queue_edges q ++ E) g →
  total [] (queue_edges q ++ E) g ≤ fuel →
  drain fuel v q g = Done (q', g') → R [] g g'.
Proof.
  intros Hacc Hfuel. rewrite drain_split.
  rewrite <-(take_drop_ready v q) in Hacc, Hfuel.
  unfold queue_edges in Hacc, Hfuel.
  rewrite bind_app, <-(assoc_L (++)) in Hacc, Hfuel.
  destruct (for_each _ _ _) as [g1| |] eqn:Hrun; simpl; try done.
  intros [= _ <-].
  apply (guarded_fire_all fuel [] (take_ready v q)
           (queue_edges (drop_ready v q) ++ E) g g1); try done.
  constructor.
Qed.

Lemma guarded_collect_loop fuel dev sems :
  ∀ E g sems' g',
    accounted [] (semaphore_edges sems ++ E) g →
    total [] (semaphore_edges sems ++ E) g ≤ fuel →
    collect_loop fuel dev sems g = Done (sems', g') → R [] g g'.
Proof.
  induction sems as [|[sem info] rest IH]; intros E g sems' g' Hacc Hfuel;
    simpl.
  - intros [= _ <-]. apply R_refl.
  - unfold semaphore_edges in Hacc, Hfuel.
    rewrite bind_cons, <-(assoc_L (++)) in Hacc, Hfuel. simpl in Hacc, Hfuel.
    destruct (drain_cascade fuel (dev sem) (triggers info)
                (semaphore_edges rest ++ E)
                (emit (EvGetSemaphoreCounterValue sem) g))
      as (g1 & Hrun1 & Hacc1 & Hcas1); try done.
    rewrite Hrun1. simpl.
    assert (R [] g g1) as HR1.
    { eapply R_trans;
        [by apply (R_emit [] g (EvGetSemaphoreCounterValue sem))|].
      eapply (guarded_drain fuel (dev sem) (triggers info)
                (semaphore_edges rest ++ E));
        [exact Hacc|exact Hfuel|exact Hrun1]. }
    assert (cascade [] g g1) as Hcas.
    { eapply cascade_trans; [|exact Hcas1]. by apply cascade_emit. }
    set (q := drop_ready (dev sem) (triggers info)) in *.
    assert (∀ g2 r, cascade [] g1 g2 → R [] g1 g2 →
              accounted [] (semaphore_edges rest ++ queue_edges q ++ E) g2 →
              collect_loop fuel dev rest g2 = Done r → R [] g r.2) as Hrest.
    { intros g2 [rest' g3] Hc2 HR2 Hacc2 Hl. simpl.
      eapply R_trans; [exact HR1|]. eapply R_trans; [exact HR2|].
      apply (IH (queue_edges q ++ E) g2 rest' g3); [done| |done].
      pose proof (total_cascade [] (semaphore_edges rest ++ E) _ _ Hcas).
      pose proof (total_cascade [] (semaphore_edges rest ++ E) _ _ Hc2).
      assert (length (queue_edges q) ≤ length (queue_edges (triggers info))).
      { rewrite <-(take_drop_ready (dev sem) (triggers info)).
        unfold queue_edges. rewrite bind_app, length_app. subst q.
        unfold queue_edges. lia. }
      unfold total, semaphore_edges in *. rewrite !length_app in *. lia. }
    assert (accounted [] (semaphore_edges rest ++ queue_edges q ++ E) g1)
      as Hacc1'.
    { eapply accounted_perm; [|done|exact Hacc1].
      by rewrite !(assoc_L (++)), (comm (++) (queue_edges q)). }
    destruct q as [|t q'] eqn:Hq; [destruct (should_destroy info) eqn:Hsd|].
    + intros Hl.
      apply (Hrest (emit (EvDestroySemaphore sem) g1) (sems', g'));
        [by apply cascade_emit|by apply R_emit|done|done].
    + destruct (collect_loop fuel dev rest g1) as [[rest' g3]| |] eqn:Hl;
        simpl; try done.
      intros [= _ <-].
      apply (Hrest g1 (rest', g3)); [apply cascade_refl|apply R_refl|done..].
    + destruct (collect_loop fuel dev rest g1) as [[rest' g3]| |] eqn:Hl;
        simpl; try done.
      intros [= _ <-].
      apply (Hrest g1 (rest', g3)); [apply cascade_refl|apply R_refl|done..].
Qed.
Hypothesis R_semaphores : ∀ K g l, R K g (with_semaphores l g).

Lemma guarded_release fuel n g r c g1 :
  consistent n g → enough_fuel g ≤ fuel →
  check_delete fuel r (released r c g) = Done g1 →
  R [] (released r c g) g1.
Proof.
  intros Hg Hfuel.
  apply (guarded_check_delete fuel []
           (semaphore_edges (semaphore_dependencies g))).
  - apply accounted_released, (con_accounted _ _ Hg).
  - constructor.
  - apply not_elem_of_nil.
  - simpl. rewrite lookup_modify_eq. by eexists.
  - unfold enough_fuel, total in *. simpl.
    rewrite pending_modify by done. lia.
Qed.

Lemma guarded_collect fuel n g dev g' :
  consistent n g → enough_fuel g ≤ fuel →
  collect fuel dev g = Done g' → R [] g g'.
Proof.
  intros Hg Hfuel. unfold collect.
  destruct (collect_loop _ _ _ _) as [[sems g1]| |] eqn:Hl; simpl; try done.
  intros [= <-].
  eapply R_trans; [by apply (R_emit [] g EvLock)|].
  eapply R_trans; [|by apply (R_emit [] _ EvUnlock)].
  eapply R_trans; [|apply R_semaphores].
  apply (guarded_collect_loop fuel dev _ [] _ _ _) in Hl; [done| |].
  - rewrite (right_id_L [] (++)). apply (con_accounted _ _ Hg).
  - rewrite (right_id_L [] (++)). unfold enough_fuel in Hfuel.
    change (total [] (semaphore_edges (semaphore_dependencies g)) g ≤ fuel).
    lia.
Qed.

Lemma guarded_wait_collect fuel n g dev dev_idle g' :
  consistent n g → enough_fuel g ≤ fuel →
  wait_collect fuel dev dev_idle g = Done g' → R [] g g'.
Proof.
  intros Hg Hfuel. unfold wait_collect.
  destruct (collect_consistent fuel n g dev Hg Hfuel)
    as (g1 & Hrun1 & Hg1 & _ & Hfuel1).
  rewrite Hrun1. simpl.
  pose proof (guarded_collect fuel n g dev g1 Hg Hfuel Hrun1) as H1.
  assert (R [] g1 (emit EvLock g1)) as H2 by (by apply R_emit).
  destruct (_ || _).
  - intros Hrun2. eapply R_trans; [exact H1|]. eapply R_trans; [exact H2|].
    eapply R_trans; [by apply (R_emit [] _ EvDeviceWaitIdle)|].
    eapply R_trans; [by apply (R_emit [] _ EvUnlock)|].
    apply (guarded_collect fuel n _ dev_idle g'); [| |done].
    + by repeat apply consistent_emit.
    + change (enough_fuel g1 ≤ fuel). lia.
  - intros [= <-]. eapply R_trans; [exact H1|]. eapply R_trans; [exact H2|].
    by apply R_emit.
Qed.
End guarded.

(** ** Stored and invoked cleanups *)

Section stored_cleanups.
Implicit Types (g : garbage_collector) (K : list N).

Lemma awaiting_same K g g' x :
  cleanup (resources_index x (resources g'))
  = cleanup (resources_index x (resources g)) →
  awaiting K g' x = awaiting K g x.
Proof. intros H. unfold awaiting. by rewrite H. Qed.

Lemma cleanup_index_modify r f (m : gmap N dependency_info) x :
  (∀ i, cleanup (f i) = cleanup i) →
  cleanup (resources_index x (resources_modify r f m))
  = cleanup (resources_index x m).
Proof.
  intros H. rewrite index_modify. case_decide; subst; [apply H|done].
Qed.

Lemma invokes_stored_refl K g : invokes_stored K g g.
Proof.
  exists []. split; [by rewrite (right_id_L [] (++))|]. intros x. simpl. lia.
Qed.

Lemma invokes_stored_trans K g1 g2 g3 :
  invokes_stored K g1 g2 → invokes_stored K g2 g3 → invokes_stored K g1 g3.
Proof.
  intros (e1 & H1 & F1) (e2 & H2 & F2). exists (e1 ++ e2). split.
  - by rewrite H2, H1, (assoc_L (++)).
  - intros x. rewrite cleanups_of_app. specialize (F1 x). specialize (F2 x).
    lia.
Qed.

Lemma invokes_stored_emit K g e :
  (∀ r f, e ≠ EvCleanup r f) → invokes_stored K g (emit e g).
Proof.
  intros He. exists [e]. split; [done|]. intros x.
  assert (cleanups_of x [e] = 0) as ->.
  { destruct e; try done. by destruct (He resource f). }
  by rewrite (awaiting_same K g (emit e g) x).
Qed.

Lemma invokes_stored_decrement K g d :
  (0 < refcount g d)%N → invokes_stored K g (decrement d g).
Proof.
  intros _. eexists [_]. split; [done|]. intros x. simpl.
  rewrite (awaiting_same K g); [done|]. simpl.
  by apply cleanup_index_modify.
Qed.

Lemma invokes_stored_delete K E g r it f g2 :
  accounted K E g → zero_counts K g → r ∉ K →
  resources g !! r = Some it → dependency_count it = 0%N →
  cleanup it = Some f →
  invokes_stored (r :: K) (emit (EvCleanup r f) g) g2 →
  invokes_stored K g (erase r g2).
Proof.
  intros _ _ HrK Hit _ Hf (evs & Htr & Hle).
  exists (EvCleanup r f :: evs). split.
  - simpl in *. by rewrite Htr, <-(assoc_L (++)).
  - intros x. specialize (Hle x). simpl.
    unfold awaiting in *. simpl in *.
    destruct (decide (r = x)) as [<-|Hne].
    + rewrite !decide_True in Hle by (by left).
      rewrite !decide_False by done.
      unfold resources_index. rewrite lookup_delete_eq, Hit. simpl.
      rewrite Hf. lia.
    + assert (resources_index x (delete r (resources g2))
              = resources_index x (resources g2)) as ->.
      { unfold resources_index. by rewrite lookup_delete_ne. }
      destruct (decide (x ∈ K)) as [Hin|Hout].
      * rewrite !decide_True in Hle by (by right). lia.
      * rewrite !decide_False in Hle; [lia|..];
          rewrite not_elem_of_cons; by split.
Qed.

Lemma invokes_stored_semaphores K g l :
  invokes_stored K g (with_semaphores l g).
Proof.
  exists []. split; [by rewrite (right_id_L [] (++))|]. intros x. simpl.
  by rewrite (awaiting_same K g).
Qed.

Lemma increments_cleanup l :
  ∀ g x, cleanup (resources_index x
                    (resources (foldl (λ g used, increment used g) g l)))
         = cleanup (resources_index x (resources g)).
Proof.
  induction l as [|d l IH]; intros g x; simpl; [done|].
  rewrite IH. simpl. by apply cleanup_index_modify.
Qed.

Lemma exec_invokes_stored fuel n o g g' :
  consistent n g → enough_fuel g ≤ fuel → exec fuel o g = Done g' →
  ∃ evs, trace g' = trace g ++ evs
         ∧ ∀ x, cleanups_of x evs + awaiting [] g' x
                ≤ awaiting [] g x + releases_of x [o].
Proof.
  intros Hg Hfuel.
  assert (∀ g1, trace g1 = trace g ++ [EvLock; EvUnlock] →
                (∀ x, cleanup (resources_index x (resources g1))
                      = cleanup (resources_index x (resources g))) →
                ∃ evs, trace g1 = trace g ++ evs
                       ∧ ∀ x, cleanups_of x evs + awaiting [] g1 x
                              ≤ awaiting [] g x + releases_of x [o]) as Hreg.
  { intros g1 Htr Hc. exists [EvLock; EvUnlock]. split; [done|].
    intros x. rewrite (awaiting_same [] g g1 x (Hc x)). simpl. lia. }
  assert (∀ g1, invokes_stored [] g g1 →
                ∃ evs, trace g1 = trace g ++ evs
                       ∧ ∀ x, cleanups_of x evs + awaiting [] g1 x
                              ≤ awaiting [] g x + releases_of x [o]) as Hcol.
  { intros g1 (evs & Htr & Hle). exists evs. split; [done|].
    intros x. specialize (Hle x). lia. }
  destruct o; simpl.
  - unfold release.
    change (with_resources _ (emit EvLock g)) with (released resource c g).
    destruct (check_delete _ _ _) as [g1| |] eqn:Hc; simpl; try done.
    intros [= <-].
    destruct (guarded_release invokes_stored invokes_stored_refl
                invokes_stored_trans invokes_stored_decrement
                invokes_stored_delete fuel n g resource c g1 Hg Hfuel Hc)
      as (evs & Htr & Hle).
    exists (EvLock :: evs ++ [EvUnlock]). split.
    + simpl. rewrite Htr. simpl. by rewrite <-!(assoc_L (++)).
    + intros x. specialize (Hle x). rewrite cleanups_of_locked.
      assert (awaiting [] (released resource c g) x
              ≤ awaiting [] g x + releases_of x [Release resource c]) as Hrel.
      { unfold awaiting. simpl. rewrite index_modify.
        destruct (decide (x = resource)) as [->|Hne]; simpl;
          destruct c, (cleanup (resources_index _ (resources g))); simpl;
          rewrite ?decide_True, ?decide_False by done; lia. }
      rewrite (awaiting_same [] g1 (emit EvUnlock g1)) by done.
      simpl in Hrel. lia.
  - intros [= <-]. apply Hreg; [|done]. simpl. by rewrite <-(assoc_L (++)).
  - intros [= <-]. apply Hreg.
    + simpl. by rewrite <-(assoc_L (++)).
    + intros x. simpl. rewrite !cleanup_index_modify; done.
  - intros [= <-]. apply Hreg.
    + unfold depend_many. simpl. rewrite increments_trace. simpl.
      by rewrite <-(assoc_L (++)).
    + intros x. unfold depend_many. simpl. rewrite increments_cleanup. simpl.
      by apply cleanup_index_modify.
  - intros [= <-]. apply Hreg.
    + simpl. by rewrite <-(assoc_L (++)).
    + intros x. simpl. by apply cleanup_index_modify.
  - intros [= <-]. apply Hreg; [|done]. simpl. by rewrite <-(assoc_L (++)).
  - intros Hrun. apply Hcol.
    by apply (guarded_collect invokes_stored invokes_stored_refl
                invokes_stored_trans invokes_stored_emit
                invokes_stored_decrement invokes_stored_delete
                invokes_stored_semaphores fuel n g dev g').
  - intros Hrun. apply Hcol.
    by apply (guarded_wait_collect invokes_stored invokes_stored_refl
                invokes_stored_trans invokes_stored_emit
                invokes_stored_decrement invokes_stored_delete
                invokes_stored_semaphores fuel n g dev dev_idle g').
Qed.

Lemma run_invokes_stored fuel ops :
  ∀ n g g',
    consistent n g → (n + registered_all ops ≤ SIZE_MAX)%N →
    run fuel ops g = Done g' →
    ∃ evs, trace g' = trace g ++ evs
           ∧ ∀ x, cleanups_of x evs + awaiting [] g' x
                  ≤ awaiting [] g x + releases_of x ops.
Proof.
  unfold run. induction ops as [|o ops IH]; intros n g g' Hg Hn;
    cbn [for_each].
  - intros [= <-]. exists []. split; [by rewrite (right_id_L [] (++))|].
    intros x. simpl. lia.
  - destruct (exec fuel o g) as [g1| |] eqn:Ho; cbn [outcome_bind]; try done.
    intros Hrun. simpl in Hn.
    assert (consistent (n + registered o) g1) as Hg1.
    { apply (exec_consistent_any fuel n o g g1); [done|lia|done]. }
    destruct (exec_invokes_stored (fuel `max` enough_fuel g) n o g g1)
      as (e1 & Ht1 & Hl1); [done|lia| |].
    { apply (exec_fuel fuel); [done|lia]. }
    destruct (IH (n + registered o)%N g1 g' Hg1) as (e2 & Ht2 & Hl2);
      [lia|done|].
    exists (e1 ++ e2). split; [by rewrite Ht2, Ht1, (assoc_L (++))|].
    intros x. specialize (Hl1 x). specialize (Hl2 x).
    rewrite cleanups_of_app.
    assert (releases_of x (o :: ops) = releases_of x [o] + releases_of x ops)
      as ->.
    { destruct o as [r [f|]| | | | | | |]; simpl; lia. }
    lia.
Qed.
End stored_cleanups.

(** X12. Over any run from a fresh collector, the cleanups invoked
    for a resource, plus one when a cleanup is stored for it at the end,
    are at most as many as the [release] calls that handed a non-empty
    cleanup for it: no cleanup is invoked twice. *)
Theorem cleanup_runs_at_most_once_per_release fuel ops g x :
  (registered_all ops ≤ SIZE_MAX)%N → run fuel ops gc_init = Done g →
  cleanups_of x (trace g) + awaiting [] g x ≤ releases_of x ops.
Proof.
  intros Hn Hrun.
  destruct (run_invokes_stored fuel ops 0 gc_init g consistent_init)
    as (evs & Htr & Hle); [by rewrite N.add_0_l|done|].
  simpl in Htr. rewrite Htr. apply (Hle x).
Qed.

(** ** Dependency cycles *)

Section cycles.
Implicit Types (g : garbage_collector) (C K : list N).

Lemma elem_of_pending_outside K (m : gmap N dependency_info) x i d :
  m !! x = Some i → x ∉ K → d ∈ dependents i → d ∈ pending K m.
Proof.
  intros Hx HK Hd. unfold pending. apply list_elem_of_bind.
  exists (x, i). split; [|by apply elem_of_map_to_list].
  unfold edges_from. simpl. by rewrite decide_False.
Qed.

Lemma cycle_closed_grow C g g' :
  (∀ z i, resources g !! z = Some i →
          ∃ i', resources g' !! z = Some i'
                ∧ ∀ d, d ∈ dependents i → d ∈ dependents i') →
  cycle_closed C g → cycle_closed C g'.
Proof.
  intros H Hc y Hy. destruct (Hc y Hy) as (z & i & Hz & Hi & Hd).
  destruct (H z i Hi) as (i' & Hi' & Hsub). exists z, i'. auto.
Qed.

Lemma cycle_closed_modify C g r f :
  (∀ i d, d ∈ dependents i → d ∈ dependents (f i)) →
  cycle_closed C g →
  cycle_closed C (with_resources (resources_modify r f (resources g)) g).
Proof.
  intros Hf. apply cycle_closed_grow. intros z i Hi. simpl.
  destruct (decide (z = r)) as [->|Hne].
  - rewrite lookup_modify_eq. eexists. split; [done|].
    unfold resources_index. rewrite Hi. simpl. apply Hf.
  - rewrite lookup_modify_ne by done. by exists i.
Qed.

Lemma cycle_closed_increments C l :
  ∀ g, cycle_closed C g →
       cycle_closed C (foldl (λ g used, increment used g) g l).
Proof.
  induction l as [|d l IH]; intros g Hc; simpl; [done|].
  apply IH. unfold increment. by apply cycle_closed_modify.
Qed.

Lemma cycle_member_counted C K E g y :
  accounted K E g → (∀ y, y ∈ C → y ∉ K) → cycle_closed C g → y ∈ C →
  (0 < refcount g y)%N.
Proof.
  intros Hacc HK Hc Hy. destruct (Hc y Hy) as (z & i & Hz & Hi & Hd).
  destruct (Hacc y) as [H1 _]. rewrite occurrences_app in H1.
  pose proof (occurrences_elem_of y _
                (elem_of_pending_outside K _ z i y Hi (HK z Hz) Hd)).
  lia.
Qed.

Lemma keeps_cycle_refl C K g : keeps_cycle C K g g.
Proof.
  intros _ Hc. split; [done|]. exists []. by rewrite (right_id_L [] (++)).
Qed.

Lemma keeps_cycle_trans C K g1 g2 g3 :
  keeps_cycle C K g1 g2 → keeps_cycle C K g2 g3 → keeps_cycle C K g1 g3.
Proof.
  intros H1 H2 HK Hc. destruct (H1 HK Hc) as (Hc2 & e1 & Ht1 & Hn1).
  destruct (H2 HK Hc2) as (Hc3 & e2 & Ht2 & Hn2).
  split; [done|]. exists (e1 ++ e2). split.
  - by rewrite Ht2, Ht1, (assoc_L (++)).
  - intros y Hy. rewrite cleanups_of_app, Hn1, Hn2; done.
Qed.

Lemma keeps_cycle_emit C K g e :
  (∀ r f, e ≠ EvCleanup r f) → keeps_cycle C K g (emit e g).
Proof.
  intros He _ Hc. split; [done|]. exists [e]. split; [done|].
  intros y _. destruct e; try done. by destruct (He resource f).
Qed.

Lemma keeps_cycle_decrement C K g d :
  (0 < refcount g d)%N → keeps_cycle C K g (decrement d g).
Proof.
  intros _ _ Hc. split.
  - unfold decrement.
    by apply (cycle_closed_modify C g d (set_count size_decr)).
  - eexists [_]. split; [done|]. done.
Qed.

Lemma keeps_cycle_delete C K E g r it f g2 :
  accounted K E g → zero_counts K g → r ∉ K →
  resources g !! r = Some it → dependency_count it = 0%N →
  cleanup it = Some f →
  keeps_cycle C (r :: K) (emit (EvCleanup r f) g) g2 →
  keeps_cycle C K g (erase r g2).
Proof.
  intros Hacc _ HrK Hit Hz Hf H HK Hc.
  assert (r ∉ C) as HrC.
  { intros Hr. pose proof (cycle_member_counted C K E g r Hacc HK Hc Hr) as Hp.
    rewrite (refcount_present g r it Hit) in Hp. lia. }
  destruct H as (Hc2 & evs & Htr & Hn); [|done|].
  { intros y Hy. rewrite not_elem_of_cons. split; [by intros ->|by apply HK]. }
  split.
  - intros y Hy. destruct (Hc2 y Hy) as (z & i & Hz' & Hi & Hd).
    exists z, i. split_and!; [done| |done]. simpl.
    rewrite lookup_delete_ne; [done|]. by intros ->.
  - exists (EvCleanup r f :: evs). split.
    + simpl in *. by rewrite Htr, <-(assoc_L (++)).
    + intros y Hy. simpl. rewrite decide_False; [by apply Hn|].
      by intros ->.
Qed.

Lemma keeps_cycle_semaphores C K g l : keeps_cycle C K g (with_semaphores l g).
Proof.
  intros _ Hc. split; [done|]. exists []. by rewrite (right_id_L [] (++)).
Qed.

Lemma exec_keeps_cycle C fuel n o g g' :
  consistent n g → enough_fuel g ≤ fuel → exec fuel o g = Done g' →
  cycle_closed C g →
  cycle_closed C g'
  ∧ ∃ evs, trace g' = trace g ++ evs ∧ ∀ y, y ∈ C → cleanups_of y evs = 0.
Proof.
  intros Hg Hfuel Hrun Hc.
  assert (∀ y, y ∈ C → y ∉ []) as HK by (intros; apply not_elem_of_nil).
  assert (∀ g1, trace g1 = trace g ++ [EvLock; EvUnlock] →
                cycle_closed C g1 →
                cycle_closed C g1
                ∧ ∃ evs, trace g1 = trace g ++ evs
                         ∧ ∀ y, y ∈ C → cleanups_of y evs = 0) as Hreg.
  { intros g1 Htr Hc1. split; [done|]. by exists [EvLock; EvUnlock]. }
  destruct o; simpl in Hrun.
  - unfold release in Hrun.
    change (with_resources _ (emit EvLock g)) with (released resource c g)
      in Hrun.
    destruct (check_delete _ _ _) as [g1| |] eqn:Hcd; simpl in Hrun; try done.
    injection Hrun as <-.
    destruct (guarded_release (keeps_cycle C) (keeps_cycle_refl C)
                (keeps_cycle_trans C) (keeps_cycle_decrement C)
                (keeps_cycle_delete C) fuel n g resource c g1 Hg Hfuel Hcd HK)
      as (Hc1 & evs & Htr & Hn).
    { unfold released.
      by apply (cycle_closed_modify C (emit EvLock g) resource
                  (set_cleanup c)). }
    split; [done|]. exists (EvLock :: evs ++ [EvUnlock]). split.
    + simpl. rewrite Htr. simpl. by rewrite <-!(assoc_L (++)).
    + intros y Hy. rewrite cleanups_of_locked. by apply Hn.
  - injection Hrun as <-. apply Hreg; [|done]. simpl.
    by rewrite <-(assoc_L (++)).
  - injection Hrun as <-. apply Hreg.
    + simpl. by rewrite <-(assoc_L (++)).
    + unfold depend, depend_many.
      apply (cycle_closed_increments C [used_resource]).
      apply (cycle_closed_modify C (emit EvLock g) user_resource
               (append_dependents [used_resource])); [|done].
      intros i d Hd. simpl. apply elem_of_app. by left.
  - injection Hrun as <-. apply Hreg.
    + unfold depend_many. simpl. rewrite increments_trace. simpl.
      by rewrite <-(assoc_L (++)).
    + unfold depend_many.
      apply (cycle_closed_increments C used_resources).
      apply (cycle_closed_modify C (emit EvLock g) user_resource
               (append_dependents used_resources)); [|done].
      intros i d Hd. simpl. apply elem_of_app. by left.
  - injection Hrun as <-. apply Hreg.
    + simpl. by rewrite <-(assoc_L (++)).
    + unfold depend_semaphore.
      by apply (cycle_closed_modify C (emit EvLock g) used_resource
                  (set_count size_incr)).
  - injection Hrun as <-. apply Hreg; [|done]. simpl.
    by rewrite <-(assoc_L (++)).
  - by apply (guarded_collect (keeps_cycle C) (keeps_cycle_refl C)
                (keeps_cycle_trans C) (keeps_cycle_emit C)
                (keeps_cycle_decrement C) (keeps_cycle_delete C)
                (keeps_cycle_semaphores C) fuel n g dev g').
  - by apply (guarded_wait_collect (keeps_cycle C) (keeps_cycle_refl C)
                (keeps_cycle_trans C) (keeps_cycle_emit C)
                (keeps_cycle_decrement C) (keeps_cycle_delete C)
                (keeps_cycle_semaphores C) fuel n g dev dev_idle g').
Qed.

Lemma run_keeps_cycle C fuel ops :
  ∀ n g g',
    consistent n g → (n + registered_all ops ≤ SIZE_MAX)%N →
    run fuel ops g = Done g' → cycle_closed C g →
    consistent (n + registered_all ops) g'
    ∧ cycle_closed C g'
    ∧ ∃ evs, trace g' = trace g ++ evs ∧ ∀ y, y ∈ C → cleanups_of y evs = 0.
Proof.
  unfold run. induction ops as [|o ops IH]; intros n g g' Hg Hn;
    cbn [for_each].
  - intros [= <-] Hc. simpl. rewrite N.add_0_r. split_and!; [done..|].
    exists []. by rewrite (right_id_L [] (++)).
  - destruct (exec fuel o g) as [g1| |] eqn:Ho; cbn [outcome_bind]; try done.
    intros Hrun Hc. simpl in Hn.
    assert (consistent (n + registered o) g1) as Hg1.
    { apply (exec_consistent_any fuel n o g g1); [done|lia|done]. }
    destruct (exec_keeps_cycle C (fuel `max` enough_fuel g) n o g g1)
      as (Hc1 & e1 & Ht1 & Hn1); [done|lia| |done|].
    { apply (exec_fuel fuel); [done|lia]. }
    destruct (IH (n + registered o)%N g1 g' Hg1)
      as (Hg' & Hc' & e2 & Ht2 & Hn2); [lia|done|done|].
    split_and!; [|done|].
    + simpl. by rewrite N.add_assoc.
    + exists (e1 ++ e2). split; [by rewrite Ht2, Ht1, (assoc_L (++))|].
      intros y Hy. rewrite cleanups_of_app, Hn1, Hn2; done.
Qed.
End cycles.

(** X13. Resources each of which is used by one of them (a dependency
    cycle, with what it uses) are never collected: after any run from a
    reachable state they still use each other, their records are in the
    map with positive counts, and none of their cleanups was invoked. *)
Theorem cyclic_dependencies_are_never_collected C fuel ops n g g' :
  reachable n g → (n + registered_all ops ≤ SIZE_MAX)%N →
  cycle_closed C g → run fuel ops g = Done g' →
  cycle_closed C g'
  ∧ (∀ y, y ∈ C → ∃ j, resources g' !! y = Some j
                        ∧ (0 < dependency_count j)%N)
  ∧ ∃ evs, trace g' = trace g ++ evs ∧ ∀ y, y ∈ C → cleanups_of y evs = 0.
Proof.
  intros Hr Hn Hc Hrun.
  assert (consistent n g) as Hg by (apply reachable_consistent; [done|lia]).
  destruct (run_keeps_cycle C fuel ops n g g' Hg Hn Hrun Hc)
    as (Hg' & Hc' & Hev).
  split_and!; [done| |done].
  intros y Hy. destruct (Hc' y Hy) as (z & i & _ & Hi & Hd).
  destruct (consistent_edge_target _ g' z i y Hg' Hi Hd) as (j & ? & ? & _).
  by exists j.
Qed.

(** ** A dependency on a semaphore, resolved *)

Section semaphore_round_trip.
Implicit Types (g : garbage_collector) (l : list (N * semaphore_info)).

Lemma drain_idle fuel v q g :
  Forall (λ t, (v < value t)%N) q → drain fuel v q g = Done (q, g).
Proof.
  destruct 1 as [|t q Ht _]; simpl; [done|].
  destruct (N.leb_spec (value t) v); [lia|done].
Qed.

Lemma pq_push_front t q :
  Forall (λ h, (value t < value h)%N) q → pq_push t q = t :: q.
Proof.
  destruct 1 as [|h q Hh _]; simpl; [done|]. unfold trigger_lt.
  destruct (N.ltb_spec (value t) (value h)); [done|lia].
Qed.

Lemma collect_loop_idle fuel dev l :
  (∀ k i t, (k, i) ∈ l → t ∈ triggers i → (dev k < value t)%N) →
  ∀ g, ∃ l' g', collect_loop fuel dev l g = Done (l', g')
                ∧ resources g' = resources g.
Proof.
  induction l as [|[k i] l IH]; intros Hidle g; simpl.
  - by exists [], g.
  - rewrite drain_idle.
    2: { apply Forall_forall. intros t Ht.
         apply (Hidle k i t); [by left|done]. }
    simpl.
    assert (∀ k' i' t, (k', i') ∈ l → t ∈ triggers i' → (dev k' < value t)%N)
      as Hidle'.
    { intros k' i' t Hin. apply Hidle. by right. }
    destruct (triggers i) as [|t q]; [destruct (should_destroy i)|].
    + destruct (IH Hidle' (emit (EvDestroySemaphore k)
                             (emit (EvGetSemaphoreCounterValue k) g)))
        as (l' & g' & -> & Hm).
      by exists l', g'.
    + destruct (IH Hidle' (emit (EvGetSemaphoreCounterValue k) g))
        as (l' & g' & -> & Hm).
      simpl. by eexists _, g'.
    + destruct (IH Hidle' (emit (EvGetSemaphoreCounterValue k) g))
        as (l' & g' & -> & Hm).
      simpl. by eexists _, g'.
Qed.

Lemma collect_loop_one_ready fuel dev s t (M : gmap N dependency_info) l :
  (value t ≤ dev s)%N →
  (∀ k i t, (k, i) ∈ l → t ∈ triggers i → (dev k < value t)%N) →
  ∀ g,
    (∀ g0, resources g0 = resources g →
           ∃ g1, fire fuel t g0 = Done g1 ∧ resources g1 = M) →
    ∃ l' g', collect_loop fuel dev (semaphores_modify s (push_trigger t) l) g
             = Done (l', g')
             ∧ resources g' = M.
Proof.
  intros Hv. induction l as [|[k i] l IH]; intros Hidle g Hfire.
  - simpl. destruct (N.leb_spec (value t) (dev s)); [|lia].
    destruct (Hfire (emit (EvGetSemaphoreCounterValue s) g)) as (g1 & -> & Hm);
      [done|].
    simpl. by eexists _, g1.
  - assert (∀ k' i' t, (k', i') ∈ l → t ∈ triggers i' → (dev k' < value t)%N)
      as Hidle'.
    { intros k' i' t' Hin. apply Hidle. by right. }
    assert (Forall (λ h, (dev k < value h)%N) (triggers i)) as Hq.
    { apply Forall_forall. intros h Hh. apply (Hidle k i h); [by left|done]. }
    simpl. destruct (N.eqb_spec k s) as [->|Hne].
    + cbn [collect_loop]. simpl triggers. rewrite pq_push_front.
      2: { eapply Forall_impl; [exact Hq|]. simpl. intros h Hh. lia. }
      cbn [drain]. destruct (N.leb_spec (value t) (dev s)); [|lia].
      destruct (Hfire (emit (EvGetSemaphoreCounterValue s) g))
        as (g1 & -> & Hm); [done|].
      cbn [outcome_bind]. rewrite drain_idle by done. cbn [outcome_bind].
      simpl should_destroy.
      destruct (triggers i) as [|h q]; [destruct (should_destroy i)|].
      * destruct (collect_loop_idle fuel dev l Hidle'
                    (emit (EvDestroySemaphore s) g1)) as (l' & g' & -> & Hm').
        exists l', g'. split; [done|]. by rewrite Hm'.
      * destruct (collect_loop_idle fuel dev l Hidle' g1)
          as (l' & g' & -> & Hm').
        simpl. eexists _, g'. split; [done|]. by rewrite Hm'.
      * destruct (collect_loop_idle fuel dev l Hidle' g1)
          as (l' & g' & -> & Hm').
        simpl. eexists _, g'. split; [done|]. by rewrite Hm'.
    + cbn [collect_loop]. rewrite drain_idle by done. cbn [outcome_bind].
      destruct (triggers i) as [|h q]; [destruct (should_destroy i)|].
      * destruct (IH Hidle' (emit (EvDestroySemaphore k)
                               (emit (EvGetSemaphoreCounterValue k) g)))
          as (l' & g' & -> & Hm); [done|].
        by exists l', g'.
      * destruct (IH Hidle' (emit (EvGetSemaphoreCounterValue k) g))
          as (l' & g' & -> & Hm); [done|].
        simpl. by eexists _, g'.
      * destruct (IH Hidle' (emit (EvGetSemaphoreCounterValue k) g))
          as (l' & g' & -> & Hm); [done|].
        simpl. by eexists _, g'.
Qed.
End semaphore_round_trip.

(** X14. [depend(r, sem, v)], then a [collect] that finds [sem] at
    [v] or above and no other trigger ready, leaves the resource map as
    it was, up to a value-initialised record for [r] when it had none.
    For [r = nullptr] the count that [depend] raised stays raised:
    [collect] does not resolve a null dependent. *)
Theorem depend_on_semaphore_then_collect_restores n g fuel dev r s v :
  reachable n g → (n < SIZE_MAX)%N → (v ≤ dev s)%N →
  (∀ k i t, (k, i) ∈ semaphore_dependencies g → t ∈ triggers i →
            (dev k < value t)%N) →
  ∃ g',
    collect (S fuel) dev (depend_semaphore r s v g) = Done g'
    ∧ resources g'
      = <[r := if decide (r = nullptr)
               then set_count size_incr (resources_index r (resources g))
               else resources_index r (resources g)]> (resources g).
Proof.
  intros Hr Hn Hv Hidle.
  assert (consistent n g) as Hg by (apply reachable_consistent; [done|lia]).
  set (i0 := resources_index r (resources g)).
  assert (dependency_count i0 < SIZE_MAX)%N as Hc.
  { pose proof (con_bound _ _ Hg r) as Hb. unfold refcount in Hb.
    fold i0 in Hb. lia. }
  assert (is_eligible i0 = false) as He0 by apply (index_not_eligible n g r Hg).
  set (t := {| value := v; dependent := r; callback := None |}).
  set (M := <[r := if decide (r = nullptr) then set_count size_incr i0 else i0]>
              (resources g)).
  set (gd := depend_semaphore r s v g).
  assert (semaphore_dependencies gd
          = semaphores_modify s (push_trigger t) (semaphore_dependencies g))
    as Hsd by done.
  assert (resources gd
          = resources_modify r (set_count size_incr) (resources g))
    as Hmd by done.
  clearbody gd. unfold collect. cbn [emit semaphore_dependencies].
  rewrite Hsd.
  destruct (collect_loop_one_ready (S fuel) dev s t M
              (semaphore_dependencies g) Hv Hidle
              (emit EvLock gd))
    as (l' & g' & Hrun & Hm).
  { intros g0 Hm0. simpl in Hm0. rewrite Hmd in Hm0. fold i0 in Hm0.
    unfold fire.
    subst M t. cbn [callback dependent].
    destruct (decide (r = nullptr)) as [->|Hne].
    - rewrite N.eqb_refl. by exists g0.
    - apply N.eqb_neq in Hne. rewrite Hne.
      assert (resources g0 !! r = Some (set_count size_incr i0)) as Hl.
      { rewrite Hm0. unfold resources_modify. by rewrite lookup_insert_eq. }
      assert (resources (decrement r g0) = <[r := i0]> (resources g)) as Hd.
      { unfold decrement, resources_modify, resources_index. simpl.
        rewrite Hl, Hm0. simpl. unfold resources_modify.
        rewrite insert_insert_eq. f_equal. unfold set_count. simpl.
        rewrite incr_decr by done. by destruct i0. }
      exists (decrement r g0). split; [|done].
      apply (check_delete_blocked fuel r _ i0); [|done].
      by rewrite Hd, lookup_insert_eq. }
  rewrite Hrun. simpl. eexists. split; [done|]. simpl.
  by rewrite Hm.
Qed.

(** ** The operations that only register *)

Section registration.
Implicit Types (g : garbage_collector) (m : gmap N dependency_info).

Lemma records_kept_refl m : records_kept m m.
Proof. intros x i Hx. by exists i. Qed.

Lemma records_kept_trans m1 m2 m3 :
  records_kept m1 m2 → records_kept m2 m3 → records_kept m1 m3.
Proof.
  intros H1 H2 x i Hx. destruct (H1 x i Hx) as (i2 & Hx2 & Hc2 & Hd2).
  destruct (H2 x i2 Hx2) as (i3 & Hx3 & Hc3 & Hd3).
  exists i3. split_and!; [done|congruence|by etrans].
Qed.

Lemma records_kept_modify r f m :
  (∀ i, cleanup (f i) = cleanup i
        ∧ dependents i `prefix_of` dependents (f i)) →
  records_kept m (resources_modify r f m).
Proof.
  intros Hf x i Hx. destruct (decide (x = r)) as [->|Hne].
  - rewrite lookup_modify_eq. eexists. split; [done|].
    unfold resources_index. rewrite Hx. simpl. apply Hf.
  - rewrite lookup_modify_ne by done. by exists i.
Qed.

Lemma records_kept_increments l :
  ∀ g, records_kept (resources g)
         (resources (foldl (λ g used, increment used g) g l)).
Proof.
  induction l as [|d l IH]; intros g; simpl; [apply records_kept_refl|].
  eapply records_kept_trans; [|apply IH]. simpl.
  by apply records_kept_modify.
Qed.

Lemma depend_many_kept used user g :
  trace (depend_many used user g) = trace g ++ [EvLock; EvUnlock]
  ∧ records_kept (resources g) (resources (depend_many used user g))
  ∧ semaphore_dependencies (depend_many used user g)
    = semaphore_dependencies g.
Proof.
  unfold depend_many. split_and!.
  - simpl. rewrite increments_trace. simpl. by rewrite <-(assoc_L (++)).
  - simpl. eapply records_kept_trans; [|apply records_kept_increments].
    simpl. apply records_kept_modify. intros i. split; [done|].
    simpl. by apply prefix_app_r.
  - simpl.
    assert (∀ l g0, semaphore_dependencies
                      (foldl (λ g x, increment x g) g0 l)
                    = semaphore_dependencies g0) as H.
    { induction l as [|d l IH]; intros g0; simpl; [done|]. by rewrite IH. }
    by rewrite H.
Qed.
End registration.

Section registration_semaphores.
Implicit Types (l : list (N * semaphore_info)).

Lemma semaphores_kept_refl l : semaphores_kept l l.
Proof. intros s info Hin. by exists info. Qed.

Lemma semaphores_modify_kept sem f l :
  (∀ i, triggers i ⊆+ triggers (f i)
        ∧ (should_destroy i = true → should_destroy (f i) = true)) →
  semaphores_kept l (semaphores_modify sem f l).
Proof.
  intros Hf. induction l as [|[k i] l IH]; intros s info Hin.
  - by apply elem_of_nil in Hin.
  - simpl. apply elem_of_cons in Hin as [[= -> ->]|Hin].
    + destruct (k =? sem)%N.
      * exists (f i). split; [by left|apply Hf].
      * exists i. split; [by left|done].
    + destruct (k =? sem)%N.
      * exists info. split; [by right|done].
      * destruct (IH s info Hin) as (info' & Hin' & H).
        exists info'. split; [by right|done].
Qed.

Lemma push_trigger_kept t i :
  triggers i ⊆+ triggers (push_trigger t i)
  ∧ (should_destroy i = true → should_destroy (push_trigger t i) = true).
Proof.
  split; [|done]. simpl. rewrite pq_push_perm. by apply submseteq_cons.
Qed.
End registration_semaphores.

(** X15. [release] of a semaphore, [depend], [depend_many], [depend]
    on a semaphore and [add_trigger] only take and release the mutex:
    they invoke no cleanup and no callback and call nothing on the
    device. They remove no resource record, change no cleanup and extend
    [dependents] vectors at their end only; they remove no semaphore
    record, no trigger of one and no mark for destruction. *)
Theorem registration_runs_nothing fuel o g g' :
  (∀ r c, o ≠ Release r c) → (∀ dev, o ≠ Collect dev) →
  (∀ dev dev_idle, o ≠ WaitCollect dev dev_idle) →
  exec fuel o g = Done g' →
  trace g' = trace g ++ [EvLock; EvUnlock]
  ∧ records_kept (resources g) (resources g')
  ∧ semaphores_kept (semaphore_dependencies g) (semaphore_dependencies g').
Proof.
  intros H1 H2 H3.
  destruct o; simpl; try (by destruct (H1 resource c));
    try (by destruct (H2 dev)); try (by destruct (H3 dev dev_idle));
    intros [= <-].
  - split_and!.
    + simpl. by rewrite <-(assoc_L (++)).
    + apply records_kept_refl.
    + by apply semaphores_modify_kept.
  - destruct (depend_many_kept [used_resource] user_resource g)
      as (? & ? & Hs).
    split_and!; [done..|]. unfold depend. rewrite Hs.
    apply semaphores_kept_refl.
  - destruct (depend_many_kept used_resources user_resource g)
      as (? & ? & Hs).
    split_and!; [done..|]. rewrite Hs. apply semaphores_kept_refl.
  - split_and!.
    + simpl. by rewrite <-(assoc_L (++)).
    + simpl. by apply records_kept_modify.
    + apply semaphores_modify_kept. intros i. apply push_trigger_kept.
  - split_and!.
    + simpl. by rewrite <-(assoc_L (++)).
    + apply records_kept_refl.
    + apply semaphores_modify_kept. intros i. apply push_trigger_kept.
Qed.

(** ** The order of cleanups *)

Section cleanup_order.
Implicit Types (g : garbage_collector) (K : list N) (evs : list event).
Variables user used : N.

Lemma cleaned_in_order_app (e1 e2 : list event) :
  cleaned_in_order user used e1 = true →
  0 < cleanups_of user e1 ∨ cleaned_in_order user used e2 = true →
  cleaned_in_order user used (e1 ++ e2) = true.
Proof.
  induction e1 as [|e e1 IH]; simpl.
  - intros _ [?|?]; [lia|done].
  - destruct e; try done.
    destruct (decide (resource = user)) as [->|Hne]; [done|].
    destruct (decide (resource = used)); [done|]. simpl. exact IH.
Qed.

Lemma holds_edge_kept g g' :
  records_kept (resources g) (resources g') →
  holds_edge g user used → holds_edge g' user used.
Proof.
  intros H (i & Hi & Hd). destruct (H user i Hi) as (i' & Hi' & _ & Hp).
  exists i'. split; [done|]. by eapply elem_of_prefix.
Qed.

Lemma holds_edge_modify g g' r f :
  resources g' = resources_modify r f (resources g) →
  (∀ i d, d ∈ dependents i → d ∈ dependents (f i)) →
  holds_edge g user used → holds_edge g' user used.
Proof.
  intros Hm Hf (i & Hi & Hd). unfold holds_edge. rewrite Hm.
  destruct (decide (user = r)) as [->|Hne].
  - rewrite lookup_modify_eq. eexists. split; [done|].
    unfold resources_index. rewrite Hi. simpl. by apply Hf.
  - rewrite lookup_modify_ne by done. by exists i.
Qed.

Lemma user_first_refl K g : user_first user used K g g.
Proof.
  exists []. split; [by rewrite (right_id_L [] (++))|]. intros _ He.
  split; [done|by right].
Qed.

Lemma user_first_trans K g1 g2 g3 :
  user_first user used K g1 g2 → user_first user used K g2 g3 →
  user_first user used K g1 g3.
Proof.
  intros (e1 & Ht1 & H1) (e2 & Ht2 & H2). exists (e1 ++ e2). split.
  - by rewrite Ht2, Ht1, (assoc_L (++)).
  - intros HK He. destruct (H1 HK He) as [Ho1 [Hu|He2]].
    + split; [apply cleaned_in_order_app; auto|].
      left. rewrite cleanups_of_app. lia.
    + destruct (H2 HK He2) as [Ho2 Hr].
      split; [apply cleaned_in_order_app; auto|].
      destruct Hr as [Hu|He3]; [|by right].
      left. rewrite cleanups_of_app. lia.
Qed.

Lemma user_first_emit K g e :
  (∀ r f, e ≠ EvCleanup r f) → user_first user used K g (emit e g).
Proof.
  intros Hne. exists [e]. split; [done|]. intros _ He. split; [|by right].
  destruct e; try done. by destruct (Hne resource f).
Qed.

Lemma user_first_decrement K g d :
  (0 < refcount g d)%N → user_first user used K g (decrement d g).
Proof.
  intros _. eexists [_]. split; [done|]. intros _ He. split; [done|].
  right. apply (holds_edge_kept g); [|done]. simpl.
  by apply records_kept_modify.
Qed.

Lemma user_first_delete K E g r it f g2 :
  accounted K E g → zero_counts K g → r ∉ K →
  resources g !! r = Some it → dependency_count it = 0%N →
  cleanup it = Some f →
  user_first user used (r :: K) (emit (EvCleanup r f) g) g2 →
  user_first user used K g (erase r g2).
Proof.
  intros Hacc _ HrK Hit Hz Hf (evs & Htr & H).
  exists (EvCleanup r f :: evs). split.
  { simpl in *. by rewrite Htr, <-(assoc_L (++)). }
  intros HK He. simpl.
  destruct (decide (r = user)) as [->|Hne].
  { split; [done|]. left. lia. }
  assert (r ≠ used) as Hnd.
  { intros ->. destruct He as (i & Hi & Hd).
    destruct (Hacc used) as [H1 _]. rewrite occurrences_app in H1.
    pose proof (occurrences_elem_of used _
                  (elem_of_pending_outside K _ user i used Hi HK Hd)).
    rewrite (refcount_present g used it Hit) in H1. lia. }
  rewrite decide_False by done.
  destruct H as [Ho Hr]; [|done|].
  { rewrite not_elem_of_cons. split; [by intros ->|done]. }
  split; [done|].
  destruct Hr as [Hu|(i & Hi & Hd)]; [left; lia|right].
  exists i. split; [|done]. simpl. by rewrite lookup_delete_ne.
Qed.

Lemma user_first_semaphores K g l :
  user_first user used K g (with_semaphores l g).
Proof.
  exists []. split; [by rewrite (right_id_L [] (++))|]. intros _ He.
  split; [done|by right].
Qed.

Lemma exec_user_first fuel n o g g' :
  consistent n g → enough_fuel g ≤ fuel → exec fuel o g = Done g' →
  user_first user used [] g g'.
Proof.
  intros Hg Hfuel Hrun.
  assert (∀ g1, trace g1 = trace g ++ [EvLock; EvUnlock] →
                records_kept (resources g) (resources g1) →
                user_first user used [] g g1) as Hreg.
  { intros g1 Htr Hk. exists [EvLock; EvUnlock]. split; [done|].
    intros _ He. split; [done|]. right. by apply (holds_edge_kept g). }
  destruct o; simpl in Hrun.
  - unfold release in Hrun.
    change (with_resources _ (emit EvLock g)) with (released resource c g)
      in Hrun.
    destruct (check_delete _ _ _) as [g1| |] eqn:Hcd; simpl in Hrun; try done.
    injection Hrun as <-.
    eapply user_first_trans; [|by apply user_first_emit].
    eapply user_first_trans;
      [|by apply (guarded_release (user_first user used) user_first_refl
                    user_first_trans user_first_decrement user_first_delete
                    fuel n g resource c g1)].
    exists [EvLock]. split; [done|]. intros _ He. split; [done|]. right.
    by apply (holds_edge_modify g _ resource (set_cleanup c)).
  - injection Hrun as <-. apply Hreg; [|apply records_kept_refl].
    simpl. by rewrite <-(assoc_L (++)).
  - injection Hrun as <-.
    destruct (depend_many_kept [used_resource] user_resource g) as (? & ? & _).
    by apply Hreg.
  - injection Hrun as <-.
    destruct (depend_many_kept used_resources user_resource g) as (? & ? & _).
    by apply Hreg.
  - injection Hrun as <-. apply Hreg.
    + simpl. by rewrite <-(assoc_L (++)).
    + simpl. by apply records_kept_modify.
  - injection Hrun as <-. apply Hreg; [|apply records_kept_refl].
    simpl. by rewrite <-(assoc_L (++)).
  - by apply (guarded_collect (user_first user used) user_first_refl
                user_first_trans user_first_emit user_first_decrement
                user_first_delete user_first_semaphores fuel n g dev g').
  - by apply (guarded_wait_collect (user_first user used) user_first_refl
                user_first_trans user_first_emit user_first_decrement
                user_first_delete user_first_semaphores
                fuel n g dev dev_idle g').
Qed.

Lemma run_user_first fuel ops :
  ∀ n g g',
    consistent n g → (n + registered_all ops ≤ SIZE_MAX)%N →
    run fuel ops g = Done g' → user_first user used [] g g'.
Proof.
  unfold run. induction ops as [|o ops IH]; intros n g g' Hg Hn;
    cbn [for_each].
  - intros [= <-]. apply user_first_refl.
  - destruct (exec fuel o g) as [g1| |] eqn:Ho; cbn [outcome_bind]; try done.
    intros Hrun. simpl in Hn.
    assert (consistent (n + registered o) g1) as Hg1.
    { apply (exec_consistent_any fuel n o g g1); [done|lia|done]. }
    eapply user_first_trans.
    + apply (exec_user_first (fuel `max` enough_fuel g) n o g g1);
        [done|lia|]. apply (exec_fuel fuel); [done|lia].
    + apply (IH (n + registered o)%N g1 g' Hg1); [lia|done].
Qed.
End cleanup_order.

(** X16. While [user] uses [used], the cleanup of [used] does not
    run: over any run from a reachable state in which the record of
    [user] has [used] among its [dependents], no cleanup of [used] is
    invoked before a cleanup of [user], and at the end the cleanup of
    [user] has run or [user] still uses [used]. *)
Theorem user_is_cleaned_up_before_used user used fuel ops n g g' :
  reachable n g → (n + registered_all ops ≤ SIZE_MAX)%N →
  holds_edge g user used → run fuel ops g = Done g' →
  ∃ evs, trace g' = trace g ++ evs
         ∧ cleaned_in_order user used evs = true
         ∧ (0 < cleanups_of user evs ∨ holds_edge g' user used).
Proof.
  intros Hr Hn He Hrun.
  assert (consistent n g) as Hg by (apply reachable_consistent; [done|lia]).
  destruct (run_user_first user used fuel ops n g g' Hg Hn Hrun)
    as (evs & Htr & H).
  exists evs. split; [done|]. apply H; [apply not_elem_of_nil|done].
Qed.

(** X17. A [collect] that finds a semaphore below the value of one
    of its pending triggers does not invoke the cleanup of the dependent
    of that trigger, whose record stays in the map with a positive
    count. *)
Theorem resource_waits_for_its_semaphore n g fuel dev sem info t :
  reachable n g → (n ≤ SIZE_MAX)%N → enough_fuel g ≤ fuel →
  (sem, info) ∈ semaphore_dependencies g → t ∈ triggers info →
  dependent t ≠ nullptr → (dev sem < value t)%N →
  ∃ g' evs,
    collect fuel dev g = Done g' ∧ trace g' = trace g ++ evs
    ∧ cleanups_of (dependent t) evs = 0
    ∧ ∃ j, resources g' !! dependent t = Some j
           ∧ (0 < dependency_count j)%N.
Proof.
  intros Hr Hn Hfuel Hin Ht Hd Hv.
  pose proof (reachable_consistent n g Hr Hn) as Hg.
  destruct (collect_spec fuel n g dev Hg Hfuel) as (g1 & Hrun & _ & Hcas).
  destruct (collect_consistent fuel n g dev Hg Hfuel)
    as (g' & Hrun' & Hg' & Hsem & _).
  rewrite Hrun in Hrun'. injection Hrun' as Heq.
  destruct Hcas as [Z M Do Se (evs & Tr & Ok & Cl) El Le Sa].
  assert (dependent t ∈ semaphore_edges (semaphore_dependencies g')) as Hedge.
  { rewrite Hsem.
    pose proof (collect_result_lookup dev _ (con_keys _ _ Hg) sem info Hin)
      as Hres.
    assert (pq_sorted (triggers info)) as Hq.
    { pose proof (con_sorted _ _ Hg) as Hs. rewrite Forall_forall in Hs.
      apply (Hs _ Hin). }
    assert (t ∈ drop_ready (dev sem) (triggers info)) as Ht'.
    { rewrite drop_ready_filter by done. apply list_elem_of_filter.
      by split. }
    unfold semaphore_edges. apply list_elem_of_bind.
    destruct (drop_ready (dev sem) (triggers info)) as [|h q] eqn:Hdr;
      [by apply elem_of_nil in Ht'|].
    eexists. split; [|exact Hres].
    change (dependent t ∈ queue_edges (h :: q)).
    unfold queue_edges. apply list_elem_of_bind. exists t. split; [|done].
    unfold trigger_edge. apply N.eqb_neq in Hd. rewrite Hd. by left. }
  destruct (con_accounted _ _ Hg' (dependent t)) as [H1 _].
  rewrite occurrences_app in H1.
  pose proof (occurrences_elem_of _ _ Hedge) as Hpos.
  assert (0 < refcount g' (dependent t))%N as Hrc by lia.
  destruct (refcount_positive_present g' _ Hrc) as [j Hj].
  exists g', (EvLock :: evs ++ [EvUnlock]). split_and!.
  - by rewrite Hrun, Heq.
  - rewrite <-Heq. simpl. rewrite Tr. simpl. by rewrite <-!(assoc_L (++)).
  - rewrite cleanups_of_locked, Cl. unfold deleted.
    rewrite <-Heq in Hj. simpl in Hj. simpl. rewrite Hj.
    by destruct (resources g !! dependent t).
  - exists j. split; [done|]. by rewrite <-(refcount_present g' _ j Hj).
Qed.

(** ** Records that are not released *)

Section unreleased.
Implicit Types (g : garbage_collector) (K : list N).
Variable x : N.

Lemma unreleased_kept_refl K g : unreleased_kept x K g g.
Proof. intros i Hi Hc. by exists i. Qed.

Lemma unreleased_kept_trans K g1 g2 g3 :
  unreleased_kept x K g1 g2 → unreleased_kept x K g2 g3 →
  unreleased_kept x K g1 g3.
Proof.
  intros H1 H2 i Hi Hc. destruct (H1 i Hi Hc) as (i2 & Hi2 & Hc2).
  by apply (H2 i2).
Qed.

Lemma unreleased_kept_emit K g e :
  (∀ r f, e ≠ EvCleanup r f) → unreleased_kept x K g (emit e g).
Proof. intros _ i Hi Hc. by exists i. Qed.

Lemma unreleased_kept_modify K g g' r f :
  resources g' = resources_modify r f (resources g) →
  (∀ i, cleanup i = None → cleanup (f i) = None) →
  unreleased_kept x K g g'.
Proof.
  intros Hm Hf i Hi Hc. rewrite Hm.
  destruct (decide (x = r)) as [->|Hne].
  - rewrite lookup_modify_eq. eexists. split; [done|].
    unfold resources_index. rewrite Hi. simpl. by apply Hf.
  - rewrite lookup_modify_ne by done. by exists i.
Qed.

Lemma unreleased_kept_decrement K g d :
  (0 < refcount g d)%N → unreleased_kept x K g (decrement d g).
Proof.
  intros _. by apply (unreleased_kept_modify K g _ d (set_count size_decr)).
Qed.

Lemma unreleased_kept_delete K E g r it f g2 :
  accounted K E g → zero_counts K g → r ∉ K →
  resources g !! r = Some it → dependency_count it = 0%N →
  cleanup it = Some f →
  unreleased_kept x (r :: K) (emit (EvCleanup r f) g) g2 →
  unreleased_kept x K g (erase r g2).
Proof.
  intros _ _ _ Hit _ Hf H i Hi Hc.
  destruct (H i Hi Hc) as (i' & Hi' & Hc'). exists i'. split; [|done].
  simpl. rewrite lookup_delete_ne; [done|]. intros ->. congruence.
Qed.

Lemma unreleased_kept_semaphores K g l :
  unreleased_kept x K g (with_semaphores l g).
Proof. intros i Hi Hc. by exists i. Qed.

Lemma unreleased_kept_records K g g' :
  records_kept (resources g) (resources g') → unreleased_kept x K g g'.
Proof.
  intros H i Hi Hc. destruct (H x i Hi) as (i' & Hi' & Hc' & _).
  exists i'. split; [done|congruence].
Qed.

Lemma exec_unreleased_kept fuel n o g g' :
  consistent n g → enough_fuel g ≤ fuel → exec fuel o g = Done g' →
  releases_of x [o] = 0 → unreleased_kept x [] g g'.
Proof.
  intros Hg Hfuel Hrun Hrel. destruct o; simpl in Hrun.
  - unfold release in Hrun.
    change (with_resources _ (emit EvLock g)) with (released resource c g)
      in Hrun.
    destruct (check_delete _ _ _) as [g1| |] eqn:Hcd; simpl in Hrun; try done.
    injection Hrun as <-.
    eapply unreleased_kept_trans; [|by apply unreleased_kept_emit].
    eapply unreleased_kept_trans;
      [|by apply (guarded_release (unreleased_kept x) unreleased_kept_refl
                    unreleased_kept_trans unreleased_kept_decrement
                    unreleased_kept_delete fuel n g resource c g1)].
    intros i Hi Hc. unfold released. simpl.
    destruct (decide (x = resource)) as [->|Hne].
    + rewrite lookup_modify_eq. eexists. split; [done|]. simpl.
      destruct c as [f|]; [|done]. simpl in Hrel.
      rewrite decide_True in Hrel by done. lia.
    + rewrite lookup_modify_ne by done. by exists i.
  - injection Hrun as <-. apply unreleased_kept_records, records_kept_refl.
  - injection Hrun as <-. apply unreleased_kept_records.
    by destruct (depend_many_kept [used_resource] user_resource g)
      as (_ & ? & _).
  - injection Hrun as <-. apply unreleased_kept_records.
    by destruct (depend_many_kept used_resources user_resource g)
      as (_ & ? & _).
  - injection Hrun as <-. apply unreleased_kept_records. simpl.
    by apply records_kept_modify.
  - injection Hrun as <-. apply unreleased_kept_records, records_kept_refl.
  - by apply (guarded_collect (unreleased_kept x) unreleased_kept_refl
                unreleased_kept_trans unreleased_kept_emit
                unreleased_kept_decrement unreleased_kept_delete
                unreleased_kept_semaphores fuel n g dev g').
  - by apply (guarded_wait_collect (unreleased_kept x) unreleased_kept_refl
                unreleased_kept_trans unreleased_kept_emit
                unreleased_kept_decrement unreleased_kept_delete
                unreleased_kept_semaphores fuel n g dev dev_idle g').
Qed.

Lemma run_unreleased_kept fuel ops :
  ∀ n g g',
    consistent n g → (n + registered_all ops ≤ SIZE_MAX)%N →
    run fuel ops g = Done g' → releases_of x ops = 0 →
    unreleased_kept x [] g g'.
Proof.
  unfold run. induction ops as [|o ops IH]; intros n g g' Hg Hn;
    cbn [for_each].
  - intros [= <-] _. apply unreleased_kept_refl.
  - destruct (exec fuel o g) as [g1| |] eqn:Ho; cbn [outcome_bind]; try done.
    intros Hrun Hrel. simpl in Hn.
    assert (releases_of x [o] = 0 ∧ releases_of x ops = 0) as [Hr1 Hr2].
    { destruct o as [r [f|]| | | | | | |]; simpl in *; lia. }
    assert (consistent (n + registered o) g1) as Hg1.
    { apply (exec_consistent_any fuel n o g g1); [done|lia|done]. }
    eapply unreleased_kept_trans.
    + apply (exec_unreleased_kept (fuel `max` enough_fuel g) n o g g1);
        [done|lia| |done]. apply (exec_fuel fuel); [done|lia].
    + apply (IH (n + registered o)%N g1 g' Hg1); [lia|done..].
Qed.
End unreleased.

(** C7, amended. In every reachable state a record of the map has a
    positive count or no cleanup: a record whose count is [0] and whose
    cleanup is set does not outlive the operation that made it so. The
    dependent of a pending trigger has a record with a positive count.
    The first mention of an identity by [depend_many], [depend],
    [depend] on a semaphore or [release] materialises a
    value-initialised record for it, which the operation then updates.
    And a record that has no cleanup (an identity that was mentioned and
    is not released yet), whatever its count, stays in the map without
    a cleanup across every run of operations in which it is not handed
    a non-empty cleanup by [release]. *)
Theorem record_exists_while_blocked_or_unreleased n g :
  reachable n g → (n ≤ SIZE_MAX)%N →
  (∀ x i, resources g !! x = Some i →
          (0 < dependency_count i)%N ∨ cleanup i = None)
  ∧ (∀ x, x ∈ semaphore_edges (semaphore_dependencies g) →
          ∃ i, resources g !! x = Some i ∧ (0 < dependency_count i)%N)
  ∧ (∀ r, resources g !! r = None →
       resources_index r (resources g) = dependency_info_default
       ∧ (∀ used, r ∉ used →
            resources (depend_many used r g) !! r
            = Some {| dependency_count := 0; dependents := used;
                      cleanup := None |})
       ∧ (∀ user, user ≠ r →
            resources (depend r user g) !! r
            = Some {| dependency_count := 1; dependents := [];
                      cleanup := None |})
       ∧ (∀ timeline v,
            resources (depend_semaphore r timeline v g) !! r
            = Some {| dependency_count := 1; dependents := [];
                      cleanup := None |})
       ∧ (∀ c,
            resources (released r c g) !! r
            = Some {| dependency_count := 0; dependents := [];
                      cleanup := c |}))
  ∧ (∀ fuel ops g' x i,
       (n + registered_all ops ≤ SIZE_MAX)%N → run fuel ops g = Done g' →
       resources g !! x = Some i → cleanup i = None →
       releases_of x ops = 0 →
       ∃ i', resources g' !! x = Some i' ∧ cleanup i' = None).
Proof.
  intros Hr Hn. pose proof (reachable_consistent n g Hr Hn) as Hg.
  destruct Hg as [A B S T Q D].
  split_and!.
  - intros x i Hx. specialize (S x i Hx). unfold is_eligible in S.
    destruct (N.eqb_spec (dependency_count i) 0); [|lia].
    destruct (cleanup i); [done|by right].
  - intros x Hx. destruct (A x) as [H1 _].
    assert (0 < refcount g x)%N as Hpos.
    { rewrite occurrences_app in H1.
      pose proof (occurrences_elem_of x _ Hx). lia. }
    destruct (refcount_positive_present g x Hpos) as [i Hi].
    exists i. split; [done|]. by rewrite <-(refcount_present g x i Hi).
  - intros r Hnone.
    assert (resources_index r (resources g) = dependency_info_default) as Hd.
    { unfold resources_index. by rewrite Hnone. }
    split_and!; [done|..].
    + intros used Hu. unfold depend_many. simpl.
      rewrite increments_lookup_ne by done. simpl.
      by rewrite lookup_modify_eq, Hd.
    + intros user Hu. unfold depend, depend_many. simpl.
      rewrite lookup_modify_eq, index_modify, decide_False by done.
      by rewrite Hd.
    + intros timeline v. unfold depend_semaphore. simpl.
      by rewrite lookup_modify_eq, Hd.
    + intros c. unfold released. simpl. by rewrite lookup_modify_eq, Hd.
  - intros fuel ops g' x i Hmax Hrun Hx Hc Hrel.
    apply (run_unreleased_kept x fuel ops n g g'
             (reachable_consistent n g Hr Hn) Hmax Hrun Hrel i Hx Hc).
Qed.

Lemma record_exists_while_blocked_or_unreleased_witness :
  reachable 2 example_chain ∧ (2 ≤ SIZE_MAX)%N
  ∧ (∀ x i, resources example_chain !! x = Some i →
            (0 < dependency_count i)%N ∨ cleanup i = None)
  ∧ resources example_chain !! 3%N
    = Some {| dependency_count := 0; dependents := [2%N]; cleanup := None |}
  ∧ ∃ i',
      resources
        (done_or_init
           (run 3 [Collect (λ _, 9%N); Release 1 (Some 21%N)] example_chain))
      !! 3%N = Some i'
      ∧ cleanup i' = None.
Proof.
  pose proof example_chain_reachable as Hr.
  assert (2 ≤ SIZE_MAX)%N as Hn by (by apply small_bound).
  assert (resources example_chain !! 3%N
          = Some {| dependency_count := 0; dependents := [2%N];
                    cleanup := None |}) as H3 by (by vm_compute).
  destruct (record_exists_while_blocked_or_unreleased 2 example_chain Hr Hn)
    as (H & _ & _ & Hstay).
  split_and!; [done..|].
  set (ops := [Collect (λ _, 9%N); Release 1 (Some 21%N)]).
  assert (2 + registered_all ops ≤ SIZE_MAX)%N as Hmax
    by (by apply small_bound).
  assert (run 3 ops example_chain
          = Done (done_or_init (run 3 ops example_chain))) as Hrun
    by (by vm_compute).
  exact (Hstay 3 ops _ 3%N _ Hmax Hrun H3 eq_refl eq_refl).
Defined.

(** ** Example runs of the further properties *)

Lemma example_cycle_reachable : reachable 1 example_cycle.
Proof.
  apply (run_reachable 1 [Depend 1 1; Release 1 (Some 11%N)] 0 gc_init);
    [constructor|]. by vm_compute.
Qed.

Lemma used_resource_outlives_user_witness :
  reachable 2 example_chain ∧ (2 ≤ SIZE_MAX)%N
  ∧ resources example_chain !! 2%N
    = Some {| dependency_count := 1; dependents := [1%N];
              cleanup := Some 12%N |}
  ∧ 1%N ∈ [1%N]
  ∧ ∃ j, resources example_chain !! 1%N = Some j
         ∧ (0 < dependency_count j)%N ∧ is_eligible j = false.
Proof.
  pose proof example_chain_reachable as Hr.
  assert (2 ≤ SIZE_MAX)%N as Hn by (by apply small_bound).
  assert (resources example_chain !! 2%N
          = Some {| dependency_count := 1; dependents := [1%N];
                    cleanup := Some 12%N |}) as H2 by (by vm_compute).
  assert (1%N ∈ [1%N]) as H1 by (by left).
  split_and!; [done..|].
  exact (used_resource_outlives_user 2 example_chain Hr Hn 2%N _ 1%N H2 H1).
Defined.

Lemma operations_return_witness :
  reachable 2 example_chain ∧ (2 + 0 ≤ SIZE_MAX)%N
  ∧ length (semaphore_edges (semaphore_dependencies example_chain))
      + length (pending [] (resources example_chain)) < 3
  ∧ ∃ g', exec 3 (Release 3 (Some 13%N)) example_chain = Done g'
          ∧ reachable (2 + 0) g'.
Proof.
  pose proof example_chain_reachable as Hr.
  assert (2 + 0 ≤ SIZE_MAX)%N as Hn by (by apply small_bound).
  assert (length (semaphore_edges (semaphore_dependencies example_chain))
            + length (pending [] (resources example_chain)) < 3) as Hf.
  { vm_compute. lia. }
  split_and!; [done..|].
  exact (operations_return 2 example_chain (Release 3 (Some 13%N)) 3 Hr Hn Hf).
Defined.

Lemma release_of_unknown_resource_witness :
  resources gc_init !! 1%N = None
  ∧ release 1 1 (Some 11%N) gc_init
    = Done (emit EvUnlock (emit (EvCleanup 1 11) (emit EvLock gc_init))).
Proof.
  split; [done|].
  exact (release_of_unknown_resource 0 1 11 gc_init eq_refl).
Defined.

Lemma release_replaces_cleanup_of_blocked_resource_witness :
  resources example_chain !! 1%N
  = Some {| dependency_count := 1; dependents := []; cleanup := Some 11%N |}
  ∧ (0 < 1)%N
  ∧ ∃ g1 g2,
      release 1 1 (Some 21%N) example_chain = Done g1
      ∧ release 1 1 (Some 22%N) g1 = Done g2
      ∧ resources g2
        = <[1%N := {| dependency_count := 1; dependents := [];
                      cleanup := Some 22%N |}]> (resources example_chain)
      ∧ trace g2
        = trace example_chain ++ [EvLock; EvUnlock; EvLock; EvUnlock].
Proof.
  assert (resources example_chain !! 1%N
          = Some {| dependency_count := 1; dependents := [];
                    cleanup := Some 11%N |}) as H1 by (by vm_compute).
  assert (0 < 1)%N as Hp by lia.
  split_and!; [done..|].
  destruct (release_replaces_cleanup_of_blocked_resource
              0 0 1 (Some 21%N) (Some 22%N) example_chain _ H1 Hp)
    as (g1 & g2 & ? & _ & _ & ? & ? & ?).
  by exists g1, g2.
Defined.

Lemma depend_then_release_restores_witness :
  reachable 0 gc_init ∧ (0 < SIZE_MAX)%N
  ∧ resources gc_init !! 2%N = None ∧ 1%N ≠ 2%N
  ∧ ∃ g', release 2 2 (Some 12%N) (depend 1 2 gc_init) = Done g'
          ∧ resources g' = <[1%N := dependency_info_default]> ∅.
Proof.
  assert (reachable 0 gc_init) as Hr by constructor.
  assert (0 < SIZE_MAX)%N as Hn by done.
  assert (1%N ≠ 2%N) as Hne by done.
  split_and!; [done..|].
  destruct (depend_then_release_restores 0 gc_init 0 1 2 12 Hr Hn eq_refl Hne)
    as (g' & ? & ? & _).
  by exists g'.
Defined.

Lemma collect_again_only_polls_witness :
  collect 3 (λ _, 4%N) example_semaphores
  = Done (done_or_init (collect 3 (λ _, 4%N) example_semaphores))
  ∧ ∃ g2,
      collect 0 (λ _, 4%N)
        (done_or_init (collect 3 (λ _, 4%N) example_semaphores)) = Done g2
      ∧ resources g2
        = resources (done_or_init (collect 3 (λ _, 4%N) example_semaphores)).
Proof.
  assert (collect 3 (λ _, 4%N) example_semaphores
          = Done (done_or_init (collect 3 (λ _, 4%N) example_semaphores)))
    as H by (by vm_compute).
  split; [done|].
  destruct (collect_again_only_polls 3 0 (λ _, 4%N) example_semaphores _ H)
    as (g2 & ? & ? & _).
  by exists g2.
Defined.

Lemma example_collected_reachable : reachable (1 + 0) example_collected.
Proof.
  apply (run_reachable 3 [Collect (λ _, 9%N)] 1 example_semaphores);
    [apply example_semaphores_reachable|]. by vm_compute.
Qed.

Lemma mutex_is_held_around_every_access_witness :
  reachable (1 + 0) example_collected
  ∧ lock_state false (trace example_collected) = Some false
  ∧ (∃ pre post,
       trace example_collected = pre ++ EvCallback 21 :: post
       ∧ lock_held pre = true)
  ∧ (∃ pre post,
       trace example_collected = pre ++ EvCleanup 1 11 :: post
       ∧ lock_held pre = true).
Proof.
  pose proof example_collected_reachable as Hr.
  destruct (mutex_is_held_around_every_access (1 + 0) example_collected Hr)
    as [H1 H2].
  split_and!; [done..| |].
  - exists [EvLock; EvUnlock; EvLock; EvUnlock; EvLock; EvUnlock; EvLock;
            EvUnlock; EvLock; EvUnlock; EvLock;
            EvGetSemaphoreCounterValue 7],
           [EvDecrement 1 1; EvCleanup 1 11; EvGetSemaphoreCounterValue 8;
            EvCallback 22; EvDestroySemaphore 8; EvUnlock].
    split; [by vm_compute|]. by eapply H2; [by vm_compute|..].
  - exists [EvLock; EvUnlock; EvLock; EvUnlock; EvLock; EvUnlock; EvLock;
            EvUnlock; EvLock; EvUnlock; EvLock;
            EvGetSemaphoreCounterValue 7; EvCallback 21; EvDecrement 1 1],
           [EvGetSemaphoreCounterValue 8; EvCallback 22;
            EvDestroySemaphore 8; EvUnlock].
    split; [by vm_compute|]. by eapply H2; [by vm_compute|..].
Defined.

Lemma collect_cleans_what_it_removes_witness :
  reachable 1 example_semaphores ∧ (1 ≤ SIZE_MAX)%N
  ∧ enough_fuel example_semaphores ≤ 3
  ∧ ∃ g' evs,
      collect 3 (λ _, 9%N) example_semaphores = Done g'
      ∧ trace g' = trace example_semaphores ++ evs
      ∧ ∀ x, cleanups_of x evs = deleted x example_semaphores g'.
Proof.
  pose proof example_semaphores_reachable as Hr.
  assert (1 ≤ SIZE_MAX)%N as Hn by (by apply small_bound).
  pose proof example_semaphores_fuel as Hf.
  split_and!; [done..|].
  destruct (collect_cleans_what_it_removes 1 example_semaphores 3 (λ _, 9%N)
              Hr Hn Hf) as (g' & evs & ? & ? & ? & _).
  by exists g', evs.
Defined.

Lemma released_semaphore_without_triggers_is_destroyed_witness :
  reachable 1 example_semaphores ∧ (1 ≤ SIZE_MAX)%N
  ∧ enough_fuel example_semaphores ≤ 3
  ∧ (∀ info, (9%N, info) ∈ semaphore_dependencies example_semaphores →
             triggers info = [])
  ∧ ∃ g' evs,
      collect 3 (λ _, 0%N) (release_semaphore 9 example_semaphores) = Done g'
      ∧ trace g' = trace (release_semaphore 9 example_semaphores) ++ evs
      ∧ EvDestroySemaphore 9 ∈ evs
      ∧ 9%N ∉ (semaphore_dependencies g').*1.
Proof.
  pose proof example_semaphores_reachable as Hr.
  assert (1 ≤ SIZE_MAX)%N as Hn by (by apply small_bound).
  pose proof example_semaphores_fuel as Hf.
  assert (∀ info, (9%N, info) ∈ semaphore_dependencies example_semaphores →
                  triggers info = []) as Hq.
  { intros info Hin. exfalso.
    assert (9%N ∈ (semaphore_dependencies example_semaphores).*1) as Hk.
    { apply list_elem_of_fmap. by exists (9%N, info). }
    vm_compute in Hk.
    repeat (apply elem_of_cons in Hk as [Hk|Hk]; [done|]).
    by apply elem_of_nil in Hk. }
  split_and!; [done..|].
  destruct (released_semaphore_without_triggers_is_destroyed
              1 example_semaphores 3 (λ _, 0%N) 9 Hr Hn Hf Hq)
    as (_ & g' & evs & ? & ? & ? & ?).
  by exists g', evs.
Defined.

Lemma cyclic_dependencies_are_never_collected_witness :
  reachable 1 example_cycle ∧ (1 + 0 ≤ SIZE_MAX)%N
  ∧ cycle_closed [1%N] example_cycle
  ∧ run 2 [Collect (λ _, 9%N); WaitCollect (λ _, 9%N) (λ _, 9%N)] example_cycle
    = Done (done_or_init
              (run 2 [Collect (λ _, 9%N); WaitCollect (λ _, 9%N) (λ _, 9%N)]
                 example_cycle))
  ∧ ∃ j, resources
           (done_or_init
              (run 2 [Collect (λ _, 9%N); WaitCollect (λ _, 9%N) (λ _, 9%N)]
                 example_cycle)) !! 1%N = Some j
         ∧ (0 < dependency_count j)%N.
Proof.
  pose proof example_cycle_reachable as Hr.
  assert (1 + 0 ≤ SIZE_MAX)%N as Hn by (by apply small_bound).
  assert (cycle_closed [1%N] example_cycle) as Hc.
  { intros y Hy. apply list_elem_of_singleton in Hy as ->.
    exists 1%N. eexists. split_and!; [by left|by vm_compute|by left]. }
  set (ops := [Collect (λ _, 9%N); WaitCollect (λ _, 9%N) (λ _, 9%N)]).
  assert (run 2 ops example_cycle
          = Done (done_or_init (run 2 ops example_cycle)))
    as Hrun by (by vm_compute).
  split_and!; [done..|].
  destruct (cyclic_dependencies_are_never_collected [1%N] 2 ops 1 example_cycle
              _ Hr Hn Hc Hrun) as (_ & Hrec & _).
  apply (Hrec 1%N). by left.
Defined.

Lemma cleanup_runs_at_most_once_per_release_witness :
  (registered_all
     [Depend 1 2; Depend 2 3; Release 1 (Some 11%N); Release 2 (Some 12%N)]
   ≤ SIZE_MAX)%N
  ∧ run 3 [Depend 1 2; Depend 2 3; Release 1 (Some 11%N); Release 2 (Some 12%N)]
      gc_init = Done example_chain
  ∧ cleanups_of 1 (trace example_chain) + awaiting [] example_chain 1
    ≤ releases_of 1
        [Depend 1 2; Depend 2 3; Release 1 (Some 11%N); Release 2 (Some 12%N)].
Proof.
  set (ops := [Depend 1 2; Depend 2 3; Release 1 (Some 11%N);
               Release 2 (Some 12%N)]).
  assert (registered_all ops ≤ SIZE_MAX)%N as Hn by (by apply small_bound).
  assert (run 3 ops gc_init = Done example_chain) as Hrun by (by vm_compute).
  split_and!; [done..|].
  exact (cleanup_runs_at_most_once_per_release 3 ops example_chain 1 Hn Hrun).
Defined.

Lemma registration_runs_nothing_witness :
  (∀ r c, AddTrigger 7 9 (Some 23%N) ≠ Release r c)
  ∧ (∀ dev, AddTrigger 7 9 (Some 23%N) ≠ Collect dev)
  ∧ (∀ dev dev_idle, AddTrigger 7 9 (Some 23%N) ≠ WaitCollect dev dev_idle)
  ∧ exec 0 (AddTrigger 7 9 (Some 23%N)) example_semaphores
    = Done (add_trigger 7 9 (Some 23%N) example_semaphores)
  ∧ trace (add_trigger 7 9 (Some 23%N) example_semaphores)
    = trace example_semaphores ++ [EvLock; EvUnlock]
  ∧ records_kept (resources example_semaphores)
      (resources (add_trigger 7 9 (Some 23%N) example_semaphores))
  ∧ semaphores_kept (semaphore_dependencies example_semaphores)
      (semaphore_dependencies (add_trigger 7 9 (Some 23%N) example_semaphores)).
Proof.
  assert (∀ r c, AddTrigger 7 9 (Some 23%N) ≠ Release r c) as H1 by done.
  assert (∀ dev, AddTrigger 7 9 (Some 23%N) ≠ Collect dev) as H2 by done.
  assert (∀ dev dev_idle,
            AddTrigger 7 9 (Some 23%N) ≠ WaitCollect dev dev_idle)
    as H3 by done.
  do 4 (split; [done|]).
  exact (registration_runs_nothing 0 (AddTrigger 7 9 (Some 23%N))
           example_semaphores _ H1 H2 H3 eq_refl).
Defined.

Lemma depend_on_semaphore_then_collect_restores_witness :
  reachable 0 gc_init ∧ (0 < SIZE_MAX)%N ∧ (5 ≤ 9)%N
  ∧ (∀ k i t, (k, i) ∈ semaphore_dependencies gc_init → t ∈ triggers i →
              (9 < value t)%N)
  ∧ ∃ g', collect 1 (λ _, 9%N) (depend_semaphore 1 7 5 gc_init) = Done g'
          ∧ resources g' = <[1%N := dependency_info_default]> ∅.
Proof.
  assert (reachable 0 gc_init) as Hr by constructor.
  assert (0 < SIZE_MAX)%N as Hn by done.
  assert (5 ≤ 9)%N as Hv by lia.
  assert (∀ k i t, (k, i) ∈ semaphore_dependencies gc_init → t ∈ triggers i →
                   (9 < value t)%N) as Hi.
  { intros k i t Hin. by apply elem_of_nil in Hin. }
  split_and!; [done..|].
  exact (depend_on_semaphore_then_collect_restores
           0 gc_init 0 (λ _, 9%N) 1 7 5 Hr Hn Hv Hi).
Defined.

Lemma user_is_cleaned_up_before_used_witness :
  reachable 2 example_chain ∧ (2 + 0 ≤ SIZE_MAX)%N
  ∧ holds_edge example_chain 2 1
  ∧ run 3 [Release 3 (Some 13%N)] example_chain
    = Done (done_or_init (run 3 [Release 3 (Some 13%N)] example_chain))
  ∧ ∃ evs,
      trace (done_or_init (run 3 [Release 3 (Some 13%N)] example_chain))
      = trace example_chain ++ evs
      ∧ cleaned_in_order 2 1 evs = true.
Proof.
  pose proof example_chain_reachable as Hr.
  assert (2 + 0 ≤ SIZE_MAX)%N as Hn by (by apply small_bound).
  assert (holds_edge example_chain 2 1) as He.
  { eexists. split; [by vm_compute|by left]. }
  assert (run 3 [Release 3 (Some 13%N)] example_chain
          = Done (done_or_init (run 3 [Release 3 (Some 13%N)] example_chain)))
    as Hrun by (by vm_compute).
  split_and!; [done..|].
  destruct (user_is_cleaned_up_before_used 2 1 3 [Release 3 (Some 13%N)]
              2 example_chain _ Hr Hn He Hrun) as (evs & ? & ? & _).
  by exists evs.
Defined.

Lemma resource_waits_for_its_semaphore_witness :
  reachable 1 example_semaphores ∧ (1 ≤ SIZE_MAX)%N
  ∧ enough_fuel example_semaphores ≤ 3
  ∧ (7%N, {| triggers := [{| value := 3; dependent := nullptr;
                              callback := Some 21%N |};
                           {| value := 5; dependent := 1; callback := None |}];
             should_destroy := false |})
    ∈ semaphore_dependencies example_semaphores
  ∧ 1%N ≠ nullptr ∧ (4 < 5)%N
  ∧ ∃ g' evs,
      collect 3 (λ _, 4%N) example_semaphores = Done g'
      ∧ trace g' = trace example_semaphores ++ evs
      ∧ cleanups_of 1 evs = 0.
Proof.
  pose proof example_semaphores_reachable as Hr.
  assert (1 ≤ SIZE_MAX)%N as Hn by (by apply small_bound).
  pose proof example_semaphores_fuel as Hf.
  set (t := {| value := 5; dependent := 1; callback := None |}).
  set (info := {| triggers := [{| value := 3; dependent := nullptr;
                                  callback := Some 21%N |}; t];
                  should_destroy := false |}).
  assert ((7%N, info) ∈ semaphore_dependencies example_semaphores) as Hin.
  { vm_compute. left. }
  assert (t ∈ triggers info) as Ht by (right; left).
  assert (1%N ≠ nullptr) as Hd by done.
  assert (4 < 5)%N as Hv by lia.
  split_and!; [done..|].
  destruct (resource_waits_for_its_semaphore 1 example_semaphores 3 (λ _, 4%N)
              7 info t Hr Hn Hf Hin Ht Hd Hv) as (g' & evs & ? & ? & ? & _).
  by exists g', evs.
Defined.
